(** * esphome-config: the music-LED frame driver and the AQI lookup

    A shallow embedding of

    - [custom_components/esphome-music-leds/esphome_music_leds.cpp]
      (class [MusicLeds]: [setup] and [ShowFrame]), and
    - [include/aqipm.h] ([calcAQIpm25], [calcAQIpm10]),

    followed by the properties of the specification that concern them.

    Conventions.  C++ [int] values are [Z]; arrays are lists indexed by
    [Z] through checked accessors, so that an access outside the array
    (undefined behaviour in C++) makes the embedded function return
    [None]; [float] and [double] values are [spec_float]s of the
    Standard Library's IEEE-754 specification, at precision 24 and 53. *)

From Stdlib Require Import Bool ZArith QArith Qpower Lia.
From Stdlib Require Import Floats.SpecFloat.
From stdpp Require Import base option list gmap.

Open Scope Z_scope.

(* ===================================================================== *)
(** * IEEE-754 binary32 and binary64 arithmetic *)
(* ===================================================================== *)

Module Ieee.

(** [float] is binary32, [double] is binary64. *)
Definition prec32 : Z := 24.
Definition emax32 : Z := 128.
Definition prec64 : Z := 53.
Definition emax64 : Z := 1024.

Definition f32_add : spec_float -> spec_float -> spec_float := SFadd prec32 emax32.
Definition f32_sub : spec_float -> spec_float -> spec_float := SFsub prec32 emax32.
Definition f32_mul : spec_float -> spec_float -> spec_float := SFmul prec32 emax32.
Definition f32_div : spec_float -> spec_float -> spec_float := SFdiv prec32 emax32.
Definition f64_div : spec_float -> spec_float -> spec_float := SFdiv prec64 emax64.

(** The comparisons [a >= b] and [a <= b] of C: false as soon as one
    operand is a NaN. *)
Definition f_ge (a b : spec_float) : bool :=
  match SFcompare a b with
  | Some Gt | Some Eq => true
  | _ => false
  end.

Definition f_le (a b : spec_float) : bool :=
  match SFcompare a b with
  | Some Lt | Some Eq => true
  | _ => false
  end.

Definition f_lt (a b : spec_float) : bool :=
  match SFcompare a b with
  | Some Lt => true
  | _ => false
  end.

Definition f_gt (a b : spec_float) : bool :=
  match SFcompare a b with
  | Some Gt => true
  | _ => false
  end.

Definition is_nan (a : spec_float) : bool :=
  match a with
  | S754_nan => true
  | _ => false
  end.

(** Conversions: integer to [double] (exact for the integers used
    here), [double] to [float] (rounding to nearest even) and [float]
    to [double] (exact). *)
Definition f64_of_int (z : Z) : spec_float :=
  binary_normalize prec64 emax64 z 0 false.

Definition f32_of_f64 (d : spec_float) : spec_float :=
  match d with
  | S754_finite s m e => binary_round prec32 emax32 s m e
  | _ => d
  end.

Definition f64_of_f32 (x : spec_float) : spec_float :=
  match x with
  | S754_finite s m e => binary_round prec64 emax64 s m e
  | _ => x
  end.

(** A decimal literal [num/den] of type [double]: the correctly
    rounded quotient of two exactly represented integers. *)
Definition f64_lit (num den : Z) : spec_float :=
  f64_div (f64_of_int num) (f64_of_int den).

(** The same literal stored in a [float] object. *)
Definition f32_lit (num den : Z) : spec_float :=
  f32_of_f64 (f64_lit num den).

(** The integer part of a finite value, rounded towards zero. *)
Definition Ztrunc_float (x : spec_float) : option Z :=
  match x with
  | S754_zero _ => Some 0
  | S754_finite s m e =>
      Some (cond_Zopp s (if 0 <=? e then Z.pos m * 2 ^ e
                         else Z.pos m / 2 ^ (- e)))
  | _ => None
  end.

(** [trunc] of <math.h>, on [double]. *)
Definition trunc (x : spec_float) : spec_float :=
  match x with
  | S754_finite s m e =>
      if 0 <=? e then x
      else binary_normalize prec64 emax64
             (cond_Zopp s (Z.pos m / 2 ^ (- e))) 0 s
  | _ => x
  end.

Definition INT_MIN : Z := - 2 ^ 31.
Definition INT_MAX : Z := 2 ^ 31 - 1.

(** Conversion of a [double] to [int]: the value is truncated; the
    behaviour is undefined ([None]) when the truncated value is not
    representable, in particular for NaN and the infinities. *)
Definition int_of_f64 (x : spec_float) : option Z :=
  match Ztrunc_float x with
  | Some z => if (INT_MIN <=? z) && (z <=? INT_MAX) then Some z else None
  | None => None
  end.

(** [m] followed by [k] zero bits. *)
Definition shl (m : positive) (k : nat) : positive := Nat.iter k xO m.

(** The exact rational value of a finite float. *)
Definition SF2Q (x : spec_float) : option Q :=
  match x with
  | S754_zero _ => Some 0%Q
  | S754_finite s m e =>
      Some (inject_Z (cond_Zopp s (Z.pos m)) * Qpower 2 e)%Q
  | _ => None
  end.

(** [x] is finite and its value is the rational [q]. *)
Definition value_is (x : spec_float) (q : Q) : Prop :=
  match SF2Q x with
  | Some v => (v == q)%Q
  | None => False
  end.

(** ** Vocabulary of the rounding properties

    What follows is not in the source: it serves to state what the
    operations above compute. *)

(** [m / 2^n] rounded to the nearest integer, ties to even. *)
Definition nearest (m n : Z) : Z :=
  let q := m / 2 ^ n in
  match 2 * (m mod 2 ^ n) ?= 2 ^ n with
  | Lt => q
  | Eq => if Z.even q then q else q + 1
  | Gt => q + 1
  end.

(** The last step of [binary_round_aux]: the rounded mantissa [c] at
    the exponent [E] made a float of sign [s]. *)
Definition finish (prec emax : Z) (s : bool) (c E : Z) : spec_float :=
  let '(mrs, e') := shr_fexp prec emax c E loc_Exact in
  match shr_m mrs with
  | Z0 => S754_zero s
  | Zpos m => if e' <=? emax - prec then S754_finite s m e' else S754_infinity s
  | Zneg _ => S754_nan
  end.

(** The mantissas that rounding produces at the exponent [E]: at most
    [prec] bits, or [2^prec] after a carry, and all [prec] bits
    above the smallest exponent. *)
Definition grid (prec emax : Z) (c E : Z) : Prop :=
  emin prec emax <= E /\ 0 <= c <= 2 ^ prec
  /\ (emin prec emax < E -> 2 ^ (prec - 1) <= c).

(** [x] is a zero or a finite number. *)
Definition is_finite (x : spec_float) : bool :=
  match x with
  | S754_zero _ | S754_finite _ _ _ => true
  | _ => false
  end.

(** The value of a finite float, and 0 for the others. *)
Definition Qval (x : spec_float) : Q :=
  match SF2Q x with
  | Some q => q
  | None => 0%Q
  end.

(** A valid finite float that is not negative. *)
Definition nonneg (prec emax : Z) (x : spec_float) : Prop :=
  valid_binary prec emax x = true /\ is_finite x = true /\ (0 <= Qval x)%Q.

(** [x] is what rounding the rational [q >= 0] to nearest even gives. *)
Definition rounds (prec emax : Z) (x : spec_float) (q : Q) : Prop :=
  exists M e,
    0 <= M /\ (inject_Z M * Qpower 2 e == q)%Q
    /\ (x = binary_normalize prec emax M e false
        \/ (M = 0 /\ exists s, x = S754_zero s)).

End Ieee.

(* ===================================================================== *)
(** * include/aqipm.h *)
(* ===================================================================== *)

Module Aqi.
Import Ieee.

(** Element [k] of a constant table (all indices of the source are
    literal and inside the table). *)
Definition at_ (t : list spec_float) (k : nat) : spec_float :=
  nth k t (S754_zero false).

Definition BIN_PM25 : list spec_float :=
  [ f32_lit 0 1; f32_lit 0 1; f32_lit 12 1; f32_lit 354 10; f32_lit 554 10;
    f32_lit 1504 10; f32_lit 2504 10; f32_lit 3504 10; f32_lit 5004 10 ].

Definition BIN_PM10 : list spec_float :=
  [ f32_lit 0 1; f32_lit 0 1; f32_lit 54 1; f32_lit 154 1; f32_lit 254 1;
    f32_lit 135 1; f32_lit 424 1; f32_lit 504 1; f32_lit 604 1 ].

Definition BIN_AQI : list spec_float :=
  [ f32_lit 0 1; f32_lit 0 1; f32_lit 50 1; f32_lit 100 1; f32_lit 150 1;
    f32_lit 200 1; f32_lit 300 1; f32_lit 400 1; f32_lit 500 1 ].

(** The right-hand side shared by every branch of both functions:
    [((AQI[k+1] - AQI[k]) / (BIN[k+1] - BIN[k])) * (pm - BIN[k]) + AQI[k]]
    in [float] arithmetic. *)
Definition interpolate (BIN : list spec_float) (k : nat) (pm : spec_float)
  : spec_float :=
  f32_add
    (f32_mul
       (f32_div (f32_sub (at_ BIN_AQI (S k)) (at_ BIN_AQI k))
                (f32_sub (at_ BIN (S k)) (at_ BIN k)))
       (f32_sub pm (at_ BIN k)))
    (at_ BIN_AQI k).

(** The guard of the branch for segment [k]:
    [pm >= BIN[k] && pm <= BIN[k+1]]. *)
Definition in_segment (BIN : list spec_float) (k : nat) (pm : spec_float)
  : bool :=
  f_ge pm (at_ BIN k) && f_le pm (at_ BIN (S k)).

(** The value of the local [aqipm25] after the if/else chain. *)
Definition aqipm25_of (pm25 : spec_float) : spec_float :=
  if in_segment BIN_PM25 1 pm25 then interpolate BIN_PM25 1 pm25
  else if in_segment BIN_PM25 2 pm25 then interpolate BIN_PM25 2 pm25
  else if in_segment BIN_PM25 3 pm25 then interpolate BIN_PM25 3 pm25
  else if in_segment BIN_PM25 4 pm25 then interpolate BIN_PM25 4 pm25
  else if in_segment BIN_PM25 5 pm25 then interpolate BIN_PM25 5 pm25
  else if in_segment BIN_PM25 6 pm25 then interpolate BIN_PM25 6 pm25
  else if in_segment BIN_PM25 7 pm25 then interpolate BIN_PM25 7 pm25
  else f32_lit 0 1.

Definition calcAQIpm25 (pm25 : spec_float) : option Z :=
  int_of_f64 (trunc (f64_of_f32 (aqipm25_of pm25))).

(** The value of the local [aqipm10] after the if/else chain. *)
Definition aqipm10_of (pm10 : spec_float) : spec_float :=
  if in_segment BIN_PM10 1 pm10 then interpolate BIN_PM10 1 pm10
  else if in_segment BIN_PM10 2 pm10 then interpolate BIN_PM10 2 pm10
  else if in_segment BIN_PM10 3 pm10 then interpolate BIN_PM10 3 pm10
  else if in_segment BIN_PM10 4 pm10 then interpolate BIN_PM10 4 pm10
  else if in_segment BIN_PM10 5 pm10 then interpolate BIN_PM10 5 pm10
  else if in_segment BIN_PM10 6 pm10 then interpolate BIN_PM10 6 pm10
  else if in_segment BIN_PM10 7 pm10 then interpolate BIN_PM10 7 pm10
  else f32_lit 0 1.

Definition calcAQIpm10 (pm10 : spec_float) : option Z :=
  int_of_f64 (trunc (f64_of_f32 (aqipm10_of pm10))).

(** ** Vocabulary of the properties *)

Definition zero : spec_float := S754_zero false.

(** An input outside the table: a NaN, a value below zero, or a value
    above the last entry of the table. *)
Definition outside (BIN : list spec_float) (pm : spec_float) : Prop :=
  is_nan pm = true \/ f_lt pm zero = true \/ f_gt pm (at_ BIN 8) = true.

(** [f] never decreases on the inputs that are at least zero. *)
Definition nondecreasing (f : spec_float -> option Z) : Prop :=
  forall x y a b,
    f_le zero x = true -> f_le x y = true ->
    f x = Some a -> f y = Some b -> a <= b.

(** The reading of the specification's sentence on the misordered
    entry of [BIN_PM10], that [calcAQIpm10] decreases because of it:
    between two inputs of the table, from zero to [BIN_PM10[8]], the
    result goes down. *)
Definition decreases_within_table : Prop :=
  exists x y a b,
    valid_binary prec32 emax32 x = true
    /\ valid_binary prec32 emax32 y = true
    /\ f_le zero x = true /\ f_le x y = true
    /\ f_le y (at_ BIN_PM10 8) = true
    /\ calcAQIpm10 x = Some a /\ calcAQIpm10 y = Some b /\ b < a.

(** ** Vocabulary of the order properties

    What follows is not in the source: it serves to state and to
    check, by evaluation, how the branches of a table follow one
    another. *)

(** The if/else chain with the upper test of each branch only, over
    the branches [ks]. *)
Fixpoint upper_chain (BIN : list spec_float) (ks : list nat)
  (pm : spec_float) : spec_float :=
  match ks with
  | [] => f32_lit 0 1
  | k :: rest =>
      if f_le pm (at_ BIN (S k)) then interpolate BIN k pm
      else upper_chain BIN rest pm
  end.

(** The slope of branch [k]. *)
Definition slope (BIN : list spec_float) (k : nat) : spec_float :=
  f32_div (f32_sub (at_ BIN_AQI (S k)) (at_ BIN_AQI k))
          (f32_sub (at_ BIN (S k)) (at_ BIN k)).

(** A valid finite [float] that is not negative, as a test. *)
Definition nonnegb (x : spec_float) : bool :=
  valid_binary prec32 emax32 x && is_finite x && f_le zero x.

(** What evaluation settles about branch [k]: its ends, its slope and
    its offset are finite and not negative, its ends are in order,
    and the interpolation at its upper end does not overflow. *)
Definition branch_ok (BIN : list spec_float) (k : nat) : bool :=
  let lo := at_ BIN k in
  let hi := at_ BIN (S k) in
  nonnegb lo && nonnegb hi && nonnegb (slope BIN k)
  && nonnegb (at_ BIN_AQI k) && f_le lo hi
  && is_finite (f32_sub hi lo)
  && is_finite (f32_mul (slope BIN k) (f32_sub hi lo))
  && is_finite (interpolate BIN k hi).

(** The same about a chain of branches: every branch is in order,
    starts at or below the end of the one before, and starts at or
    above the value [B] at which the one before ended. *)
Fixpoint chain_ok (BIN : list spec_float) (B : spec_float) (ks : list nat)
  : bool :=
  match ks with
  | [] => true
  | k :: rest =>
      branch_ok BIN k
      && f_le B (interpolate BIN k (at_ BIN k))
      && match rest with
         | [] => true
         | k' :: _ => f_le (at_ BIN k') (at_ BIN (S k))
         end
      && chain_ok BIN (interpolate BIN k (at_ BIN (S k))) rest
  end.

End Aqi.

(* ===================================================================== *)
(** * custom_components/esphome-music-leds/esphome_music_leds.cpp *)
(* ===================================================================== *)

(** FastLED's [CRGB] pixel and ESPHome's [Color]: 8-bit channels. *)
Module CRGB.
Record t : Type := mk { r : Z; g : Z; b : Z }.
End CRGB.

Module Color.
Record t : Type := mk { r : Z; g : Z; b : Z; w : Z }.
End Color.

Module MusicLeds.
Import Ieee.

(** ** What the source takes from elsewhere

    [esphome_music_leds.h] is not among the sources: its constants
    and the enumerators of [PLAYMODE] are parameters. *)
Class Header : Type := {
  BUFFER_SIZE : Z;
  N_ROLLING_HISTORY : Z;
  N_MEL_BIN : Z;
  SAMPLE_RATE : Z;
  MLED_I2S_NUM : Z;
  portMAX_DELAY : Z;
  MODE_SCROLL : Z;
  MODE_ENERGY : Z;
  MODE_SPECTRUM : Z
}.

(** The collaborators: the spectral transform [FFT], the
    visualisations [VisualEffect] and the I2S driver of the capture
    peripheral.  Their code is not among the sources; each is an
    arbitrary function of its own state and of its arguments, with the
    interface the specification gives it: [t2mel] reads the sample
    history and writes the mel vector; a visualisation reads the mel
    vector and writes the pixel array it is handed; [i2s_read] takes
    the port, the size in bytes and the ticks to wait, and returns the
    16-bit samples it delivered. *)
Class Collaborators : Type := {
  FFT : Type;
  VisualEffect : Type;
  I2S : Type;
  i2s_config_t : Type;
  t2mel : FFT -> list spec_float -> list spec_float -> FFT * list spec_float;
  visualize_scroll :
    VisualEffect -> list spec_float -> list CRGB.t -> VisualEffect * list CRGB.t;
  visualize_energy :
    VisualEffect -> list spec_float -> list CRGB.t -> VisualEffect * list CRGB.t;
  visualize_spectrum :
    VisualEffect -> list spec_float -> list CRGB.t -> VisualEffect * list CRGB.t;
  i2s_driver_install : Z -> i2s_config_t -> I2S -> I2S;
  i2s_set_pin : Z -> Z * Z -> I2S -> I2S;
  i2s_stop : Z -> I2S -> I2S;
  i2s_start : Z -> I2S -> I2S;
  i2s_read : Z -> Z -> Z -> I2S -> I2S * list Z
}.

(** The pixel array handed to a visualisation is a C array: whatever
    the visualisation writes, the array has as many entries after the
    call as before. *)
Class ArraysKeepSize (C : Collaborators) : Prop := {
  visualize_scroll_size : forall e mel leds,
    length (visualize_scroll e mel leds).2 = length leds;
  visualize_energy_size : forall e mel leds,
    length (visualize_energy e mel leds).2 = length leds;
  visualize_spectrum_size : forall e mel leds,
    length (visualize_spectrum e mel leds).2 = length leds
}.

(** ** Arrays

    Checked array accesses: [None] stands for the undefined behaviour
    of an access outside the array. *)
Definition len {A : Type} (a : list A) : Z := Z.of_nat (length a).

Definition arr_get {A : Type} (a : list A) (i : Z) : option A :=
  if 0 <=? i then a !! Z.to_nat i else None.

Definition arr_set {A : Type} (a : list A) (i : Z) (x : A) : option (list A) :=
  if (0 <=? i) && (i <? len a) then Some (<[Z.to_nat i := x]> a) else None.

(** [memcpy(a + dst, a + src, n * sizeof *a)]: both ranges must lie in
    the array and must not overlap. *)
Definition memcpy {A : Type} (a : list A) (dst src n : Z) : option (list A) :=
  if (0 <=? dst) && (0 <=? src) && (0 <=? n)
     && (dst + n <=? len a) && (src + n <=? len a)
     && ((dst + n <=? src) || (src + n <=? dst))
  then Some (take (Z.to_nat dst) a
             ++ take (Z.to_nat n) (drop (Z.to_nat src) a)
             ++ drop (Z.to_nat (dst + n)) a)
  else None.

(** [for (int i = i0; i < i0 + n; i++) body], over a state that an
    iteration may leave undefined. *)
Fixpoint for_from {S : Type} (n : nat) (i : Z) (body : Z -> S -> option S)
  (s : S) : option S :=
  match n with
  | O => Some s
  | Datatypes.S n' => body i s ≫= for_from n' (i + 1) body
  end.

Definition for_lt {S : Type} (bound : Z) (body : Z -> S -> option S)
  (s : S) : option S :=
  for_from (Z.to_nat bound) 0 body s.

(** A value stored in an [int16_t] object. *)
Definition int16_t (z : Z) : Z := (z + 32768) mod 65536 - 32768.

Definition sizeof_float : Z := 4.

(** [raw / 32768.0] assigned to a [float]: the [int16_t] operand is
    converted to [double], the division is a [double] division, the
    quotient is rounded to [float]. *)
Definition normalize (raw : Z) : spec_float :=
  f32_of_f64 (f64_div (f64_of_int raw) (f64_lit 32768 1)).

(** What [i2s_read] leaves in the destination buffer: the delivered
    samples in front, the rest of the buffer as it was. *)
Definition fill (buf data : list Z) : list Z :=
  take (length buf) (data ++ drop (length data) buf).

Section Model.
Context `{H : Header} `{C : Collaborators}.

(** ** State *)

(** The operations a call performs, in the order it performs them. *)
Inductive Op : Type :=
| OpI2sDriverInstall (port : Z)
| OpI2sSetPin (port ws data : Z)
| OpI2sStop (port : Z)
| OpI2sStart (port : Z)
| OpI2sRead (port size ticks_to_wait : Z)
| OpLogI (n_pixels ws data : Z)
| OpLogD (mode samples : Z)
| OpMemcpy (dst src bytes : Z)
| OpStoreSample (index : Z) (value : spec_float)
| OpT2mel (history : list spec_float)
| OpVisualizeScroll (mel : list spec_float)
| OpVisualizeEnergy (mel : list spec_float)
| OpVisualizeSpectrum (mel : list spec_float)
| OpLightWrite (index : Z) (c : Color.t).

(** The function-level [static] objects of [ShowFrame]: one copy for
    the whole program. *)
Record Statics : Type := mkStatics {
  mel_data : list spec_float;
  bytes_read : Z;
  ii : Z
}.

(** The data members of one [MusicLeds] object. *)
Record Object : Type := mkObject {
  n_pixels_ : Z;
  pin_config : Z * Z;
  i2s_config : i2s_config_t;
  y_data : list spec_float;
  fft : FFT;
  effect : VisualEffect;
  physic_leds : list CRGB.t
}.

(** What a member function can reach: the statics, the capture
    peripheral, its own object, the light buffer [p_it] it was
    handed, and the operations performed so far. *)
Record Machine : Type := mkMachine {
  statics : Statics;
  periph : I2S;
  this : Object;
  p_it : list Color.t;
  ops : list Op
}.

Definition set_y_data (y : list spec_float) (s : Machine) : Machine :=
  let o := this s in
  mkMachine (statics s) (periph s)
    (mkObject (n_pixels_ o) (pin_config o) (i2s_config o) y (fft o)
              (effect o) (physic_leds o))
    (p_it s) (ops s).

Definition set_fft (f : FFT) (s : Machine) : Machine :=
  let o := this s in
  mkMachine (statics s) (periph s)
    (mkObject (n_pixels_ o) (pin_config o) (i2s_config o) (y_data o) f
              (effect o) (physic_leds o))
    (p_it s) (ops s).

Definition set_effect_leds (el : VisualEffect * list CRGB.t) (s : Machine)
  : Machine :=
  let o := this s in
  mkMachine (statics s) (periph s)
    (mkObject (n_pixels_ o) (pin_config o) (i2s_config o) (y_data o) (fft o)
              el.1 el.2)
    (p_it s) (ops s).

Definition set_statics (g : Statics) (s : Machine) : Machine :=
  mkMachine g (periph s) (this s) (p_it s) (ops s).

Definition set_periph (d : I2S) (s : Machine) : Machine :=
  mkMachine (statics s) d (this s) (p_it s) (ops s).

Definition set_p_it (l : list Color.t) (s : Machine) : Machine :=
  mkMachine (statics s) (periph s) (this s) l (ops s).

Definition emit (o : Op) (s : Machine) : Machine :=
  mkMachine (statics s) (periph s) (this s) (p_it s) (ops s ++ [o]).

(** ** [MusicLeds::setup] (lines 35-42) *)
Definition setup (s : Machine) : Machine :=
  let o := this s in
  let s := emit (OpI2sDriverInstall MLED_I2S_NUM)
             (set_periph (i2s_driver_install MLED_I2S_NUM (i2s_config o)
                            (periph s)) s) in
  let s := emit (OpI2sSetPin MLED_I2S_NUM (pin_config o).1 (pin_config o).2)
             (set_periph (i2s_set_pin MLED_I2S_NUM (pin_config o)
                            (periph s)) s) in
  let s := emit (OpI2sStop MLED_I2S_NUM)
             (set_periph (i2s_stop MLED_I2S_NUM (periph s)) s) in
  let s := emit (OpI2sStart MLED_I2S_NUM)
             (set_periph (i2s_start MLED_I2S_NUM (periph s)) s) in
  emit (OpLogI (n_pixels_ o) (pin_config o).1 (pin_config o).2) s.

(** ** [MusicLeds::ShowFrame] (lines 44-88) *)

(** Lines 49-53: the loop of [memcpy]s over the sample history. *)
Definition shift_step (i : Z) (s : Machine) : option Machine :=
  y ← memcpy (y_data (this s)) (i * BUFFER_SIZE) ((i + 1) * BUFFER_SIZE)
             BUFFER_SIZE;
  Some (emit (OpMemcpy (i * BUFFER_SIZE) ((i + 1) * BUFFER_SIZE)
                       (sizeof_float * BUFFER_SIZE))
          (set_y_data y s)).

Definition shift_history (s : Machine) : option Machine :=
  for_lt (N_ROLLING_HISTORY - 1) shift_step s.

(** Lines 46 and 56: the zero-initialised local [i2s_buf] and the
    call of [i2s_read], which also writes the static [bytes_read]. *)
Definition capture (s : Machine) : Machine * list Z :=
  let i2s_buf := replicate (Z.to_nat BUFFER_SIZE) 0 in
  let '(dev, delivered) :=
    i2s_read MLED_I2S_NUM (BUFFER_SIZE * 2) portMAX_DELAY (periph s) in
  let i2s_buf := fill i2s_buf (map int16_t delivered) in
  let g := statics s in
  (emit (OpI2sRead MLED_I2S_NUM (BUFFER_SIZE * 2) portMAX_DELAY)
     (set_statics
        (mkStatics (mel_data g)
           (2 * Z.min (len delivered) BUFFER_SIZE) (ii g))
        (set_periph dev s)),
   i2s_buf).

(** Lines 58-65: one iteration of the normalising loop.  The static
    counter [ii] is an [int]: incrementing it past [INT_MAX], and
    taking a remainder by zero, are undefined. *)
Definition ingest_step (CurrentMode : Z) (i2s_buf : list Z) (i : Z)
  (s : Machine) : option Machine :=
  raw ← arr_get i2s_buf i;
  let idx := BUFFER_SIZE * (N_ROLLING_HISTORY - 1) + i in
  y ← arr_set (y_data (this s)) idx (normalize raw);
  let s := emit (OpStoreSample idx (normalize raw)) (set_y_data y s) in
  let g := statics s in
  if ii g + 1 <=? INT_MAX then
    let s := set_statics (mkStatics (mel_data g) (bytes_read g) (ii g + 1)) s in
    if SAMPLE_RATE =? 0 then None
    else if Z.rem (ii g + 1) SAMPLE_RATE =? 0
         then Some (emit (OpLogD CurrentMode (ii g + 1)) s)
         else Some s
  else None.

Definition ingest (CurrentMode : Z) (i2s_buf : list Z) (s : Machine)
  : option Machine :=
  for_lt BUFFER_SIZE (ingest_step CurrentMode i2s_buf) s.

(** Line 66: [fft->t2mel(y_data, mel_data)]. *)
Definition transform (s : Machine) : Machine :=
  let g := statics s in
  let '(f, mel) := t2mel (fft (this s)) (y_data (this s)) (mel_data g) in
  emit (OpT2mel (y_data (this s)))
    (set_statics (mkStatics mel (bytes_read g) (ii g)) (set_fft f s)).

(** Lines 68-78: the [switch], which has no [default]. *)
Definition dispatch (CurrentMode : Z) (s : Machine) : Machine :=
  let mel := mel_data (statics s) in
  let o := this s in
  if CurrentMode =? MODE_SCROLL then
    emit (OpVisualizeScroll mel)
      (set_effect_leds (visualize_scroll (effect o) mel (physic_leds o)) s)
  else if CurrentMode =? MODE_ENERGY then
    emit (OpVisualizeEnergy mel)
      (set_effect_leds (visualize_energy (effect o) mel (physic_leds o)) s)
  else if CurrentMode =? MODE_SPECTRUM then
    emit (OpVisualizeSpectrum mel)
      (set_effect_leds (visualize_spectrum (effect o) mel (physic_leds o)) s)
  else s.

(** Lines 80-87: the copy into the light buffer. *)
Definition to_color (p : CRGB.t) : Color.t :=
  Color.mk (CRGB.r p) (CRGB.g p) (CRGB.b p) 0.

Definition copy_step (i : Z) (s : Machine) : option Machine :=
  p ← arr_get (physic_leds (this s)) i;
  let c := to_color p in
  l ← arr_set (p_it s) i c;
  Some (emit (OpLightWrite i c) (set_p_it l s)).

Definition copy_out (s : Machine) : option Machine :=
  for_lt (len (p_it s)) copy_step s.

Definition ShowFrame (CurrentMode : Z) (s : Machine) : option Machine :=
  s ← shift_history s;
  let '(s, i2s_buf) := capture s in
  s ← ingest CurrentMode i2s_buf s;
  copy_out (dispatch CurrentMode (transform s)).

(** ** Several objects

    The objects of the program live at distinct addresses; the
    statics, the peripheral [MLED_I2S_NUM] and the record of
    operations exist once. *)
Record World : Type := mkWorld {
  w_statics : Statics;
  w_periph : I2S;
  w_ops : list Op;
  w_heap : gmap nat Object
}.

(** [obj->ShowFrame(CurrentMode, p_it)] for the object at address
    [obj]; a call through a dangling pointer is undefined. *)
Definition ShowFrame_at (obj : nat) (CurrentMode : Z) (light : list Color.t)
  (w : World) : option (World * list Color.t) :=
  o ← w_heap w !! obj;
  s ← ShowFrame CurrentMode
        (mkMachine (w_statics w) (w_periph w) o light (w_ops w));
  Some (mkWorld (statics s) (periph s) (ops s) (<[obj := this s]> (w_heap w)),
        p_it s).

(** The pipeline state named by the specification, as the object at
    [obj] sees it: sample buffer, mel-energy vector, pixel buffer
    and diagnostic sample counter. *)
Definition pipeline_state (obj : nat) (w : World)
  : option (list spec_float * list spec_float * list CRGB.t * Z) :=
  o ← w_heap w !! obj;
  Some (y_data o, mel_data (w_statics w), physic_leds o, ii (w_statics w)).

(** ** Closed forms of the loops

    What each loop of [ShowFrame] computes, written without the
    loop; the loops are proved equal to them further down. *)
Definition emits (l : list Op) (s : Machine) : Machine :=
  mkMachine (statics s) (periph s) (this s) (p_it s) (ops s ++ l).

Definition window : nat := Z.to_nat BUFFER_SIZE.
Definition depth : nat := Z.to_nat N_ROLLING_HISTORY.

Definition memcpy_op (i : nat) : Op :=
  OpMemcpy (Z.of_nat i * BUFFER_SIZE) ((Z.of_nat i + 1) * BUFFER_SIZE)
           (sizeof_float * BUFFER_SIZE).

Definition shifted (s : Machine) : Machine :=
  let y := y_data (this s) in
  emits (map memcpy_op (seq 0 (depth - 1)))
    (set_y_data (drop window y ++ drop ((depth - 1) * window) y) s).

Fixpoint window_ops (CurrentMode : Z) (idx cnt : Z) (buf : list Z) : list Op :=
  match buf with
  | [] => []
  | raw :: rest =>
      OpStoreSample idx (normalize raw)
        :: (if Z.rem (cnt + 1) SAMPLE_RATE =? 0
            then [OpLogD CurrentMode (cnt + 1)] else [])
        ++ window_ops CurrentMode (idx + 1) (cnt + 1) rest
  end.

Definition ingested (CurrentMode : Z) (i2s_buf : list Z) (s : Machine)
  : Machine :=
  let g := statics s in
  let y := y_data (this s) in
  emits (window_ops CurrentMode (BUFFER_SIZE * (N_ROLLING_HISTORY - 1))
           (ii g) i2s_buf)
    (set_statics (mkStatics (mel_data g) (bytes_read g) (ii g + len i2s_buf))
       (set_y_data (take ((depth - 1) * window) y ++ map normalize i2s_buf) s)).

Fixpoint write_ops (i : Z) (l : list CRGB.t) : list Op :=
  match l with
  | [] => []
  | p :: l' => OpLightWrite i (to_color p) :: write_ops (i + 1) l'
  end.

Definition copied (s : Machine) : Machine :=
  let leds := take (length (p_it s)) (physic_leds (this s)) in
  emits (write_ops 0 leds) (set_p_it (map to_color leds) s).

Definition ShowFrame_result (CurrentMode : Z) (s : Machine) : Machine :=
  let '(s2, i2s_buf) := capture (shifted s) in
  copied (dispatch CurrentMode (transform (ingested CurrentMode i2s_buf s2))).

(** The window that a call of [ShowFrame] in state [s] captures: the
    contents of [i2s_buf] after [i2s_read]. *)
Definition captured (s : Machine) : list Z :=
  (capture s).2.

(** The state of a frame when its normalising loop has finished. *)
Definition after_ingest (CurrentMode : Z) (s : Machine) : Machine :=
  ingested CurrentMode (captured s) (capture (shifted s)).1.

(** ** Vocabulary of the properties *)

(** The conditions under which every step of [ShowFrame] is defined:
    the sample history has [N_ROLLING_HISTORY] windows of
    [BUFFER_SIZE] samples, the counter [ii] can be incremented
    [BUFFER_SIZE] times, the remainder by [SAMPLE_RATE] exists, and
    the light buffer is not longer than the pixel array. *)
Definition ready (s : Machine) : Prop :=
  0 <= BUFFER_SIZE /\ 1 <= N_ROLLING_HISTORY /\ SAMPLE_RATE <> 0
  /\ len (y_data (this s)) = BUFFER_SIZE * N_ROLLING_HISTORY
  /\ ii (statics s) + BUFFER_SIZE <= INT_MAX
  /\ len (p_it s) <= len (physic_leds (this s)).

Definition recognized (CurrentMode : Z) : Prop :=
  CurrentMode = MODE_SCROLL \/ CurrentMode = MODE_ENERGY
  \/ CurrentMode = MODE_SPECTRUM.

(** The pixel array keeps its size across the switch. *)
Definition size_kept (CurrentMode : Z) : Prop :=
  forall s, length (physic_leds (this (dispatch CurrentMode s)))
            = length (physic_leds (this s)).

Definition is_log (o : Op) : bool :=
  match o with
  | OpLogI _ _ _ | OpLogD _ _ => true
  | _ => false
  end.

Definition is_visualize (o : Op) : bool :=
  match o with
  | OpVisualizeScroll _ | OpVisualizeEnergy _ | OpVisualizeSpectrum _ => true
  | _ => false
  end.

Definition is_light_write (o : Op) : bool :=
  match o with
  | OpLightWrite _ _ => true
  | _ => false
  end.

Definition is_i2s_read (o : Op) : bool :=
  match o with
  | OpI2sRead _ _ _ => true
  | _ => false
  end.

Definition is_t2mel (o : Op) : bool :=
  match o with
  | OpT2mel _ => true
  | _ => false
  end.

(** The stores of the normalising loop, without its log lines. *)
Fixpoint store_ops (idx : Z) (buf : list Z) : list Op :=
  match buf with
  | [] => []
  | raw :: rest => OpStoreSample idx (normalize raw) :: store_ops (idx + 1) rest
  end.

(** How often operations of the kind [kind] occur in [l]. *)
Definition count (kind : Op -> bool) (l : list Op) : nat :=
  length (filter (fun o => kind o = true) l).

(** [a] is performed, and later [b]. *)
Definition precedes (a b : Op) (l : list Op) : Prop :=
  exists l1 l2 l3, l = l1 ++ a :: l2 ++ b :: l3.

(** A step from [s] to [s'] that neither writes the pixel frame, nor
    touches the visualisation object, nor calls a visualisation. *)
Definition pixels_untouched (s s' : Machine) : Prop :=
  physic_leds (this s') = physic_leds (this s)
  /\ effect (this s') = effect (this s)
  /\ exists l, ops s' = ops s ++ l /\ count is_visualize l = 0%nat.

(** The operations a call added to the record [before]. *)
Definition performed (before : list Op) (s' : Machine) : list Op :=
  drop (length before) (ops s').

(** The same without the diagnostic log lines. *)
Definition steps (before : list Op) (s' : Machine) : list Op :=
  filter (fun o => is_log o = false) (performed before s').

(** The visualisation the [switch] calls for [CurrentMode]. *)
Definition visualize_op (CurrentMode : Z) (mel : list spec_float) : list Op :=
  if CurrentMode =? MODE_SCROLL then [OpVisualizeScroll mel]
  else if CurrentMode =? MODE_ENERGY then [OpVisualizeEnergy mel]
  else if CurrentMode =? MODE_SPECTRUM then [OpVisualizeSpectrum mel]
  else [].

(** The reading of the specification's ownership sentence: a call on
    the object at [a] leaves the pipeline state of every other
    object [b] as it was. *)
Definition exclusively_owned : Prop :=
  forall (a b : nat) (CurrentMode : Z) (light light' : list Color.t)
         (w w' : World),
    a <> b ->
    ShowFrame_at a CurrentMode light w = Some (w', light') ->
    pipeline_state b w' = pipeline_state b w.

(** The reading of the specification's output sentence: a call with a
    recognised mode performs [n_pixels_] writes into the light
    buffer. *)
Definition writes_pixel_count : Prop :=
  forall (CurrentMode : Z) (s s' : Machine),
    recognized CurrentMode -> ready s ->
    len (physic_leds (this s)) = n_pixels_ (this s) ->
    ShowFrame CurrentMode s = Some s' ->
    Z.of_nat (count is_light_write (steps (ops s) s'))
    = n_pixels_ (this s).

(** ** Successive frames *)

(** [ShowFrame] called once for each mode selector of [modes], on the
    same object and the same light buffer. *)
Fixpoint frames (modes : list Z) (s : Machine) : option Machine :=
  match modes with
  | [] => Some s
  | CurrentMode :: rest => ShowFrame CurrentMode s ≫= frames rest
  end.

(** What [n] successive frames find in [i2s_buf] after their
    [i2s_read], one window after the other, when the peripheral
    starts in state [d]. *)
Fixpoint stream (n : nat) (d : I2S) : list Z :=
  match n with
  | O => []
  | S n' =>
      let r := i2s_read MLED_I2S_NUM (BUFFER_SIZE * 2) portMAX_DELAY d in
      fill (replicate (Z.to_nat BUFFER_SIZE) 0) (map int16_t r.2)
      ++ stream n' r.1
  end.

End Model.

(** ** A concrete configuration

    A small header, and collaborators simple enough to run: the
    microphone is the list of the samples it will deliver, the
    transform copies the newest sample into every mel bin, and each
    visualisation paints every pixel in one colour. *)
Definition demo_header : Header := {|
  BUFFER_SIZE := 2;
  N_ROLLING_HISTORY := 3;
  N_MEL_BIN := 2;
  SAMPLE_RATE := 2;
  MLED_I2S_NUM := 0;
  portMAX_DELAY := 4294967295;
  MODE_SCROLL := 0;
  MODE_ENERGY := 1;
  MODE_SPECTRUM := 2
|}.

Definition demo_collaborators : Collaborators := {|
  FFT := unit;
  VisualEffect := unit;
  I2S := list Z;
  i2s_config_t := unit;
  t2mel := fun f y mel =>
    (f, replicate (length mel) (default (S754_zero false) (last y)));
  visualize_scroll := fun e _ leds => (e, map (fun _ => CRGB.mk 255 0 0) leds);
  visualize_energy := fun e _ leds => (e, map (fun _ => CRGB.mk 0 255 0) leds);
  visualize_spectrum := fun e _ leds => (e, map (fun _ => CRGB.mk 0 0 255) leds);
  i2s_driver_install := fun _ _ d => d;
  i2s_set_pin := fun _ _ d => d;
  i2s_stop := fun _ d => d;
  i2s_start := fun _ d => d;
  i2s_read := fun _ size _ d =>
    (drop (Z.to_nat (size / 2)) d, take (Z.to_nat (size / 2)) d)
|}.

Definition demo_object (n_pixels : nat) : @Object demo_collaborators :=
  @mkObject demo_collaborators (Z.of_nat n_pixels) (25, 26) tt
    (replicate 6 (S754_zero false)) tt tt
    (replicate n_pixels (CRGB.mk 1 2 3)).

Definition demo_statics : Statics :=
  mkStatics [S754_zero false; S754_zero false] 0 0.

Definition demo_microphone : list Z := [-32768; 32767; 100; -200].

(** One object with [n_pixels] pixels, about to render into a light
    buffer of [size] slots. *)
Definition demo_machine (n_pixels size : nat) : @Machine demo_collaborators :=
  @mkMachine demo_collaborators demo_statics demo_microphone
    (demo_object n_pixels) (replicate size (Color.mk 9 9 9 9)) [].

(** Two objects, at the addresses 1 and 2. *)
Definition demo_world : @World demo_collaborators :=
  @mkWorld demo_collaborators demo_statics demo_microphone []
    (<[1%nat := demo_object 3]> (<[2%nat := demo_object 3]> ∅)).

End MusicLeds.


(* ===================================================================== *)
(** * Properties of the floating-point comparisons *)
(* ===================================================================== *)

Module IeeeFacts.
Import Ieee.

Ltac split_compare :=
  repeat match goal with
    | H : context [Pos.compare_cont Eq ?a ?b] |- _ =>
        change (Pos.compare_cont Eq a b) with (Pos.compare a b) in H
    | |- context [Pos.compare_cont Eq ?a ?b] =>
        change (Pos.compare_cont Eq a b) with (Pos.compare a b)
    end;
  repeat match goal with
    | H : context [Z.compare ?a ?b] |- _ => destruct (Z.compare_spec a b)
    | |- context [Z.compare ?a ?b] => destruct (Z.compare_spec a b)
    | H : context [Pos.compare ?a ?b] |- _ => destruct (Pos.compare_spec a b)
    | |- context [Pos.compare ?a ?b] => destruct (Pos.compare_spec a b)
    end;
  simpl in *; subst; try congruence; try lia.

(** [SFcompare] orders the floats that are not NaN: a strict step
    followed by a weak one is strict. *)
Lemma SFcompare_lt_le_trans (a b c : spec_float) :
  SFcompare a b = Some Lt ->
  SFcompare b c = Some Lt \/ SFcompare b c = Some Eq ->
  SFcompare a c = Some Lt.
Proof.
  destruct a as [sa|sa| |sa ma ea], b as [sb|sb| |sb mb eb],
           c as [sc|sc| |sc mc ec];
    simpl; intros Hab [Hbc|Hbc];
    try discriminate;
    repeat match goal with s : bool |- _ => destruct s end;
    simpl in *; try congruence;
    first [ reflexivity | injection Hab as Hab; injection Hbc as Hbc; f_equal; split_compare ].
Qed.

Lemma SFcompare_le_lt_trans (a b c : spec_float) :
  SFcompare a b = Some Lt \/ SFcompare a b = Some Eq ->
  SFcompare b c = Some Lt ->
  SFcompare a c = Some Lt.
Proof.
  destruct a as [sa|sa| |sa ma ea], b as [sb|sb| |sb mb eb],
           c as [sc|sc| |sc mc ec];
    simpl; intros [Hab|Hab] Hbc;
    try discriminate;
    repeat match goal with s : bool |- _ => destruct s end;
    simpl in *; try congruence;
    first [ reflexivity | injection Hab as Hab; injection Hbc as Hbc; f_equal; split_compare ].
Qed.

Lemma SFcompare_antisym (a b : spec_float) (c : comparison) :
  SFcompare a b = Some c -> SFcompare b a = Some (CompOpp c).
Proof.
  destruct a as [sa|sa| |sa ma ea], b as [sb|sb| |sb mb eb];
    simpl; intros Hab; try discriminate;
    repeat match goal with s : bool |- _ => destruct s end;
    simpl in *; injection Hab as Hab; subst c; try reflexivity;
    f_equal; split_compare.
Qed.

End IeeeFacts.

(* ===================================================================== *)
(** * Conversions and divisions that round nothing away *)
(* ===================================================================== *)

Module RoundingFacts.
Import Ieee.

Lemma iter_pos_nat {A} (f : A -> A) (p : positive) (x : A) :
SpecFloat.iter_pos f p x = Nat.iter (Pos.to_nat p) f x.
Proof.
revert x. induction p as [p IH|p IH|]; intros x; simpl SpecFloat.iter_pos.
- rewrite !IH, Pos2Nat.inj_xI, <- Nat.iter_succ_r, <- Nat.iter_add.
  f_equal. lia.
- rewrite !IH, Pos2Nat.inj_xO, <- Nat.iter_add. f_equal. lia.
- reflexivity.
Qed.

Lemma Pos_iter_shl (m p : positive) : Pos.iter xO m p = shl m (Pos.to_nat p).
Proof. unfold shl. rewrite Pos2Nat.inj_iter. reflexivity. Qed.

Lemma digits2_pos_shl m k :
Z.pos (digits2_pos (shl m k)) = Z.pos (digits2_pos m) + Z.of_nat k.
Proof.
induction k as [|k IH]; [simpl; lia|].
change (shl m (S k)) with (xO (shl m k)). simpl digits2_pos.
rewrite Pos2Z.inj_succ, IH. lia.
Qed.

Lemma shr_1_shl m k :
Nat.iter k shr_1 (Build_shr_record (Z.pos (shl m k)) false false)
= Build_shr_record (Z.pos m) false false.
Proof.
induction k as [|k IH]; [reflexivity|].
rewrite Nat.iter_succ_r. change (shl m (S k)) with (xO (shl m k)).
simpl shr_1. exact IH.
Qed.

Lemma shl_value m k : Z.pos (shl m k) = Z.pos m * 2 ^ Z.of_nat k.
Proof.
induction k as [|k IH]; [simpl; lia|].
change (shl m (S k)) with (xO (shl m k)).
rewrite Pos2Z.inj_xO, IH, Nat2Z.inj_succ, Z.pow_succ_r by lia. lia.
Qed.

Lemma shl_add m j k : shl (shl m j) k = shl m (k + j).
Proof. unfold shl. now rewrite Nat.iter_add. Qed.

Lemma binary_round_aux_exact prec emax s m (k : nat) e :
fexp prec emax (Z.pos (digits2_pos (shl m k)) + e) = e + Z.of_nat k ->
e + Z.of_nat k <= emax - prec ->
binary_round_aux prec emax s (Z.pos (shl m k)) e loc_Exact
= S754_finite s m (e + Z.of_nat k).
Proof.
intros Hexp Hmax.
assert (Hfirst : shr_fexp prec emax (Z.pos (shl m k)) e loc_Exact
                 = (Build_shr_record (Z.pos m) false false, e + Z.of_nat k)).
{ unfold shr_fexp. simpl Zdigits2. rewrite Hexp.
  replace (e + Z.of_nat k - e) with (Z.of_nat k) by lia.
  simpl shr_record_of_loc. unfold shr.
  destruct k as [|k]; [simpl; f_equal; lia|].
  change (Z.of_nat (S k)) with (Z.pos (Pos.of_succ_nat k)). cbv iota.
  rewrite iter_pos_nat, SuccNat2Pos.id_succ, shr_1_shl. reflexivity. }
assert (Hsecond : shr_fexp prec emax (Z.pos m) (e + Z.of_nat k) loc_Exact
                  = (Build_shr_record (Z.pos m) false false, e + Z.of_nat k)).
{ unfold shr_fexp. simpl Zdigits2.
  rewrite digits2_pos_shl in Hexp.
  replace (Z.pos (digits2_pos m) + (e + Z.of_nat k))
    with (Z.pos (digits2_pos m) + Z.of_nat k + e) by lia.
  rewrite Hexp, Z.sub_diag. reflexivity. }
unfold binary_round_aux. rewrite Hfirst.
simpl shr_m. simpl loc_of_shr_record. simpl round_nearest_even.
rewrite Hsecond. simpl shr_m.
apply Z.leb_le in Hmax. now rewrite Hmax.
Qed.

(** Left alignment *)
Lemma binary_round_exact prec emax s m (k : nat) e :
fexp prec emax (Z.pos (digits2_pos m) + e) = e - Z.of_nat k ->
e - Z.of_nat k <= emax - prec ->
binary_round prec emax s m e = S754_finite s (shl m k) (e - Z.of_nat k).
Proof.
intros Hexp Hmax. unfold binary_round. rewrite Hexp.
assert (Halign : shl_align m e (e - Z.of_nat k) = (shl m k, e - Z.of_nat k)).
{ unfold shl_align. replace (e - Z.of_nat k - e) with (- Z.of_nat k) by lia.
  destruct k as [|k]; [simpl; f_equal; lia|].
  change (- Z.of_nat (S k)) with (Z.neg (Pos.of_succ_nat k)). cbv iota.
  rewrite Pos_iter_shl, SuccNat2Pos.id_succ. reflexivity. }
rewrite Halign.
replace (shl m k) with (shl (shl m k) 0) at 1 by reflexivity.
rewrite binary_round_aux_exact.
- f_equal. simpl. lia.
- simpl shl. rewrite digits2_pos_shl. simpl Z.of_nat.
  replace (Z.pos (digits2_pos m) + Z.of_nat k + (e - Z.of_nat k))
    with (Z.pos (digits2_pos m) + e) by lia.
  rewrite Hexp. lia.
- simpl. lia.
Qed.

Lemma digits2_pos_lower m : 2 ^ (Z.pos (digits2_pos m) - 1) <= Z.pos m.
Proof.
  induction m as [m IH|m IH|]; simpl digits2_pos;
    rewrite ?Pos2Z.inj_succ;
    try (replace (Z.succ (Z.pos (digits2_pos m)) - 1)
           with (Z.succ (Z.pos (digits2_pos m) - 1)) by lia;
         rewrite Z.pow_succ_r by lia); simpl; lia.
Qed.

Lemma digits2_pos_int16 m :
  Z.pos m <= 32768 -> 1 <= Z.pos (digits2_pos m) <= 16.
Proof.
  intros Hm. split; [lia|].
  destruct (Z_le_gt_dec (Z.pos (digits2_pos m)) 16) as [Hle|Hgt]; [exact Hle|].
  pose proof (digits2_pos_lower m) as Hlow.
  assert (2 ^ 16 <= 2 ^ (Z.pos (digits2_pos m) - 1))
    by (apply Z.pow_le_mono_r; lia).
  change (2 ^ 16) with 65536 in *. lia.
Qed.

Lemma div_eucl_double (a b : Z) :
  0 < b -> Z.div_eucl (a * (2 * b)) b = (2 * a, 0).
Proof.
  intros Hb.
  assert (Hpair : Z.div_eucl (a * (2 * b)) b
                  = ((a * (2 * b)) / b, (a * (2 * b)) mod b)).
  { unfold Z.div, Z.modulo. now destruct (Z.div_eucl (a * (2 * b)) b). }
  rewrite Hpair.
  replace (a * (2 * b)) with (2 * a * b) by lia.
  rewrite Z.div_mul, Z.mod_mul by lia. reflexivity.
Qed.

(** Stage 1: an integer of at most 53 bits converts exactly. *)
Lemma f64_of_int_exact (s : bool) (m : positive) :
  Z.pos (digits2_pos m) <= 53 ->
  f64_of_int (cond_Zopp s (Z.pos m))
  = S754_finite s (shl m (Z.to_nat (53 - Z.pos (digits2_pos m))))
      (Z.pos (digits2_pos m) - 53).
Proof.
  intros Hd.
  assert (Hround : binary_round prec64 emax64 s m 0
                   = S754_finite s (shl m (Z.to_nat (53 - Z.pos (digits2_pos m))))
                       (0 - Z.of_nat (Z.to_nat (53 - Z.pos (digits2_pos m))))).
  { apply binary_round_exact; rewrite Z2Nat.id by lia;
      unfold fexp, emin, prec64, emax64; lia. }
  rewrite Z2Nat.id in Hround by lia.
  replace (0 - (53 - Z.pos (digits2_pos m)))
    with (Z.pos (digits2_pos m) - 53) in Hround by lia.
  destruct s; exact Hround.
Qed.

(** Stage 2: dividing a 53-bit mantissa by 2^15 only moves the
    exponent. *)
Lemma f64_div_32768_exact (s : bool) (M : positive) (E : Z) :
  digits2_pos M = 53%positive -> -1058 <= E <= 900 ->
  f64_div (S754_finite s M E) (f64_lit 32768 1) = S754_finite s M (E - 15).
Proof.
  intros HM HE.
  change (f64_lit 32768 1) with (S754_finite false 4503599627370496 (-37)).
  unfold f64_div, SFdiv.
  assert (Hcore : SFdiv_core_binary prec64 emax64 (Z.pos M) E
                    4503599627370496 (-37)
                  = (Z.pos (shl M 1), E - 16, loc_Exact)).
  { assert (Hd : digits2_pos 4503599627370496 = 53%positive)
      by (vm_compute; reflexivity).
    unfold SFdiv_core_binary.
    change (Zdigits2 (Z.pos M)) with (Z.pos (digits2_pos M)).
    change (Zdigits2 4503599627370496)
      with (Z.pos (digits2_pos 4503599627370496)).
    rewrite HM, Hd.
    replace (Z.min (fexp prec64 emax64 (53 + E - (53 + -37))) (E - -37))
      with (E - 16) by (unfold fexp, emin, prec64, emax64; lia).
    replace (E - -37 - (E - 16)) with 53 by lia. cbv iota.
    rewrite Z.shiftl_mul_pow2 by lia.
    change (2 ^ 53) with (2 * 4503599627370496).
    rewrite div_eucl_double by lia.
    change (shl M 1) with (xO M). rewrite Pos2Z.inj_xO. reflexivity. }
  rewrite Hcore, binary_round_aux_exact.
  - rewrite xorb_false_r. f_equal. simpl Z.of_nat. lia.
  - rewrite digits2_pos_shl, HM. unfold fexp, emin, prec64, emax64.
    simpl Z.of_nat. lia.
  - unfold prec64, emax64. simpl Z.of_nat. lia.
Qed.

(** Stage 3: a [double] whose mantissa ends in 29 zero bits narrows
    to [float] exactly. *)
Lemma f32_of_f64_exact (s : bool) (m : positive) (E : Z) :
  digits2_pos m = 24%positive -> -178 <= E <= 75 ->
  f32_of_f64 (S754_finite s (shl m 29) E) = S754_finite s m (E + 29).
Proof.
  intros Hm HE. unfold f32_of_f64, binary_round.
  rewrite digits2_pos_shl, Hm.
  assert (Halign : shl_align (shl m 29) E
                     (fexp prec32 emax32 (24 + Z.of_nat 29 + E))
                   = (shl m 29, E)).
  { unfold shl_align.
    replace (fexp prec32 emax32 (24 + Z.of_nat 29 + E) - E) with 29
      by (unfold fexp, emin, prec32, emax32; simpl Z.of_nat; lia).
    reflexivity. }
  rewrite Halign, binary_round_aux_exact.
  - reflexivity.
  - rewrite digits2_pos_shl, Hm. unfold fexp, emin, prec32, emax32.
    simpl Z.of_nat. lia.
  - unfold prec32, emax32. simpl Z.of_nat. lia.
Qed.

End RoundingFacts.

(* ===================================================================== *)
(** * The order of the values behind the comparisons *)
(* ===================================================================== *)

Module OrderFacts.
Import Ieee IeeeFacts RoundingFacts.

Lemma two_power_pos (e : Z) : (0 < Qpower 2 e)%Q.
Proof. apply Qpower_0_lt. reflexivity. Qed.

Lemma scale_mantissa (m e k : Z) :
  0 <= k ->
  (inject_Z (m * 2 ^ k) * Qpower 2 e == inject_Z m * Qpower 2 (k + e))%Q.
Proof.
  intros Hk. rewrite inject_Z_mult, Zpower_Qpower by assumption.
  change (inject_Z 2) with 2%Q.
  rewrite <- Qmult_assoc, <- Qpower_plus by discriminate. reflexivity.
Qed.

(** Two mantissas brought to a common exponent compare as the values. *)
Lemma aligned_lt (m1 m2 e1 e2 e : Z) :
  e <= e1 -> e <= e2 ->
  m1 * 2 ^ (e1 - e) < m2 * 2 ^ (e2 - e) ->
  (inject_Z m1 * Qpower 2 e1 < inject_Z m2 * Qpower 2 e2)%Q.
Proof.
  intros H1 H2 Hlt.
  replace e1 with ((e1 - e) + e) at 1 by lia.
  replace e2 with ((e2 - e) + e) at 1 by lia.
  rewrite <- !scale_mantissa by lia.
  apply Qmult_lt_r; [apply two_power_pos|]. now rewrite <- Zlt_Qlt.
Qed.

Lemma digits2_pos_upper m : Z.pos m < 2 ^ Z.pos (digits2_pos m).
Proof.
  induction m as [m IH|m IH|]; simpl digits2_pos;
    rewrite ?Pos2Z.inj_succ, ?Z.pow_succ_r by lia; simpl; lia.
Qed.

Section Format.
Variables prec emax : Z.
Hypothesis prec_pos : 0 < prec.

Lemma bounded_digits m e :
  bounded prec emax m e = true ->
  Z.pos (digits2_pos m) <= prec
  /\ emin prec emax <= e
  /\ (emin prec emax < e -> Z.pos (digits2_pos m) = prec).
Proof.
  unfold bounded, canonical_mantissa, fexp. intros Hb.
  apply andb_true_iff in Hb as [Hc _]. apply Z.eqb_eq in Hc. lia.
Qed.

(** Among canonical mantissas the one with the larger exponent is the
    larger number. *)
Lemma canonical_lt m1 e1 m2 e2 :
  bounded prec emax m1 e1 = true -> bounded prec emax m2 e2 = true ->
  e1 < e2 -> Z.pos m1 < Z.pos m2 * 2 ^ (e2 - e1).
Proof.
  intros H1 H2 He.
  destruct (bounded_digits m1 e1 H1) as (Hd1 & Hmin & _).
  destruct (bounded_digits m2 e2 H2) as (_ & _ & Hd2).
  specialize (Hd2 ltac:(lia)).
  pose proof (digits2_pos_upper m1) as Hup.
  pose proof (digits2_pos_lower m2) as Hlow. rewrite Hd2 in Hlow.
  assert (Hp1 : 2 ^ Z.pos (digits2_pos m1) <= 2 ^ prec)
    by (apply Z.pow_le_mono_r; lia).
  assert (Hp2 : 2 ^ 1 <= 2 ^ (e2 - e1)) by (apply Z.pow_le_mono_r; lia).
  assert (Hp3 : 2 ^ prec = 2 ^ (prec - 1) * 2 ^ 1)
    by (rewrite <- Z.pow_add_r by lia; f_equal; lia).
  assert (Hpos : 0 < 2 ^ (prec - 1)) by (apply Z.pow_pos_nonneg; lia).
  nia.
Qed.

Lemma positive_Lt_value m1 e1 m2 e2 :
  bounded prec emax m1 e1 = true -> bounded prec emax m2 e2 = true ->
  SFcompare (S754_finite false m1 e1) (S754_finite false m2 e2) = Some Lt ->
  (inject_Z (Z.pos m1) * Qpower 2 e1 < inject_Z (Z.pos m2) * Qpower 2 e2)%Q.
Proof.
  intros H1 H2 Hc. simpl in Hc. injection Hc as Hc.
  change (Pos.compare_cont Eq m1 m2) with (Pos.compare m1 m2) in Hc.
  destruct (Z.compare_spec e1 e2) as [->|He|He]; try discriminate.
  - apply (aligned_lt _ _ _ _ e2); try lia.
    rewrite Z.sub_diag, Z.pow_0_r, !Z.mul_1_r.
    exact Hc.
  - apply (aligned_lt _ _ _ _ e1); try lia.
    rewrite Z.sub_diag, Z.pow_0_r, Z.mul_1_r. now apply canonical_lt.
Qed.

Lemma positive_value_pos (m : positive) (e : Z) :
  (0 < inject_Z (Z.pos m) * Qpower 2 e)%Q.
Proof.
  apply Qmult_lt_0_compat; [|apply two_power_pos].
  change 0%Q with (inject_Z 0). now rewrite <- Zlt_Qlt.
Qed.

Lemma negative_value (m : positive) (e : Z) :
  (inject_Z (- Z.pos m) * Qpower 2 e == - (inject_Z (Z.pos m) * Qpower 2 e))%Q.
Proof. rewrite inject_Z_opp. ring. Qed.

Lemma negative_compare (m1 m2 : positive) (e1 e2 : Z) :
  SFcompare (S754_finite true m1 e1) (S754_finite true m2 e2)
  = SFcompare (S754_finite false m2 e2) (S754_finite false m1 e1).
Proof.
  simpl. f_equal.
  change (Pos.compare_cont Eq m1 m2) with (Pos.compare m1 m2).
  change (Pos.compare_cont Eq m2 m1) with (Pos.compare m2 m1).
  rewrite (Z.compare_antisym e1 e2), (Pos.compare_antisym m1 m2).
  destruct (e1 ?= e2); reflexivity.
Qed.

(** On valid floats [SFcompare] is the order of the values. *)
Lemma SFcompare_Lt_value (x y : spec_float) (qx qy : Q) :
  valid_binary prec emax x = true -> valid_binary prec emax y = true ->
  SF2Q x = Some qx -> SF2Q y = Some qy ->
  SFcompare x y = Some Lt -> (qx < qy)%Q.
Proof.
  intros Vx Vy Hx Hy Hc.
  destruct x as [sx|sx| |sx mx ex], y as [sy|sy| |sy my ey];
    try discriminate; simpl in Hx, Hy, Vx, Vy;
    injection Hx as <-; injection Hy as <-.
  - destruct sy; try discriminate. apply positive_value_pos.
  - destruct sx; try discriminate. cbn [cond_Zopp].
    rewrite negative_value. apply (Qopp_lt_compat 0), positive_value_pos.
  - destruct sx, sy; cbn [cond_Zopp].
    + rewrite negative_compare in Hc. rewrite !negative_value.
      apply Qopp_lt_compat. now apply positive_Lt_value.
    + rewrite negative_value.
      apply Qlt_trans with 0%Q;
        [apply (Qopp_lt_compat 0)|]; apply positive_value_pos.
    + discriminate.
    + now apply positive_Lt_value.
Qed.

Lemma SFcompare_Eq_value (x y : spec_float) (qx qy : Q) :
  SF2Q x = Some qx -> SF2Q y = Some qy ->
  SFcompare x y = Some Eq -> (qx == qy)%Q.
Proof.
  intros Hx Hy Hc.
  destruct x as [sx|sx| |sx mx ex], y as [sy|sy| |sy my ey];
    try discriminate; simpl in Hx, Hy; injection Hx as <-; injection Hy as <-.
  - reflexivity.
  - destruct sy; discriminate.
  - destruct sx; discriminate.
  - simpl in Hc.
    change (Pos.compare_cont Eq mx my) with (Pos.compare mx my) in Hc.
    destruct sx, sy; try discriminate;
      destruct (Z.compare_spec ex ey) as [->|?|?]; try discriminate;
      destruct (Pos.compare_spec mx my) as [->|?|?]; try discriminate;
      reflexivity.
Qed.

Lemma SFcompare_finite (x y : spec_float) (qx qy : Q) :
  SF2Q x = Some qx -> SF2Q y = Some qy -> exists c, SFcompare x y = Some c.
Proof.
  intros Hx Hy.
  destruct x as [sx|sx| |sx mx ex], y as [sy|sy| |sy my ey];
    try discriminate; simpl; eauto.
Qed.

(** The comparisons of C on valid floats, from the order of the
    values. *)
Lemma value_lt_f_lt (x y : spec_float) (qx qy : Q) :
  valid_binary prec emax x = true -> valid_binary prec emax y = true ->
  SF2Q x = Some qx -> SF2Q y = Some qy ->
  (qx < qy)%Q -> f_lt x y = true /\ f_gt y x = true.
Proof.
  intros Vx Vy Hx Hy Hlt.
  assert (Hc : SFcompare x y = Some Lt).
  { destruct (SFcompare_finite x y qx qy Hx Hy) as [[| |] Hc]; [| exact Hc |].
    - pose proof (SFcompare_Eq_value x y qx qy Hx Hy Hc) as Heq.
      rewrite Heq in Hlt. exfalso. now apply Qlt_irrefl in Hlt.
    - apply SFcompare_antisym in Hc. cbn [CompOpp] in Hc.
      pose proof (SFcompare_Lt_value y x qy qx Vy Vx Hy Hx Hc) as Hgt.
      exfalso. apply (Qlt_irrefl qx). now apply Qlt_trans with qy. }
  split; [unfold f_lt; now rewrite Hc|].
  apply SFcompare_antisym in Hc. cbn [CompOpp] in Hc.
  unfold f_gt. now rewrite Hc.
Qed.

Lemma value_le_f_le (x y : spec_float) (qx qy : Q) :
  valid_binary prec emax x = true -> valid_binary prec emax y = true ->
  SF2Q x = Some qx -> SF2Q y = Some qy ->
  (qx <= qy)%Q -> f_le x y = true.
Proof.
  intros Vx Vy Hx Hy Hle.
  destruct (SFcompare_finite x y qx qy Hx Hy) as [[| |] Hc];
    unfold f_le; rewrite Hc; try reflexivity.
  apply SFcompare_antisym in Hc. cbn [CompOpp] in Hc.
  pose proof (SFcompare_Lt_value y x qy qx Vy Vx Hy Hx Hc) as Hgt.
  now apply Qle_not_lt in Hle.
Qed.

End Format.
End OrderFacts.

(* ===================================================================== *)
(** * The AQI lookup *)
(* ===================================================================== *)

Module AqiFacts.
Import Ieee IeeeFacts OrderFacts Aqi.

Lemma f_lt_Some a b : f_lt a b = true -> SFcompare a b = Some Lt.
Proof.
  unfold f_lt. destruct (SFcompare a b) as [[]|]; congruence.
Qed.

Lemma f_gt_Some a b : f_gt a b = true -> SFcompare a b = Some Gt.
Proof.
  unfold f_gt. destruct (SFcompare a b) as [[]|]; congruence.
Qed.

Lemma f_le_Some a b :
  f_le a b = true -> SFcompare a b = Some Lt \/ SFcompare a b = Some Eq.
Proof.
  unfold f_le. destruct (SFcompare a b) as [[]|]; intros; auto; congruence.
Qed.

Lemma f_ge_Some a b :
  f_ge a b = true -> SFcompare b a = Some Lt \/ SFcompare b a = Some Eq.
Proof.
  unfold f_ge. destruct (SFcompare a b) as [[]|] eqn:E; intros; try congruence;
    apply SFcompare_antisym in E; cbn [CompOpp] in E; auto.
Qed.

(** [a < b <= c] excludes [a >= c]. *)
Lemma below_not_ge a b c :
  f_lt a b = true -> f_le b c = true -> f_ge a c = false.
Proof.
  intros Hab Hbc. apply f_lt_Some in Hab. apply f_le_Some in Hbc.
  unfold f_ge. now rewrite (SFcompare_lt_le_trans a b c Hab Hbc).
Qed.

(** [c <= b < a] excludes [a <= c]. *)
Lemma above_not_le a b c :
  f_gt a b = true -> f_le c b = true -> f_le a c = false.
Proof.
  intros Hab Hcb. apply f_gt_Some, SFcompare_antisym in Hab. cbn [CompOpp] in Hab.
  apply f_le_Some in Hcb.
  pose proof (SFcompare_le_lt_trans c b a Hcb Hab) as Hca.
  apply SFcompare_antisym in Hca. cbn [CompOpp] in Hca.
  unfold f_le. now rewrite Hca.
Qed.

Lemma in_segment_below BIN k pm :
  f_lt pm zero = true -> f_le zero (at_ BIN k) = true ->
  in_segment BIN k pm = false.
Proof.
  intros Hlt Hk. unfold in_segment.
  now rewrite (below_not_ge pm zero (at_ BIN k) Hlt Hk).
Qed.

Lemma in_segment_above BIN k pm top :
  f_gt pm top = true -> f_le (at_ BIN (S k)) top = true ->
  in_segment BIN k pm = false.
Proof.
  intros Hgt Hk. unfold in_segment.
  rewrite (above_not_le pm top (at_ BIN (S k)) Hgt Hk).
  apply andb_false_r.
Qed.

Lemma in_segment_nan BIN k pm : is_nan pm = true -> in_segment BIN k pm = false.
Proof.
  destruct pm; try discriminate. reflexivity.
Qed.

(** A segment whose lower end lies above its upper end is empty. *)
Lemma in_segment_empty BIN k pm :
  f_lt (at_ BIN (S k)) (at_ BIN k) = true -> in_segment BIN k pm = false.
Proof.
  intros Hlt. unfold in_segment.
  destruct (f_ge pm (at_ BIN k)) eqn:Hge; [|reflexivity]. simpl.
  apply f_ge_Some in Hge. apply f_lt_Some in Hlt.
  pose proof (SFcompare_lt_le_trans _ _ _ Hlt Hge) as Hca.
  apply SFcompare_antisym in Hca. cbn [CompOpp] in Hca.
  unfold f_le. now rewrite Hca.
Qed.

Ltac by_evaluation := vm_compute; first [reflexivity | discriminate].

Lemma aqipm25_outside pm : outside BIN_PM25 pm -> aqipm25_of pm = f32_lit 0 1.
Proof.
  intros [Hnan|[Hlt|Hgt]]; unfold aqipm25_of.
  - now rewrite !in_segment_nan by assumption.
  - now rewrite !in_segment_below by (assumption || by_evaluation).
  - now rewrite !(in_segment_above _ _ _ _ Hgt) by by_evaluation.
Qed.

Lemma aqipm10_outside pm : outside BIN_PM10 pm -> aqipm10_of pm = f32_lit 0 1.
Proof.
  intros [Hnan|[Hlt|Hgt]]; unfold aqipm10_of.
  - now rewrite !in_segment_nan by assumption.
  - now rewrite !in_segment_below by (assumption || by_evaluation).
  - now rewrite !(in_segment_above _ _ _ _ Hgt) by by_evaluation.
Qed.

(** Inputs above 254 and at most 424 satisfy the guard of segment 5
    and no earlier guard. *)
Lemma in_segment5 pm :
  f_gt pm (f32_lit 254 1) = true -> f_le pm (f32_lit 424 1) = true ->
  in_segment BIN_PM10 5 pm = true.
Proof.
  intros Hgt Hle. unfold in_segment. apply andb_true_iff. split.
  - apply f_gt_Some, SFcompare_antisym in Hgt. cbn [CompOpp] in Hgt.
    assert (H135 : SFcompare (at_ BIN_PM10 5) pm = Some Lt).
    { apply (SFcompare_lt_le_trans _ (f32_lit 254 1)); [by_evaluation|auto]. }
    apply SFcompare_antisym in H135. cbn [CompOpp] in H135.
    unfold f_ge. now rewrite H135.
  - exact Hle.
Qed.

Lemma aqipm10_segment5 pm :
  f_gt pm (f32_lit 254 1) = true -> f_le pm (f32_lit 424 1) = true ->
  aqipm10_of pm = interpolate BIN_PM10 5 pm.
Proof.
  intros Hgt Hle. unfold aqipm10_of.
  rewrite (in_segment_above BIN_PM10 1 pm _ Hgt) by by_evaluation.
  rewrite (in_segment_above BIN_PM10 2 pm _ Hgt) by by_evaluation.
  rewrite (in_segment_above BIN_PM10 3 pm _ Hgt) by by_evaluation.
  rewrite (in_segment_empty BIN_PM10 4 pm) by by_evaluation.
  now rewrite (in_segment5 pm Hgt Hle).
Qed.

Lemma in_segment_outside_25 pm (k : nat) :
  outside BIN_PM25 pm -> (1 <= k <= 7)%nat -> in_segment BIN_PM25 k pm = false.
Proof.
  intros Hout Hk.
  assert (Hcases : (k = 1 \/ k = 2 \/ k = 3 \/ k = 4 \/ k = 5 \/ k = 6 \/ k = 7)%nat)
    by lia.
  destruct Hout as [Hnan|[Hlt|Hgt]].
  - now apply in_segment_nan.
  - apply in_segment_below; [assumption|].
    decompose [or] Hcases; subst k; by_evaluation.
  - apply (in_segment_above _ _ _ _ Hgt).
    decompose [or] Hcases; subst k; by_evaluation.
Qed.

Lemma in_segment_outside_10 pm (k : nat) :
  outside BIN_PM10 pm -> (1 <= k <= 7)%nat -> in_segment BIN_PM10 k pm = false.
Proof.
  intros Hout Hk.
  assert (Hcases : (k = 1 \/ k = 2 \/ k = 3 \/ k = 4 \/ k = 5 \/ k = 6 \/ k = 7)%nat)
    by lia.
  destruct Hout as [Hnan|[Hlt|Hgt]].
  - now apply in_segment_nan.
  - apply in_segment_below; [assumption|].
    decompose [or] Hcases; subst k; by_evaluation.
  - apply (in_segment_above _ _ _ _ Hgt).
    decompose [or] Hcases; subst k; by_evaluation.
Qed.

(** ** Inputs given by their value *)
Lemma value_of (pm : spec_float) (q : Q) :
  value_is pm q -> exists v, SF2Q pm = Some v /\ (v == q)%Q.
Proof.
  unfold value_is. destruct (SF2Q pm) as [v|]; [eauto|contradiction].
Qed.

Lemma above_by_value (pm c : spec_float) (q cq : Q) :
  valid_binary prec32 emax32 pm = true -> value_is pm q ->
  valid_binary prec32 emax32 c = true -> value_is c cq ->
  (cq < q)%Q -> f_gt pm c = true.
Proof.
  intros Vpm Hq Vc Hc Hlt.
  destruct (value_of pm q Hq) as (v & Hv & Hvq).
  destruct (value_of c cq Hc) as (u & Hu & Huq).
  rewrite <- Hvq, <- Huq in Hlt.
  now destruct (value_lt_f_lt prec32 emax32 eq_refl c pm u v Vc Vpm Hu Hv Hlt).
Qed.

Lemma below_by_value (pm c : spec_float) (q cq : Q) :
  valid_binary prec32 emax32 pm = true -> value_is pm q ->
  valid_binary prec32 emax32 c = true -> value_is c cq ->
  (q < cq)%Q -> f_lt pm c = true.
Proof.
  intros Vpm Hq Vc Hc Hlt.
  destruct (value_of pm q Hq) as (v & Hv & Hvq).
  destruct (value_of c cq Hc) as (u & Hu & Huq).
  rewrite <- Hvq, <- Huq in Hlt.
  now destruct (value_lt_f_lt prec32 emax32 eq_refl pm c v u Vpm Vc Hv Hu Hlt).
Qed.

Lemma at_most_by_value (pm c : spec_float) (q cq : Q) :
  valid_binary prec32 emax32 pm = true -> value_is pm q ->
  valid_binary prec32 emax32 c = true -> value_is c cq ->
  (q <= cq)%Q -> f_le pm c = true.
Proof.
  intros Vpm Hq Vc Hc Hle.
  destruct (value_of pm q Hq) as (v & Hv & Hvq).
  destruct (value_of c cq Hc) as (u & Hu & Huq).
  rewrite <- Hvq, <- Huq in Hle.
  exact (value_le_f_le prec32 emax32 eq_refl pm c v u Vpm Vc Hv Hu Hle).
Qed.

(** A valid float whose value is negative, or above [bound] where the
    last entry of the table is at most [bound], is outside the table. *)
Lemma outside_by_value (BIN : list spec_float) (pm : spec_float)
  (q top bound : Q) :
  valid_binary prec32 emax32 pm = true -> value_is pm q ->
  valid_binary prec32 emax32 (at_ BIN 8) = true ->
  value_is (at_ BIN 8) top -> (top <= bound)%Q ->
  (q < 0 \/ bound < q)%Q -> outside BIN pm.
Proof.
  intros Vpm Hq Vtop Htop Hbound [Hneg|Hbig]; right.
  - left. apply (below_by_value pm zero q 0%Q); auto; reflexivity.
  - right. apply (above_by_value pm (at_ BIN 8) q top); auto.
    now apply Qle_lt_trans with bound.
Qed.

(** ** The inputs outside the table *)

(** C10. For every input outside the table (a NaN, a value below
    zero, a value above the last bin: 500.4 for [calcAQIpm25], 604 for
    [calcAQIpm10]) no guard of the if/else chain holds and the
    function returns 0.  The inputs are given twice: by the comparisons
    of the code against the table, and, for a valid [float], by its
    value. *)
Theorem calcAQI_outside_table_is_zero (pm : spec_float) :
  (at_ BIN_PM25 8 = f32_lit 5004 10 /\ at_ BIN_PM10 8 = f32_lit 604 1)
  /\ (outside BIN_PM25 pm ->
      (forall k : nat, (1 <= k <= 7)%nat -> in_segment BIN_PM25 k pm = false)
      /\ calcAQIpm25 pm = Some 0)
  /\ (outside BIN_PM10 pm ->
      (forall k : nat, (1 <= k <= 7)%nat -> in_segment BIN_PM10 k pm = false)
      /\ calcAQIpm10 pm = Some 0)
  /\ (forall q : Q,
        valid_binary prec32 emax32 pm = true -> value_is pm q ->
        ((q < 0 \/ 5004 # 10 < q)%Q -> calcAQIpm25 pm = Some 0)
        /\ ((q < 0 \/ 604 < q)%Q -> calcAQIpm10 pm = Some 0)).
Proof.
  assert (H25 : outside BIN_PM25 pm ->
                (forall k : nat, (1 <= k <= 7)%nat ->
                                 in_segment BIN_PM25 k pm = false)
                /\ calcAQIpm25 pm = Some 0).
  { intros Hout. split.
    - intros k Hk. now apply in_segment_outside_25.
    - unfold calcAQIpm25. now rewrite aqipm25_outside. }
  assert (H10 : outside BIN_PM10 pm ->
                (forall k : nat, (1 <= k <= 7)%nat ->
                                 in_segment BIN_PM10 k pm = false)
                /\ calcAQIpm10 pm = Some 0).
  { intros Hout. split.
    - intros k Hk. now apply in_segment_outside_10.
    - unfold calcAQIpm10. now rewrite aqipm10_outside. }
  split; [split; reflexivity|]. split; [exact H25|]. split; [exact H10|].
  intros q Vpm Hq. split; intros Hrange.
  - apply H25.
    apply (outside_by_value BIN_PM25 pm q (16397107 # 32768) (5004 # 10));
      auto; by_evaluation.
  - apply H10.
    apply (outside_by_value BIN_PM10 pm q 604 604); auto; by_evaluation.
Qed.

Lemma calcAQI_outside_table_is_zero_witness :
  valid_binary prec32 emax32 (f32_lit 6050 10) = true
  /\ value_is (f32_lit 6050 10) 605
  /\ (605 < 0 \/ 5004 # 10 < 605)%Q /\ (605 < 0 \/ 604 < 605)%Q
  /\ calcAQIpm25 (f32_lit 6050 10) = Some 0
  /\ calcAQIpm10 (f32_lit 6050 10) = Some 0.
Proof.
  assert (Vpm : valid_binary prec32 emax32 (f32_lit 6050 10) = true)
    by (vm_compute; reflexivity).
  assert (Hq : value_is (f32_lit 6050 10) 605) by (vm_compute; reflexivity).
  assert (Hin25 : (605 < 0 \/ 5004 # 10 < 605)%Q)
    by (right; vm_compute; reflexivity).
  assert (Hin10 : (605 < 0 \/ 604 < 605)%Q)
    by (right; vm_compute; reflexivity).
  destruct (calcAQI_outside_table_is_zero (f32_lit 6050 10))
    as (_ & _ & _ & Hval).
  destruct (Hval 605%Q Vpm Hq) as [H25 H10].
  split; [exact Vpm|]. split; [exact Hq|]. split; [exact Hin25|].
  split; [exact Hin10|]. split; [exact (H25 Hin25)|exact (H10 Hin10)].
Defined.

End AqiFacts.

(* ===================================================================== *)
(** * Rounding to the nearest integer, ties to even *)
(* ===================================================================== *)

Module NearestFacts.
Import Ieee RoundingFacts.

Lemma pow2_pos (n : Z) : 0 <= n -> 0 < 2 ^ n.
Proof. intros Hn. apply Z.pow_pos_nonneg; lia. Qed.

Lemma nearest_range (m n : Z) :
  0 <= n -> m / 2 ^ n <= nearest m n <= m / 2 ^ n + 1.
Proof.
  intros Hn. unfold nearest.
  destruct (2 * (m mod 2 ^ n) ?= 2 ^ n); [destruct (Z.even _)| |]; lia.
Qed.

Lemma nearest_exact (c n : Z) : 0 <= n -> nearest (c * 2 ^ n) n = c.
Proof.
  intros Hn. pose proof (pow2_pos n Hn) as Hp. unfold nearest.
  rewrite Z.div_mul, Z.mod_mul by lia.
  assert (Hc : (2 * 0 ?= 2 ^ n) = Lt) by (apply Z.compare_lt_iff; lia).
  now rewrite Hc.
Qed.

Lemma nearest_0 (m : Z) : nearest m 0 = m.
Proof. rewrite <- (Z.mul_1_r m) at 1. apply (nearest_exact m 0). lia. Qed.

Lemma nearest_mono (m1 m2 n : Z) :
  0 <= n -> m1 <= m2 -> nearest m1 n <= nearest m2 n.
Proof.
  intros Hn Hm. pose proof (pow2_pos n Hn) as Hp.
  pose proof (Z.div_le_mono m1 m2 (2 ^ n) Hp Hm) as Hq.
  destruct (Z.eq_dec (m1 / 2 ^ n) (m2 / 2 ^ n)) as [Heq|Hne].
  - pose proof (Z.div_mod m1 (2 ^ n) ltac:(lia)) as H1.
    pose proof (Z.div_mod m2 (2 ^ n) ltac:(lia)) as H2.
    unfold nearest. rewrite <- Heq.
    destruct (Z.compare_spec (2 * (m1 mod 2 ^ n)) (2 ^ n));
      destruct (Z.compare_spec (2 * (m2 mod 2 ^ n)) (2 ^ n));
      destruct (Z.even (m1 / 2 ^ n)); nia.
  - pose proof (nearest_range m1 n Hn). pose proof (nearest_range m2 n Hn).
    lia.
Qed.

Lemma nearest_scale (m n k : Z) :
  0 <= n -> 0 <= k -> nearest (m * 2 ^ k) (n + k) = nearest m n.
Proof.
  intros Hn Hk. pose proof (pow2_pos n Hn). pose proof (pow2_pos k Hk).
  unfold nearest. rewrite Z.pow_add_r by assumption.
  rewrite Z.div_mul_cancel_r, Z.mul_mod_distr_r by lia.
  destruct (Z.compare_spec (2 * (m mod 2 ^ n * 2 ^ k)) (2 ^ n * 2 ^ k));
    destruct (Z.compare_spec (2 * (m mod 2 ^ n)) (2 ^ n));
    try reflexivity; exfalso; nia.
Qed.

Lemma nearest_lower (m n a : Z) :
  0 <= n <= a -> 2 ^ a <= m -> 2 ^ (a - n) <= nearest m n.
Proof.
  intros Hn Hm. rewrite <- (nearest_exact (2 ^ (a - n)) n) at 1 by lia.
  apply nearest_mono; [lia|].
  rewrite <- Z.pow_add_r by lia. now replace (a - n + n) with a by lia.
Qed.

Lemma nearest_upper (m n b : Z) :
  0 <= n <= b -> m <= 2 ^ b -> nearest m n <= 2 ^ (b - n).
Proof.
  intros Hn Hm. rewrite <- (nearest_exact (2 ^ (b - n)) n) at 1 by lia.
  apply nearest_mono; [lia|].
  rewrite <- Z.pow_add_r by lia. now replace (b - n + n) with b by lia.
Qed.

Lemma nearest_nonneg (m n : Z) : 0 <= n -> 0 <= m -> 0 <= nearest m n.
Proof.
  intros Hn Hm. pose proof (nearest_range m n Hn).
  pose proof (Z.div_pos m (2 ^ n) Hm (pow2_pos n Hn)). lia.
Qed.

(** ** The shifts of [SpecFloat] compute [nearest] *)

Lemma shr_1_spec (q : Z) (r s : bool) :
  0 <= q ->
  shr_1 (Build_shr_record q r s)
  = Build_shr_record (q / 2) (Z.odd q) (r || s).
Proof.
  intros Hq. rewrite <- Z.div2_div.
  destruct q as [|[p|p|]|p]; try reflexivity. lia.
Qed.

Lemma iter_shr_1 (m : Z) (n : nat) :
  0 <= m ->
  Nat.iter (S n) shr_1 (Build_shr_record m false false)
  = Build_shr_record (m / 2 ^ Z.of_nat (S n)) (Z.odd (m / 2 ^ Z.of_nat n))
      (negb (m mod 2 ^ Z.of_nat n =? 0)).
Proof.
  intros Hm. induction n as [|n IH].
  - cbn [Nat.iter nat_rect]. rewrite shr_1_spec by assumption.
    simpl Z.of_nat. rewrite Z.pow_0_r, Z.pow_1_r, Z.div_1_r, Z.mod_1_r.
    reflexivity.
  - rewrite Nat.iter_succ, IH.
    pose proof (pow2_pos (Z.of_nat n) ltac:(lia)) as Hp.
    pose proof (pow2_pos (Z.of_nat (S n)) ltac:(lia)) as Hp'.
    rewrite shr_1_spec by (apply Z.div_pos; lia).
    f_equal.
    + rewrite Z.div_div by lia. f_equal.
      rewrite (Nat2Z.inj_succ (S n)), Z.pow_succ_r by lia. lia.
    + rewrite (Nat2Z.inj_succ n), Z.pow_succ_r by lia.
      rewrite (Z.mul_comm 2), Z.rem_mul_r by lia.
      rewrite Zodd_mod.
      pose proof (Z.mod_pos_bound m (2 ^ Z.of_nat n) Hp).
      pose proof (Z.mod_pos_bound (m / 2 ^ Z.of_nat n) 2 ltac:(lia)).
      destruct (Z.eqb_spec ((m / 2 ^ Z.of_nat n) mod 2) 1);
        destruct (Z.eqb_spec (m mod 2 ^ Z.of_nat n) 0);
        destruct (Z.eqb_spec (m mod 2 ^ Z.of_nat n
                              + 2 ^ Z.of_nat n
                                * ((m / 2 ^ Z.of_nat n) mod 2)) 0);
        simpl; try reflexivity; exfalso; nia.
Qed.

Lemma round_iter_shr_1 (m : Z) (n : nat) :
  0 <= m ->
  let R := Nat.iter (S n) shr_1 (Build_shr_record m false false) in
  round_nearest_even (shr_m R) (loc_of_shr_record R)
  = nearest m (Z.of_nat (S n)).
Proof.
  intros Hm R. subst R. rewrite iter_shr_1 by assumption.
  pose proof (pow2_pos (Z.of_nat n) ltac:(lia)) as Hp.
  unfold nearest. cbn [shr_m loc_of_shr_record].
  rewrite (Nat2Z.inj_succ n), Z.pow_succ_r by lia.
  rewrite (Z.mul_comm 2 (2 ^ Z.of_nat n)), Z.rem_mul_r by lia.
  rewrite Zodd_mod.
  pose proof (Z.mod_pos_bound m (2 ^ Z.of_nat n) Hp).
  pose proof (Z.mod_pos_bound (m / 2 ^ Z.of_nat n) 2 ltac:(lia)).
  set (q := m / (2 ^ Z.of_nat n * 2)).
  destruct (Z.eqb_spec ((m / 2 ^ Z.of_nat n) mod 2) 1) as [Hb|Hb];
    destruct (Z.eqb_spec (m mod 2 ^ Z.of_nat n) 0) as [Hs|Hs];
    cbn [negb round_nearest_even];
    match goal with
    | |- context [?a ?= ?b] => destruct (Z.compare_spec a b)
    end; try reflexivity; exfalso; nia.
Qed.

Lemma shr_nearest (m e n : Z) :
  0 <= m -> 0 <= n ->
  let R := shr (shr_record_of_loc m loc_Exact) e n in
  round_nearest_even (shr_m R.1) (loc_of_shr_record R.1) = nearest m n
  /\ R.2 = e + n.
Proof.
  intros Hm Hn R. subst R. destruct n as [|p|p]; [| |lia].
  - simpl. rewrite nearest_0. split; [reflexivity|lia].
  - cbn [shr shr_record_of_loc fst snd]. split; [|reflexivity].
    rewrite iter_pos_nat.
    destruct (Pos2Nat.is_succ p) as [k Hk]. rewrite Hk.
    rewrite round_iter_shr_1 by assumption. f_equal. lia.
Qed.

End NearestFacts.

(* ===================================================================== *)
(** * The float made of a rounded mantissa *)
(* ===================================================================== *)

Module FinishFacts.
Import Ieee IeeeFacts RoundingFacts OrderFacts NearestFacts.

Lemma digits_between (p : positive) (a b : Z) :
  2 ^ a <= Z.pos p < 2 ^ b -> 0 <= a -> a < Z.pos (digits2_pos p) <= b.
Proof.
  intros [Hlo Hhi] Ha.
  pose proof (digits2_pos_lower p) as Hl.
  pose proof (digits2_pos_upper p) as Hu.
  split.
  - destruct (Z_lt_le_dec a (Z.pos (digits2_pos p))) as [|Hle]; [assumption|].
    assert (2 ^ Z.pos (digits2_pos p) <= 2 ^ a)
      by (apply Z.pow_le_mono_r; lia). lia.
  - destruct (Z_le_gt_dec (Z.pos (digits2_pos p)) b) as [|Hgt]; [assumption|].
    assert (2 ^ b <= 2 ^ (Z.pos (digits2_pos p) - 1))
      by (apply Z.pow_le_mono_r; lia). lia.
Qed.

Section Round.
Variables prec emax : Z.
Hypothesis prec_pos : 0 < prec.

Lemma binary_round_aux_finish (s : bool) (m e : Z) :
  0 <= m -> e <= fexp prec emax (Zdigits2 m + e) ->
  binary_round_aux prec emax s m e loc_Exact
  = finish prec emax s
      (nearest m (fexp prec emax (Zdigits2 m + e) - e))
      (fexp prec emax (Zdigits2 m + e)).
Proof.
  intros Hm Hn. unfold binary_round_aux. unfold shr_fexp at 1.
  destruct (shr_nearest m e (fexp prec emax (Zdigits2 m + e) - e) Hm
              ltac:(lia)) as [Hr He].
  destruct (shr _ _ _) as [R e']. simpl in Hr, He. rewrite Hr, He.
  replace (e + (fexp prec emax (Zdigits2 m + e) - e))
    with (fexp prec emax (Zdigits2 m + e)) by lia.
  reflexivity.
Qed.

Lemma finish_zero (s : bool) (E : Z) :
  emin prec emax <= E -> finish prec emax s 0 E = S754_zero s.
Proof.
  intros HE. unfold finish, shr_fexp. simpl Zdigits2.
  assert (Hn : fexp prec emax (0 + E) - E <= 0) by (unfold fexp; lia).
  destruct (fexp prec emax (0 + E) - E) as [|p|p]; try reflexivity. lia.
Qed.

Lemma finish_canonical (s : bool) (c : positive) (E : Z) :
  canonical_mantissa prec emax c E = true ->
  finish prec emax s (Z.pos c) E
  = if E <=? emax - prec then S754_finite s c E else S754_infinity s.
Proof.
  intros Hc. apply Z.eqb_eq in Hc. unfold finish, shr_fexp.
  simpl Zdigits2. rewrite Hc, Z.sub_diag. reflexivity.
Qed.

Lemma pow2_shl (k : nat) : 2 ^ Z.of_nat k = Z.pos (shl 1 k).
Proof. rewrite shl_value. lia. Qed.

Lemma finish_carry (s : bool) (E : Z) :
  emin prec emax <= E ->
  finish prec emax s (2 ^ prec) E
  = if E + 1 <=? emax - prec
    then S754_finite s (shl 1 (Z.to_nat (prec - 1))) (E + 1)
    else S754_infinity s.
Proof.
  intros HE. unfold finish, shr_fexp.
  assert (Hp : 2 ^ prec = Z.pos (shl 1 (S (Z.to_nat (prec - 1))))).
  { rewrite <- pow2_shl. f_equal. lia. }
  rewrite Hp. unfold Zdigits2. rewrite digits2_pos_shl.
  replace (fexp prec emax (Z.pos (digits2_pos 1)
                           + Z.of_nat (S (Z.to_nat (prec - 1))) + E) - E)
    with 1 by (unfold fexp; simpl digits2_pos; lia).
  reflexivity.
Qed.

(** The float that [finish] builds from a point of the grid. *)
Lemma finish_normal (s : bool) (c E : Z) :
  grid prec emax c E ->
  (c = 0 /\ finish prec emax s c E = S754_zero s)
  \/ exists (c' : positive) (E' : Z),
       finish prec emax s c E
       = (if E' <=? emax - prec then S754_finite s c' E'
          else S754_infinity s)
       /\ canonical_mantissa prec emax c' E' = true
       /\ E <= E' /\ c = Z.pos c' * 2 ^ (E' - E).
Proof.
  intros (HE & [Hc0 Hc1] & Hnormal).
  destruct (Z.eq_dec c 0) as [->|Hnz]; [left; split; [reflexivity|]|right].
  { now apply finish_zero. }
  destruct (Z.eq_dec c (2 ^ prec)) as [->|Hlt].
  - exists (shl 1 (Z.to_nat (prec - 1))), (E + 1).
    split; [now apply finish_carry|]. split.
    + unfold canonical_mantissa. apply Z.eqb_eq.
      rewrite digits2_pos_shl. unfold fexp. simpl digits2_pos. lia.
    + split; [lia|]. rewrite <- pow2_shl.
      replace (E + 1 - E) with 1 by lia.
      rewrite <- Z.pow_add_r by lia. f_equal. lia.
  - destruct c as [|p|p]; try lia.
    exists p, E.
    assert (Hcan : canonical_mantissa prec emax p E = true).
    { unfold canonical_mantissa. apply Z.eqb_eq.
      destruct (Z.eq_dec E (emin prec emax)) as [->|HEn].
      - pose proof (digits_between p 0 prec ltac:(simpl in *; lia) ltac:(lia)).
        unfold fexp. lia.
      - pose proof (digits_between p (prec - 1) prec ltac:(lia) ltac:(lia)).
        unfold fexp. lia. }
    split; [now apply finish_canonical|]. split; [exact Hcan|].
    split; [lia|]. rewrite Z.sub_diag. simpl. lia.
Qed.

Lemma finish_valid (s : bool) (c E : Z) :
  grid prec emax c E -> valid_binary prec emax (finish prec emax s c E) = true.
Proof.
  intros Hg. destruct (finish_normal s c E Hg) as [[_ ->]|(c' & E' & -> & Hc & _)];
    [reflexivity|].
  destruct (Z.leb_spec E' (emax - prec)) as [Hle|]; [|reflexivity].
  simpl. unfold bounded. rewrite Hc. simpl. now apply Z.leb_le.
Qed.

(** Among canonical mantissas the one with the larger exponent is
    the larger number. *)
Lemma canonical_mantissa_lt (m1 m2 : positive) (e1 e2 : Z) :
  canonical_mantissa prec emax m1 e1 = true ->
  canonical_mantissa prec emax m2 e2 = true ->
  e1 < e2 -> Z.pos m1 < Z.pos m2 * 2 ^ (e2 - e1).
Proof.
  unfold canonical_mantissa, fexp. intros H1 H2 He.
  apply Z.eqb_eq in H1, H2.
  pose proof (digits2_pos_upper m1) as Hup.
  pose proof (digits2_pos_lower m2) as Hlow.
  assert (Hd1 : Z.pos (digits2_pos m1) <= prec) by lia.
  assert (Hd2 : Z.pos (digits2_pos m2) = prec) by lia.
  rewrite Hd2 in Hlow.
  assert (Hp1 : 2 ^ Z.pos (digits2_pos m1) <= 2 ^ prec)
    by (apply Z.pow_le_mono_r; lia).
  assert (Hp2 : 2 ^ 1 <= 2 ^ (e2 - e1)) by (apply Z.pow_le_mono_r; lia).
  assert (Hp3 : 2 ^ prec = 2 ^ (prec - 1) * 2 ^ 1)
    by (rewrite <- Z.pow_add_r by lia; f_equal; lia).
  assert (Hpos : 0 < 2 ^ (prec - 1)) by (apply Z.pow_pos_nonneg; lia).
  nia.
Qed.

Lemma finish_le (c1 E1 c2 E2 E0 : Z) :
  grid prec emax c1 E1 -> grid prec emax c2 E2 ->
  E0 <= E1 -> E0 <= E2 ->
  c1 * 2 ^ (E1 - E0) <= c2 * 2 ^ (E2 - E0) ->
  f_le (finish prec emax false c1 E1) (finish prec emax false c2 E2) = true.
Proof.
  intros G1 G2 H1 H2 Hle.
  pose proof (pow2_pos (E1 - E0) ltac:(lia)) as HP1.
  pose proof (pow2_pos (E2 - E0) ltac:(lia)) as HP2.
  destruct (finish_normal false c1 E1 G1)
    as [[-> ->]|(m1 & F1 & -> & Hc1 & HF1 & ->)];
    destruct (finish_normal false c2 E2 G2)
      as [[-> ->]|(m2 & F2 & -> & Hc2 & HF2 & ->)].
  - reflexivity.
  - now destruct (F2 <=? emax - prec).
  - exfalso. pose proof (pow2_pos (F1 - E1) ltac:(lia)). nia.
  - assert (Ha : Z.pos m1 * 2 ^ (F1 - E0) <= Z.pos m2 * 2 ^ (F2 - E0)).
    { replace (F1 - E0) with ((F1 - E1) + (E1 - E0)) by lia.
      replace (F2 - E0) with ((F2 - E2) + (E2 - E0)) by lia.
      rewrite !Z.pow_add_r by lia. lia. }
    assert (Hexp : F1 <= F2).
    { destruct (Z_le_gt_dec F1 F2) as [|Hgt]; [assumption|exfalso].
      pose proof (canonical_mantissa_lt m2 m1 F2 F1 Hc2 Hc1 ltac:(lia)) as Hlt.
      pose proof (pow2_pos (F2 - E0) ltac:(lia)).
      replace (F1 - E0) with ((F1 - F2) + (F2 - E0)) in Ha by lia.
      rewrite Z.pow_add_r in Ha by lia. nia. }
    destruct (Z.leb_spec F2 (emax - prec)) as [Hfin|Hinf].
    + replace (F1 <=? emax - prec) with true
        by (symmetry; apply Z.leb_le; lia).
      unfold f_le. simpl.
      change (Pos.compare_cont Eq m1 m2) with (Pos.compare m1 m2).
      destruct (Z.compare_spec F1 F2) as [->|_|]; [|reflexivity|lia].
      destruct (Pos.compare_spec m1 m2) as [_|_|Hgt]; try reflexivity.
      exfalso. pose proof (pow2_pos (F2 - E0) ltac:(lia)). nia.
    + now destruct (F1 <=? emax - prec).
Qed.

End Round.

End FinishFacts.

(* ===================================================================== *)
(** * Rounding never reverses the order *)
(* ===================================================================== *)

Module RoundFacts.
Import Ieee IeeeFacts RoundingFacts OrderFacts NearestFacts FinishFacts.

Lemma pow2_split (a b c : Z) :
  c <= b -> b <= a -> 2 ^ (a - c) = 2 ^ (a - b) * 2 ^ (b - c).
Proof.
  intros H1 H2. rewrite <- Z.pow_add_r by lia. f_equal. lia.
Qed.

Lemma pow2_le (a b : Z) : 0 <= a <= b -> 2 ^ a <= 2 ^ b.
Proof. intros H. apply Z.pow_le_mono_r; lia. Qed.

Lemma pow2_lt_inv (a b : Z) : 0 <= a -> 0 <= b -> 2 ^ a < 2 ^ b -> a < b.
Proof. intros Ha Hb H. apply (Z.pow_lt_mono_r_iff 2); lia. Qed.

Lemma shl_align_fst (m : positive) (e e' : Z) :
  e' <= e -> Z.pos (shl_align m e e').1 = Z.pos m * 2 ^ (e - e')
  /\ (shl_align m e e').2 = e'.
Proof.
  intros He. unfold shl_align.
  destruct (e' - e) as [|d|d] eqn:Hd; try lia.
  - replace (e - e') with 0 by lia. simpl. split; lia.
  - simpl. rewrite Pos_iter_shl, shl_value. split; [|reflexivity].
    f_equal. f_equal. lia.
Qed.

Lemma shl_align_id (m : positive) (e e' : Z) :
  e <= e' -> shl_align m e e' = (m, e).
Proof.
  intros He. unfold shl_align. destruct (e' - e) as [|d|d] eqn:Hd; try lia;
    reflexivity.
Qed.

Section Round.
Variables prec emax : Z.
Hypothesis prec_pos : 0 < prec.

(** [binary_round] as one rounding of the mantissa aligned at any
    exponent [e0] below both the exponent and the target exponent. *)
Lemma binary_round_finish (s : bool) (m : positive) (e e0 : Z) :
  let E := fexp prec emax (Z.pos (digits2_pos m) + e) in
  e0 <= e -> e0 <= E ->
  binary_round prec emax s m e
  = finish prec emax s (nearest (Z.pos m * 2 ^ (e - e0)) (E - e0)) E.
Proof.
  intros E He HE. unfold binary_round. fold E.
  destruct (Z_lt_le_dec E e) as [Hlt|Hle].
  - destruct (shl_align_fst m e E ltac:(lia)) as [Hm Hz].
    destruct (shl_align m e E) as [mz ez]. simpl in Hm, Hz. subst ez.
    assert (Hd : Z.pos (digits2_pos mz) + E = Z.pos (digits2_pos m) + e).
    { assert (Hs : mz = shl m (Z.to_nat (e - E))).
      { apply Pos2Z.inj. rewrite Hm, shl_value. f_equal. f_equal. lia. }
      rewrite Hs, digits2_pos_shl. lia. }
    rewrite binary_round_aux_finish;
      change (Zdigits2 (Z.pos mz)) with (Z.pos (digits2_pos mz));
      rewrite ?Hd; fold E; try lia.
    rewrite Z.sub_diag, nearest_0, Hm. f_equal.
    rewrite (pow2_split e E e0) by lia.
    rewrite Z.mul_assoc, nearest_exact by lia. reflexivity.
  - rewrite shl_align_id by lia.
    rewrite binary_round_aux_finish;
      change (Zdigits2 (Z.pos m)) with (Z.pos (digits2_pos m));
      fold E; try lia.
    f_equal. replace (E - e0) with ((E - e) + (e - e0)) by lia.
    rewrite nearest_scale by lia. reflexivity.
Qed.

Lemma aligned_digits (m : positive) (e e0 : Z) :
  e0 <= e ->
  let D := Z.pos (digits2_pos m) + e - e0 in
  2 ^ (D - 1) <= Z.pos m * 2 ^ (e - e0) < 2 ^ D.
Proof.
  intros He D. subst D.
  pose proof (digits2_pos_lower m) as Hl.
  pose proof (digits2_pos_upper m) as Hu.
  pose proof (pow2_pos (e - e0) ltac:(lia)) as Hp.
  replace (Z.pos (digits2_pos m) + e - e0 - 1)
    with ((Z.pos (digits2_pos m) - 1) + (e - e0)) by lia.
  replace (Z.pos (digits2_pos m) + e - e0)
    with (Z.pos (digits2_pos m) + (e - e0)) by lia.
  rewrite !Z.pow_add_r by lia. nia.
Qed.

Lemma round_grid (m : positive) (e e0 : Z) :
  let E := fexp prec emax (Z.pos (digits2_pos m) + e) in
  e0 <= e -> e0 <= E ->
  grid prec emax (nearest (Z.pos m * 2 ^ (e - e0)) (E - e0)) E.
Proof.
  intros E He HE.
  pose proof (aligned_digits m e e0 He) as HD. cbv zeta in HD.
  set (D := Z.pos (digits2_pos m) + e - e0) in *.
  set (M := Z.pos m * 2 ^ (e - e0)) in *.
  assert (HEd : E = Z.max (D + e0 - prec) (emin prec emax))
    by (unfold E, fexp, D; f_equal; lia).
  assert (HD1 : 1 <= D) by (unfold D; lia).
  split; [lia|]. split; [split|].
  - apply nearest_nonneg; [lia|]. unfold M.
    pose proof (pow2_pos (e - e0) ltac:(lia)). lia.
  - set (b := Z.max D (E - e0)).
    apply Z.le_trans with (2 ^ (b - (E - e0))).
    + apply nearest_upper; [unfold b; lia|].
      apply Z.le_trans with (2 ^ D); [lia|]. apply pow2_le. unfold b. lia.
    + apply pow2_le. unfold b. lia.
  - intros Hnormal.
    replace (prec - 1) with ((D - 1) - (E - e0)) by lia.
    apply nearest_lower; lia.
Qed.

Lemma round_mono (m1 m2 : positive) (e1 e2 e0 : Z) :
  let E1 := fexp prec emax (Z.pos (digits2_pos m1) + e1) in
  let E2 := fexp prec emax (Z.pos (digits2_pos m2) + e2) in
  e0 <= e1 -> e0 <= e2 -> e0 <= E1 -> e0 <= E2 ->
  Z.pos m1 * 2 ^ (e1 - e0) <= Z.pos m2 * 2 ^ (e2 - e0) ->
  E1 <= E2
  /\ nearest (Z.pos m1 * 2 ^ (e1 - e0)) (E1 - e0)
     <= nearest (Z.pos m2 * 2 ^ (e2 - e0)) (E2 - e0) * 2 ^ (E2 - E1).
Proof.
  intros E1 E2 He1 He2 HE1 HE2 Hle.
  pose proof (aligned_digits m1 e1 e0 He1) as HD1.
  pose proof (aligned_digits m2 e2 e0 He2) as HD2. cbv zeta in HD1, HD2.
  pose proof (round_grid m1 e1 e0 He1 HE1) as (_ & [_ Hup] & _).
  fold E1 in Hup.
  set (D1 := Z.pos (digits2_pos m1) + e1 - e0) in *.
  set (D2 := Z.pos (digits2_pos m2) + e2 - e0) in *.
  set (M1 := Z.pos m1 * 2 ^ (e1 - e0)) in *.
  set (M2 := Z.pos m2 * 2 ^ (e2 - e0)) in *.
  assert (HEd1 : E1 = Z.max (D1 + e0 - prec) (emin prec emax))
    by (unfold E1, fexp, D1; f_equal; lia).
  assert (HEd2 : E2 = Z.max (D2 + e0 - prec) (emin prec emax))
    by (unfold E2, fexp, D2; f_equal; lia).
  assert (HDle : D1 <= D2).
  { assert (2 ^ (D1 - 1) < 2 ^ D2) by lia.
    apply pow2_lt_inv in H; unfold D1, D2 in *; lia. }
  assert (HEle : E1 <= E2) by lia.
  split; [exact HEle|].
  destruct (Z.eq_dec E1 E2) as [Heq|Hne].
  - rewrite Heq, Z.sub_diag, Z.mul_1_r. apply nearest_mono; lia.
  - assert (Hlow : 2 ^ (prec - 1) <= nearest M2 (E2 - e0)).
    { replace (prec - 1) with ((D2 - 1) - (E2 - e0)) by lia.
      apply nearest_lower; unfold D2 in *; lia. }
    assert (Hstep : 2 ^ 1 <= 2 ^ (E2 - E1)) by (apply pow2_le; lia).
    assert (Hp : 2 ^ prec = 2 ^ (prec - 1) * 2 ^ 1)
      by (rewrite <- Z.pow_add_r by lia; f_equal; lia).
    pose proof (pow2_pos (prec - 1) ltac:(lia)). nia.
Qed.

(** ** [binary_normalize] on mantissas that are not negative *)

Lemma normalize_valid (M e : Z) (s : bool) :
  valid_binary prec emax (binary_normalize prec emax M e s) = true.
Proof.
  destruct M as [|m|m]; [reflexivity| |]; simpl;
    rewrite (binary_round_finish _ m e
               (Z.min e (fexp prec emax (Z.pos (digits2_pos m) + e))))
      by lia;
    apply finish_valid; try assumption; apply round_grid; lia.
Qed.

Lemma normalize_sign (M e : Z) :
  0 <= M ->
  f_le (S754_zero false) (binary_normalize prec emax M e false) = true.
Proof.
  intros HM. destruct M as [|m|m]; [reflexivity| |lia]. simpl.
  rewrite (binary_round_finish _ m e
             (Z.min e (fexp prec emax (Z.pos (digits2_pos m) + e)))) by lia.
  rewrite <- (finish_zero prec emax prec_pos false (emin prec emax)) by lia.
  apply (finish_le prec emax prec_pos _ _ _ _ (emin prec emax)).
  - split; [lia|]. split; [|lia]. pose proof (pow2_pos prec ltac:(lia)). lia.
  - apply round_grid; lia.
  - lia.
  - unfold fexp. lia.
  - rewrite Z.mul_0_l.
    assert (Hg := round_grid m e
              (Z.min e (fexp prec emax (Z.pos (digits2_pos m) + e)))
              ltac:(lia) ltac:(lia)).
    destruct Hg as (_ & [H0 _] & _).
    pose proof (pow2_pos (fexp prec emax (Z.pos (digits2_pos m) + e)
                          - emin prec emax) ltac:(unfold fexp; lia)).
    nia.
Qed.

Lemma normalize_le (M1 M2 e1 e2 e0 : Z) :
  0 <= M1 -> e0 <= e1 -> e0 <= e2 ->
  M1 * 2 ^ (e1 - e0) <= M2 * 2 ^ (e2 - e0) ->
  f_le (binary_normalize prec emax M1 e1 false)
       (binary_normalize prec emax M2 e2 false) = true.
Proof.
  intros HM1 He1 He2 Hle.
  pose proof (pow2_pos (e1 - e0) ltac:(lia)) as Hp1.
  pose proof (pow2_pos (e2 - e0) ltac:(lia)) as Hp2.
  destruct M1 as [|m1|m1]; [| |lia].
  { apply normalize_sign. nia. }
  destruct M2 as [|m2|m2]; [nia| |nia]. simpl.
  set (E1 := fexp prec emax (Z.pos (digits2_pos m1) + e1)).
  set (E2 := fexp prec emax (Z.pos (digits2_pos m2) + e2)).
  set (a := Z.min e0 (Z.min E1 E2)).
  rewrite (binary_round_finish _ m1 e1 a), (binary_round_finish _ m2 e2 a)
    by (unfold a; fold E1 E2; lia).
  fold E1 E2.
  assert (Ha : Z.pos m1 * 2 ^ (e1 - a) <= Z.pos m2 * 2 ^ (e2 - a)).
  { rewrite (pow2_split e1 e0 a), (pow2_split e2 e0 a) by (unfold a; lia).
    pose proof (pow2_pos (e0 - a) ltac:(unfold a; lia)). nia. }
  assert (Hm := round_mono m1 m2 e1 e2 a). cbv zeta in Hm. fold E1 E2 in Hm.
  destruct Hm as [HE Hc]; [unfold a; lia..|exact Ha|].
  apply (finish_le prec emax prec_pos _ _ _ _ E1);
    try (apply round_grid; unfold a; fold E1 E2; lia); try lia.
  now rewrite Z.sub_diag, Z.mul_1_r.
Qed.

(** A valid float rounds to itself. *)
Lemma binary_round_id (s : bool) (m : positive) (e : Z) :
  bounded prec emax m e = true ->
  binary_round prec emax s m e = S754_finite s m e.
Proof.
  intros Hb. unfold bounded in Hb. apply andb_true_iff in Hb as [Hc Hmax].
  apply Z.eqb_eq in Hc. apply Z.leb_le in Hmax.
  rewrite (binary_round_exact prec emax s m 0 e) by (simpl; lia).
  f_equal. simpl. lia.
Qed.

End Round.

End RoundFacts.

(* ===================================================================== *)
(** * Sums, differences and products of floats that are not negative *)
(* ===================================================================== *)

Module OperationFacts.
Import Ieee IeeeFacts RoundingFacts OrderFacts NearestFacts FinishFacts RoundFacts.

Lemma aligned_le_Q (m1 m2 e1 e2 e0 : Z) :
  e0 <= e1 -> e0 <= e2 ->
  (inject_Z m1 * Qpower 2 e1 <= inject_Z m2 * Qpower 2 e2)%Q ->
  m1 * 2 ^ (e1 - e0) <= m2 * 2 ^ (e2 - e0).
Proof.
  intros H1 H2 Hle.
  replace e1 with ((e1 - e0) + e0) in Hle at 1 by lia.
  replace e2 with ((e2 - e0) + e0) in Hle at 1 by lia.
  rewrite <- !scale_mantissa in Hle by lia.
  apply Qmult_le_r in Hle; [|apply two_power_pos].
  now rewrite <- Zle_Qle in Hle.
Qed.

Lemma f_le_zero_l (s : bool) (y : spec_float) :
  f_le (S754_zero s) y = f_le (S754_zero false) y.
Proof. now destruct y. Qed.

Lemma f_le_zero_r (s : bool) (x : spec_float) :
  f_le x (S754_zero s) = f_le x (S754_zero false).
Proof. now destruct x. Qed.

Section Operations.
Variables prec emax : Z.
Hypothesis prec_pos : 0 < prec.
Hypothesis prec_lt_emax : prec < emax.

Lemma normalize_le_Q (M1 M2 e1 e2 : Z) :
  0 <= M1 ->
  (inject_Z M1 * Qpower 2 e1 <= inject_Z M2 * Qpower 2 e2)%Q ->
  f_le (binary_normalize prec emax M1 e1 false)
       (binary_normalize prec emax M2 e2 false) = true.
Proof.
  intros HM Hle.
  apply (normalize_le prec emax prec_pos _ _ _ _ (Z.min e1 e2)); try lia.
  apply aligned_le_Q; [lia..|exact Hle].
Qed.

Lemma rounds_le (x1 x2 : spec_float) (q1 q2 : Q) :
  rounds prec emax x1 q1 -> rounds prec emax x2 q2 -> (q1 <= q2)%Q -> f_le x1 x2 = true.
Proof.
  intros (M1 & e1 & HM1 & Hv1 & Hx1) (M2 & e2 & HM2 & Hv2 & Hx2) Hle.
  rewrite <- Hv1, <- Hv2 in Hle.
  assert (Hbn : f_le (binary_normalize prec emax M1 e1 false)
                     (binary_normalize prec emax M2 e2 false) = true)
    by now apply normalize_le_Q.
  destruct Hx1 as [->|(-> & s1 & ->)], Hx2 as [->|(-> & s2 & ->)].
  - exact Hbn.
  - now rewrite f_le_zero_r.
  - now rewrite f_le_zero_l.
  - reflexivity.
Qed.

Lemma rounds_valid (x : spec_float) (q : Q) :
  rounds prec emax x q -> valid_binary prec emax x = true.
Proof.
  intros (M & e & _ & _ & [->|(_ & s & ->)]); [|reflexivity].
  now apply normalize_valid.
Qed.

Lemma rounds_sign (x : spec_float) (q : Q) :
  rounds prec emax x q -> f_le (S754_zero false) x = true.
Proof.
  intros (M & e & HM & _ & [->|(_ & s & ->)]); [|reflexivity].
  now apply normalize_sign.
Qed.

(** A rounded value below a finite float is a finite float. *)
Lemma rounds_nonneg (x c : spec_float) (q : Q) :
  rounds prec emax x q -> is_finite c = true -> f_le x c = true -> nonneg prec emax x.
Proof.
  intros Hr Hc Hle. pose proof (rounds_valid x q Hr) as Hv.
  pose proof (rounds_sign x q Hr) as Hs.
  split; [exact Hv|].
  destruct x as [s|s| |s m e]; try discriminate.
  - split; [reflexivity|]. unfold Qval. simpl. apply Qle_refl.
  - destruct s; [discriminate|]. destruct c; discriminate.
  - destruct s; [discriminate|]. split; [reflexivity|].
    unfold Qval. simpl. apply Qlt_le_weak, positive_value_pos.
Qed.

Lemma nonneg_cases (x : spec_float) :
  nonneg prec emax x ->
  (exists s, x = S754_zero s)
  \/ exists m e, x = S754_finite false m e /\ bounded prec emax m e = true.
Proof.
  intros (Hv & Hf & Hq). destruct x as [s|s| |s m e]; try discriminate.
  - left. eauto.
  - right. destruct s; [|eauto]. exfalso.
    unfold Qval in Hq. simpl in Hq. rewrite negative_value in Hq.
    pose proof (positive_value_pos m e) as Hpos.
    apply (Qopp_lt_compat 0) in Hpos.
    apply (Qlt_irrefl 0). eapply Qle_lt_trans; [exact Hq|exact Hpos].
Qed.

Lemma nonneg_rounds (x : spec_float) : nonneg prec emax x -> rounds prec emax x (Qval x).
Proof.
  intros Hx. destruct (nonneg_cases x Hx) as [[s ->]|(m & e & -> & Hb)].
  - exists 0, 0. split; [lia|]. split; [reflexivity|]. right. eauto.
  - exists (Z.pos m), e. split; [lia|]. split; [reflexivity|]. left.
    simpl. now rewrite binary_round_id.
Qed.

Lemma nonneg_le (x y : spec_float) :
  nonneg prec emax x -> nonneg prec emax y ->
  (f_le x y = true <-> (Qval x <= Qval y)%Q).
Proof.
  intros Hx Hy. split.
  - intros Hle. destruct Hx as (Vx & Fx & _), Hy as (Vy & Fy & _).
    assert (Sx : SF2Q x = Some (Qval x))
      by (unfold Qval; destruct x; try discriminate; reflexivity).
    assert (Sy : SF2Q y = Some (Qval y))
      by (unfold Qval; destruct y; try discriminate; reflexivity).
    unfold f_le in Hle.
    destruct (SFcompare x y) as [[| |]|] eqn:Hc; try discriminate.
    + rewrite (SFcompare_Eq_value x y _ _ Sx Sy Hc). apply Qle_refl.
    + apply Qlt_le_weak.
      exact (SFcompare_Lt_value prec emax prec_pos x y _ _ Vx Vy Sx Sy Hc).
  - intros Hle. eapply rounds_le; [now apply nonneg_rounds..|exact Hle].
Qed.

Lemma digits_mul (m1 m2 : positive) :
  Z.pos (digits2_pos m1) + Z.pos (digits2_pos m2) - 1
  <= Z.pos (digits2_pos (m1 * m2)).
Proof.
  pose proof (digits2_pos_lower m1) as H1.
  pose proof (digits2_pos_lower m2) as H2.
  assert (Hp : 2 ^ (Z.pos (digits2_pos m1) - 1 + (Z.pos (digits2_pos m2) - 1))
               <= Z.pos (m1 * m2)).
  { rewrite Z.pow_add_r, Pos2Z.inj_mul by lia.
    pose proof (pow2_pos (Z.pos (digits2_pos m1) - 1) ltac:(lia)).
    pose proof (pow2_pos (Z.pos (digits2_pos m2) - 1) ltac:(lia)). nia. }
  pose proof (digits2_pos_upper (m1 * m2)) as Hu.
  assert (Hlt : 2 ^ (Z.pos (digits2_pos m1) - 1 + (Z.pos (digits2_pos m2) - 1))
                < 2 ^ Z.pos (digits2_pos (m1 * m2))) by lia.
  apply pow2_lt_inv in Hlt; lia.
Qed.

Lemma mul_rounds (a b : spec_float) :
  nonneg prec emax a -> nonneg prec emax b -> rounds prec emax (SFmul prec emax a b) (Qval a * Qval b).
Proof.
  intros Ha Hb.
  destruct (nonneg_cases a Ha) as [[sa ->]|(ma & ea & -> & Ba)];
    destruct (nonneg_cases b Hb) as [[sb ->]|(mb & eb & -> & Bb)].
  1-3: exists 0, 0; split; [lia|]; split;
         [unfold Qval; simpl; ring|right; simpl; eauto].
  exists (Z.pos (ma * mb)), (ea + eb). split; [lia|]. split.
  - unfold Qval. simpl. rewrite Pos2Z.inj_mul, inject_Z_mult, Qpower_plus
      by discriminate. ring.
  - left. simpl. unfold binary_round.
    rewrite shl_align_id; [reflexivity|].
    pose proof (digits_mul ma mb) as Hd.
    destruct (bounded_digits prec emax ma ea Ba) as (Da & Ea & Na).
    destruct (bounded_digits prec emax mb eb Bb) as (Db & Eb & Nb).
    unfold fexp, emin in *. lia.
Qed.

Lemma aligned_value (m : positive) (e ez : Z) :
  ez <= e ->
  (inject_Z (Z.pos (shl_align m e ez).1) * Qpower 2 ez
   == inject_Z (Z.pos m) * Qpower 2 e)%Q.
Proof.
  intros He. destruct (shl_align_fst m e ez He) as [-> _].
  rewrite scale_mantissa by lia. now replace (e - ez + ez) with e by lia.
Qed.

Lemma add_rounds (a b : spec_float) :
  nonneg prec emax a -> nonneg prec emax b -> rounds prec emax (SFadd prec emax a b) (Qval a + Qval b).
Proof.
  intros Ha Hb.
  destruct (nonneg_cases a Ha) as [[sa ->]|(ma & ea & -> & Ba)];
    destruct (nonneg_cases b Hb) as [[sb ->]|(mb & eb & -> & Bb)].
  - exists 0, 0. split; [lia|]. split; [unfold Qval; simpl; ring|].
    right. split; [reflexivity|]. destruct sa, sb; simpl; eauto.
  - exists (Z.pos mb), eb. split; [lia|].
    split; [unfold Qval; simpl; ring|]. left. simpl.
    now rewrite binary_round_id.
  - exists (Z.pos ma), ea. split; [lia|].
    split; [unfold Qval; simpl; ring|]. left. simpl.
    now rewrite binary_round_id.
  - exists (Z.pos (shl_align ma ea (Z.min ea eb)).1
            + Z.pos (shl_align mb eb (Z.min ea eb)).1), (Z.min ea eb).
    split; [lia|]. split; [|left; reflexivity].
    rewrite inject_Z_plus, Qmult_plus_distr_l, !aligned_value by lia.
    reflexivity.
Qed.

Lemma sub_rounds (a c : spec_float) :
  nonneg prec emax a -> nonneg prec emax c -> (Qval c <= Qval a)%Q ->
  rounds prec emax (SFsub prec emax a c) (Qval a - Qval c).
Proof.
  intros Ha Hc Hle.
  destruct (nonneg_cases a Ha) as [[sa ->]|(ma & ea & -> & Ba)];
    destruct (nonneg_cases c Hc) as [[sc ->]|(mc & ec & -> & Bc)].
  - exists 0, 0. split; [lia|]. split; [unfold Qval; simpl; ring|].
    right. split; [reflexivity|]. destruct sa, sc; simpl; eauto.
  - exfalso. unfold Qval in Hle. simpl in Hle.
    pose proof (positive_value_pos mc ec) as Hpos.
    apply (Qlt_irrefl 0). eapply Qlt_le_trans; [exact Hpos|exact Hle].
  - exists (Z.pos ma), ea. split; [lia|].
    split; [unfold Qval; simpl; ring|]. left. simpl.
    now rewrite binary_round_id.
  - assert (Hv : (inject_Z (Z.pos (shl_align ma ea (Z.min ea ec)).1
                            - Z.pos (shl_align mc ec (Z.min ea ec)).1)
                  * Qpower 2 (Z.min ea ec)
                  == Qval (S754_finite false ma ea)
                     - Qval (S754_finite false mc ec))%Q).
    { unfold Z.sub. rewrite inject_Z_plus, inject_Z_opp.
      unfold Qminus. rewrite Qmult_plus_distr_l.
      rewrite <- (aligned_value ma ea (Z.min ea ec)) by lia.
      rewrite <- (aligned_value mc ec (Z.min ea ec)) by lia.
      unfold Qval. simpl. ring. }
    exists (Z.pos (shl_align ma ea (Z.min ea ec)).1
            - Z.pos (shl_align mc ec (Z.min ea ec)).1), (Z.min ea ec).
    split; [|split; [exact Hv|left; reflexivity]].
    unfold Qval in Hle. simpl in Hle.
    rewrite <- (aligned_value ma ea (Z.min ea ec)) in Hle by lia.
    rewrite <- (aligned_value mc ec (Z.min ea ec)) in Hle by lia.
    apply Qmult_le_r in Hle; [|apply two_power_pos].
    rewrite <- Zle_Qle in Hle. lia.
Qed.

End Operations.

End OperationFacts.

(* ===================================================================== *)
(** * The conversion of the result to [int] *)
(* ===================================================================== *)

Module TruncFacts.
Import Ieee IeeeFacts RoundingFacts OrderFacts NearestFacts FinishFacts RoundFacts OperationFacts.

(** The integer part of a float that is not negative, from the
    mantissa aligned at any exponent [e0 <= 0] below its own. *)
Lemma Ztrunc_aligned (m e e0 : Z) :
  e0 <= e -> e0 <= 0 ->
  (if 0 <=? e then m * 2 ^ e else m / 2 ^ (- e))
  = (m * 2 ^ (e - e0)) / 2 ^ (- e0).
Proof.
  intros He H0. pose proof (pow2_pos (- e0) ltac:(lia)) as Hp.
  destruct (Z.leb_spec 0 e) as [Hpos|Hneg].
  - replace (e - e0) with (e + - e0) by lia.
    rewrite Z.pow_add_r, Z.mul_assoc, Z.div_mul by lia. reflexivity.
  - replace (- e0) with (- e + (e - e0)) at 1 by lia.
    pose proof (pow2_pos (e - e0) ltac:(lia)).
    pose proof (pow2_pos (- e) ltac:(lia)).
    rewrite Z.pow_add_r, Z.div_mul_cancel_r by lia. reflexivity.
Qed.

Lemma Ztrunc_float_shl (m : positive) (k : nat) (e : Z) :
  Ztrunc_float (S754_finite false (shl m k) (e - Z.of_nat k))
  = Ztrunc_float (S754_finite false m e).
Proof.
  unfold Ztrunc_float. f_equal. cbn [cond_Zopp].
  set (e0 := Z.min (e - Z.of_nat k) 0).
  rewrite (Ztrunc_aligned _ (e - Z.of_nat k) e0),
    (Ztrunc_aligned _ e e0) by (unfold e0; lia).
  f_equal. rewrite shl_value, (pow2_split e (e - Z.of_nat k) e0)
    by (unfold e0; lia).
  replace (e - (e - Z.of_nat k)) with (Z.of_nat k) by lia. lia.
Qed.

Lemma f64_of_f32_finite (m : positive) (e : Z) :
  bounded prec32 emax32 m e = true ->
  f64_of_f32 (S754_finite false m e)
  = S754_finite false (shl m (Z.to_nat (53 - Z.pos (digits2_pos m))))
      (e - Z.of_nat (Z.to_nat (53 - Z.pos (digits2_pos m)))).
Proof.
  intros Hb. destruct (bounded_digits prec32 emax32 m e Hb) as (Hd & He & _).
  unfold bounded in Hb. apply andb_true_iff in Hb as [_ Hmax].
  apply Z.leb_le in Hmax.
  unfold f64_of_f32. apply binary_round_exact;
    unfold fexp, emin, prec32, emax32, prec64, emax64 in *; lia.
Qed.


Lemma trunc_finite (M : positive) (e' : Z) :
  Z.pos (digits2_pos M) <= 53 ->
  Ztrunc_float (trunc (S754_finite false M e'))
  = Ztrunc_float (S754_finite false M e').
Proof.
  intros HM. unfold trunc.
  destruct (Z.leb_spec 0 e') as [Hpos|Hneg]; [reflexivity|].
  cbn [cond_Zopp]. unfold Ztrunc_float at 2. cbn [cond_Zopp].
  replace (0 <=? e') with false by (symmetry; apply Z.leb_gt; lia).
  pose proof (pow2_pos (- e') ltac:(lia)) as Hp.
  assert (Hz : 0 <= Z.pos M / 2 ^ (- e')) by (apply Z.div_pos; lia).
  assert (Hle : Z.pos M / 2 ^ (- e') <= Z.pos M).
  { apply Z.div_le_upper_bound; [lia|]. nia. }
  destruct (Z.pos M / 2 ^ (- e')) as [|p|p] eqn:Hq; [reflexivity| |lia].
  assert (Hdp : Z.pos (digits2_pos p) <= 53).
  { pose proof (digits2_pos_upper M) as Hu.
    assert (2 ^ Z.pos (digits2_pos M) <= 2 ^ 53) by (apply pow2_le; lia).
    apply (digits_between p 0 53); simpl in *; lia. }
  change (binary_normalize prec64 emax64 (Z.pos p) 0 false)
    with (f64_of_int (cond_Zopp false (Z.pos p))).
  rewrite f64_of_int_exact by assumption.
  replace (Z.pos (digits2_pos p) - 53)
    with (0 - Z.of_nat (Z.to_nat (53 - Z.pos (digits2_pos p)))) by lia.
  rewrite Ztrunc_float_shl. unfold Ztrunc_float. simpl. f_equal. lia.
Qed.

(** [trunc] and the widening to [double] do not change what the
    conversion to [int] yields. *)
Lemma int_of_trunc (x : spec_float) :
  nonneg prec32 emax32 x ->
  int_of_f64 (trunc (f64_of_f32 x)) = int_of_f64 x.
Proof.
  intros Hx.
  destruct (nonneg_cases prec32 emax32 x Hx) as [[s ->]|(m & e & -> & Hb)];
    [reflexivity|].
  rewrite f64_of_f32_finite by assumption.
  destruct (bounded_digits prec32 emax32 m e Hb) as (Hd & _).
  unfold int_of_f64. rewrite trunc_finite, Ztrunc_float_shl; [reflexivity|].
  rewrite digits2_pos_shl. unfold prec32 in Hd. lia.
Qed.

Lemma Ztrunc_float_le (x y : spec_float) :
  nonneg prec32 emax32 x -> nonneg prec32 emax32 y ->
  f_le x y = true ->
  exists a b, Ztrunc_float x = Some a /\ Ztrunc_float y = Some b
              /\ 0 <= a <= b.
Proof.
  intros Hx Hy Hle.
  apply (nonneg_le prec32 emax32 eq_refl x y Hx Hy) in Hle.
  assert (Hrepr : forall z, nonneg prec32 emax32 z ->
            exists M e, 0 <= M
              /\ Qval z = (inject_Z M * Qpower 2 e)%Q
              /\ forall e0, e0 <= e -> e0 <= 0 ->
                   Ztrunc_float z = Some ((M * 2 ^ (e - e0)) / 2 ^ (- e0))).
  { intros z Hz.
    destruct (nonneg_cases prec32 emax32 z Hz) as [[s ->]|(m & e & -> & _)].
    - exists 0, 0. split; [lia|]. split; [reflexivity|].
      intros e0 _ _. reflexivity.
    - exists (Z.pos m), e. split; [lia|]. split; [reflexivity|].
      intros e0 H1 H2. unfold Ztrunc_float. cbn [cond_Zopp].
      now rewrite (Ztrunc_aligned _ e e0). }
  destruct (Hrepr x Hx) as (Mx & ex & HMx & Vx & Tx).
  destruct (Hrepr y Hy) as (My & ey & HMy & Vy & Ty).
  set (e0 := Z.min (Z.min ex ey) 0).
  rewrite Vx, Vy in Hle.
  apply (aligned_le_Q _ _ _ _ e0) in Hle; try (unfold e0; lia).
  pose proof (pow2_pos (- e0) ltac:(unfold e0; lia)) as Hp.
  pose proof (pow2_pos (ex - e0) ltac:(unfold e0; lia)) as Hpx.
  exists ((Mx * 2 ^ (ex - e0)) / 2 ^ (- e0)), ((My * 2 ^ (ey - e0)) / 2 ^ (- e0)).
  split; [apply Tx; unfold e0; lia|]. split; [apply Ty; unfold e0; lia|].
  split; [apply Z.div_pos; nia|]. now apply Z.div_le_mono.
Qed.

End TruncFacts.

(* ===================================================================== *)
(** * The AQI lookup on all inputs *)
(* ===================================================================== *)

Module AqiOrderFacts.
Import Ieee IeeeFacts RoundingFacts OrderFacts NearestFacts FinishFacts RoundFacts OperationFacts
  TruncFacts Aqi AqiFacts.

Lemma SFcompare_eq_trans (a b c : spec_float) :
  SFcompare a b = Some Eq -> SFcompare b c = Some Eq ->
  SFcompare a c = Some Eq.
Proof.
  destruct a as [sa|sa| |sa ma ea], b as [sb|sb| |sb mb eb],
           c as [sc|sc| |sc mc ec];
    simpl; intros Hab Hbc;
    try discriminate;
    repeat match goal with s : bool |- _ => destruct s end;
    simpl in *; try congruence;
    first [ reflexivity | injection Hab as Hab; injection Hbc as Hbc; f_equal; split_compare ].
Qed.

Lemma f_le_trans (a b c : spec_float) :
  f_le a b = true -> f_le b c = true -> f_le a c = true.
Proof.
  intros Hab Hbc. apply f_le_Some in Hab, Hbc. unfold f_le.
  destruct Hab as [Hab|Hab].
  - now rewrite (SFcompare_lt_le_trans a b c Hab Hbc).
  - destruct Hbc as [Hbc|Hbc].
    + rewrite (SFcompare_le_lt_trans a b c); auto.
    + now rewrite (SFcompare_eq_trans a b c Hab Hbc).
Qed.

Lemma f_le_refl_finite (x : spec_float) :
  is_finite x = true -> f_le x x = true.
Proof.
  destruct x as [s|s| |s m e]; try discriminate; intros _; [reflexivity|].
  unfold f_le. simpl.
  change (Pos.compare_cont Eq m m) with (Pos.compare m m).
  rewrite Z.compare_refl, Pos.compare_refl. now destruct s.
Qed.

(** Among floats that are not NaN, not [<=] is [>]. *)
Lemma not_le_gt (a b : spec_float) :
  is_nan a = false -> is_nan b = false -> f_le a b = false ->
  f_gt a b = true.
Proof.
  unfold f_le, f_gt. destruct a, b; try discriminate; simpl; intros _ _;
    repeat match goal with s : bool |- _ => destruct s end; simpl;
    try congruence;
    repeat match goal with |- context [match ?c with _ => _ end] =>
             destruct c end; congruence.
Qed.

Lemma f_gt_ge (a b : spec_float) : f_gt a b = true -> f_ge a b = true.
Proof. unfold f_gt, f_ge. now destruct (SFcompare a b) as [[]|]. Qed.

Lemma f_gt_le (a b : spec_float) : f_gt a b = true -> f_le b a = true.
Proof.
  intros H. apply f_gt_Some, SFcompare_antisym in H. cbn [CompOpp] in H.
  unfold f_le. now rewrite H.
Qed.

Lemma f_ge_le (a b : spec_float) : f_ge a b = true -> f_le b a = true.
Proof.
  intros H. apply f_ge_Some in H. unfold f_le. now destruct H as [-> | ->].
Qed.

Lemma f_le_ge (a b : spec_float) : f_le b a = true -> f_ge a b = true.
Proof.
  intros H. apply f_le_Some in H.
  destruct H as [H|H]; apply SFcompare_antisym in H; cbn [CompOpp] in H;
    unfold f_ge; now rewrite H.
Qed.

Lemma f_ge_not_nan (a b : spec_float) : f_ge a b = true -> is_nan a = false.
Proof. now destruct a. Qed.

Lemma f_le_not_nan (a b : spec_float) : f_le a b = true -> is_nan a = false.
Proof. now destruct a. Qed.

Lemma nonnegb_nonneg (x : spec_float) :
  nonnegb x = true -> nonneg prec32 emax32 x.
Proof.
  unfold nonnegb. rewrite !andb_true_iff. intros [[Hv Hf] Hs].
  split; [exact Hv|]. split; [exact Hf|].
  destruct x as [s|s| |s m e]; try discriminate.
  destruct s; [discriminate|]. unfold Qval. simpl.
  apply Qlt_le_weak, positive_value_pos.
Qed.

Lemma between_nonneg (lo z hi : spec_float) :
  valid_binary prec32 emax32 z = true ->
  nonneg prec32 emax32 lo -> nonneg prec32 emax32 hi ->
  f_le lo z = true -> f_le z hi = true -> nonneg prec32 emax32 z.
Proof.
  intros Vz Hlo Hhi Hl Hh. split; [exact Vz|].
  destruct (nonneg_cases _ _ lo Hlo) as [[sl ->]|(ml & el & -> & _)];
    destruct (nonneg_cases _ _ hi Hhi) as [[sh ->]|(mh & eh & -> & _)];
    destruct z as [s|s| |s m e]; try discriminate;
    try (destruct s; discriminate);
    try (split; [reflexivity|unfold Qval; simpl; apply Qle_refl]);
    (destruct s; [discriminate|]);
    (split; [reflexivity|unfold Qval; simpl;
             apply Qlt_le_weak, positive_value_pos]).
Qed.

Lemma nonneg_Qval (x : spec_float) : nonneg prec32 emax32 x -> (0 <= Qval x)%Q.
Proof. now intros (_ & _ & H). Qed.

Lemma nonneg_finite (x : spec_float) : nonneg prec32 emax32 x -> is_finite x = true.
Proof. now intros (_ & H & _). Qed.

(** One branch: the interpolation does not decrease between the ends
    of the branch, and stays finite. *)
Lemma interpolate_mono (BIN : list spec_float) (k : nat) (x y : spec_float) :
  branch_ok BIN k = true ->
  nonneg prec32 emax32 x -> nonneg prec32 emax32 y ->
  f_le (at_ BIN k) x = true -> f_le x y = true ->
  f_le y (at_ BIN (S k)) = true ->
  nonneg prec32 emax32 (interpolate BIN k x) /\ nonneg prec32 emax32 (interpolate BIN k y)
  /\ f_le (interpolate BIN k x) (interpolate BIN k y) = true.
Proof.
  unfold branch_ok. cbv zeta. rewrite !andb_true_iff.
  intros [[[[[[[Hlo Hhi] Hs] HA] Hord] FD] FP] FR] Hx Hy Hlx Hxy Hyh.
  apply nonnegb_nonneg in Hlo, Hhi, Hs, HA.
  set (lo := at_ BIN k) in *. set (hi := at_ BIN (S k)) in *.
  set (A := at_ BIN_AQI k) in *.
  change (interpolate BIN k hi)
    with (f32_add (f32_mul (slope BIN k) (f32_sub hi lo)) A) in FR.
  change (interpolate BIN k x)
    with (f32_add (f32_mul (slope BIN k) (f32_sub x lo)) A).
  change (interpolate BIN k y)
    with (f32_add (f32_mul (slope BIN k) (f32_sub y lo)) A).
  set (sl := slope BIN k) in *.
  assert (Hly : f_le lo y = true) by (eapply f_le_trans; eassumption).
  pose proof (proj1 (nonneg_le prec32 emax32 eq_refl lo x Hlo Hx) Hlx) as Qlx.
  pose proof (proj1 (nonneg_le prec32 emax32 eq_refl x y Hx Hy) Hxy) as Qxy.
  pose proof (proj1 (nonneg_le prec32 emax32 eq_refl y hi Hy Hhi) Hyh) as Qyh.
  pose proof (proj1 (nonneg_le prec32 emax32 eq_refl lo y Hlo Hy) Hly) as Qly.
  assert (Qlh : (Qval lo <= Qval hi)%Q) by (eapply Qle_trans; eassumption).
  (* the differences *)
  pose proof (sub_rounds prec32 emax32 x lo Hx Hlo Qlx) as Rdx.
  pose proof (sub_rounds prec32 emax32 y lo Hy Hlo Qly) as Rdy.
  pose proof (sub_rounds prec32 emax32 hi lo Hhi Hlo Qlh) as RdH.
  assert (Ldy : f_le (f32_sub y lo) (f32_sub hi lo) = true).
  { eapply (rounds_le prec32 emax32 eq_refl); [exact Rdy|exact RdH|].
    unfold Qminus. apply Qplus_le_compat; [exact Qyh|apply Qle_refl]. }
  assert (Ldx : f_le (f32_sub x lo) (f32_sub y lo) = true).
  { eapply (rounds_le prec32 emax32 eq_refl); [exact Rdx|exact Rdy|].
    unfold Qminus. apply Qplus_le_compat; [exact Qxy|apply Qle_refl]. }
  pose proof (rounds_nonneg prec32 emax32 eq_refl _ _ _ Rdy FD Ldy) as Ndy.
  pose proof (rounds_nonneg prec32 emax32 eq_refl _ _ _ Rdx (nonneg_finite _ Ndy) Ldx)
    as Ndx.
  pose proof (rounds_nonneg prec32 emax32 eq_refl _ _ _ RdH FD
                (f_le_refl_finite _ FD)) as NdH.
  pose proof (proj1 (nonneg_le prec32 emax32 eq_refl _ _ Ndx Ndy) Ldx) as Qdx.
  pose proof (proj1 (nonneg_le prec32 emax32 eq_refl _ _ Ndy NdH) Ldy) as Qdy.
  (* the products *)
  pose proof (mul_rounds prec32 emax32 eq_refl sl _ Hs Ndx) as Rpx.
  pose proof (mul_rounds prec32 emax32 eq_refl sl _ Hs Ndy) as Rpy.
  pose proof (mul_rounds prec32 emax32 eq_refl sl _ Hs NdH) as RpH.
  pose proof (nonneg_Qval _ Hs) as Qs.
  assert (Lpy : f_le (f32_mul sl (f32_sub y lo)) (f32_mul sl (f32_sub hi lo))
                = true).
  { eapply (rounds_le prec32 emax32 eq_refl); [exact Rpy|exact RpH|].
    rewrite !(Qmult_comm (Qval sl)). now apply Qmult_le_compat_r. }
  assert (Lpx : f_le (f32_mul sl (f32_sub x lo)) (f32_mul sl (f32_sub y lo))
                = true).
  { eapply (rounds_le prec32 emax32 eq_refl); [exact Rpx|exact Rpy|].
    rewrite !(Qmult_comm (Qval sl)). now apply Qmult_le_compat_r. }
  pose proof (rounds_nonneg prec32 emax32 eq_refl _ _ _ Rpy FP Lpy) as Npy.
  pose proof (rounds_nonneg prec32 emax32 eq_refl _ _ _ Rpx (nonneg_finite _ Npy) Lpx)
    as Npx.
  pose proof (rounds_nonneg prec32 emax32 eq_refl _ _ _ RpH FP
                (f_le_refl_finite _ FP)) as NpH.
  pose proof (proj1 (nonneg_le prec32 emax32 eq_refl _ _ Npx Npy) Lpx) as Qpx.
  pose proof (proj1 (nonneg_le prec32 emax32 eq_refl _ _ Npy NpH) Lpy) as Qpy.
  (* the sums *)
  pose proof (add_rounds prec32 emax32 _ A Npx HA) as Rrx.
  pose proof (add_rounds prec32 emax32 _ A Npy HA) as Rry.
  pose proof (add_rounds prec32 emax32 _ A NpH HA) as RrH.
  assert (Lry : f_le (f32_add (f32_mul sl (f32_sub y lo)) A)
                     (f32_add (f32_mul sl (f32_sub hi lo)) A) = true).
  { eapply (rounds_le prec32 emax32 eq_refl); [exact Rry|exact RrH|].
    apply Qplus_le_compat; [exact Qpy|apply Qle_refl]. }
  assert (Lrx : f_le (f32_add (f32_mul sl (f32_sub x lo)) A)
                     (f32_add (f32_mul sl (f32_sub y lo)) A) = true).
  { eapply (rounds_le prec32 emax32 eq_refl); [exact Rrx|exact Rry|].
    apply Qplus_le_compat; [exact Qpx|apply Qle_refl]. }
  pose proof (rounds_nonneg prec32 emax32 eq_refl _ _ _ Rry FR Lry) as Nry.
  pose proof (rounds_nonneg prec32 emax32 eq_refl _ _ _ Rrx (nonneg_finite _ Nry) Lrx)
    as Nrx.
  split; [exact Nrx|]. split; [exact Nry|exact Lrx].
Qed.

Lemma branch_ok_ends (BIN : list spec_float) (k : nat) :
  branch_ok BIN k = true ->
  nonneg prec32 emax32 (at_ BIN k) /\ nonneg prec32 emax32 (at_ BIN (S k))
  /\ f_le (at_ BIN k) (at_ BIN (S k)) = true.
Proof.
  unfold branch_ok. cbv zeta. rewrite !andb_true_iff.
  intros [[[[[[[Hlo Hhi] _] _] Hord] _] _] _].
  apply nonnegb_nonneg in Hlo, Hhi. auto.
Qed.

Lemma nonneg_not_nan (x : spec_float) : nonneg prec32 emax32 x -> is_nan x = false.
Proof. intros (_ & Hf & _). now destruct x. Qed.

Lemma upper_chain_mono (BIN : list spec_float) (ks : list nat) :
  forall (B x y : spec_float),
    chain_ok BIN B ks = true ->
    nonneg prec32 emax32 x -> nonneg prec32 emax32 y ->
    match ks with
    | [] => True
    | k :: _ => f_le (at_ BIN k) x = true
    end ->
    f_le x y = true ->
    (exists k, k ∈ ks /\ f_le y (at_ BIN (S k)) = true) ->
    nonneg prec32 emax32 (upper_chain BIN ks x) /\ nonneg prec32 emax32 (upper_chain BIN ks y)
    /\ f_le B (upper_chain BIN ks x) = true
    /\ f_le (upper_chain BIN ks x) (upper_chain BIN ks y) = true.
Proof.
  induction ks as [|k rest IH]; intros B x y Hok Hx Hy Hlo Hxy (j & Hj & Hyj).
  { now apply elem_of_nil in Hj. }
  cbn [chain_ok] in Hok. rewrite !andb_true_iff in Hok.
  destruct Hok as [[[Hb HB] Hnext] Hrest].
  destruct (branch_ok_ends BIN k Hb) as (Nlo & Nhi & Hord).
  pose proof (interpolate_mono BIN k) as Hmono.
  destruct (Hmono (at_ BIN k) (at_ BIN (S k)) Hb Nlo Nhi
              (f_le_refl_finite _ (nonneg_finite _ Nlo)) Hord
              (f_le_refl_finite _ (nonneg_finite _ Nhi)))
    as (Nbot & Ntop & Hbt).
  cbn [upper_chain].
  destruct (f_le y (at_ BIN (S k))) eqn:Hyk.
  - assert (Hxk : f_le x (at_ BIN (S k)) = true)
      by (eapply f_le_trans; eassumption).
    rewrite Hxk.
    destruct (Hmono x y Hb Hx Hy Hlo Hxy Hyk) as (Nx' & Ny' & Hle).
    destruct (Hmono (at_ BIN k) x Hb Nlo Hx
                (f_le_refl_finite _ (nonneg_finite _ Nlo)) Hlo Hxk)
      as (_ & _ & Hbx).
    split; [exact Nx'|]. split; [exact Ny'|]. split; [|exact Hle].
    eapply f_le_trans; eassumption.
  - assert (Hgt : f_gt y (at_ BIN (S k)) = true)
      by (apply not_le_gt; auto using nonneg_not_nan).
    apply elem_of_cons in Hj as [->|Hj]; [congruence|].
    destruct rest as [|k' rest']; [now apply elem_of_nil in Hj|].
    assert (Hlo' : forall z, f_gt z (at_ BIN (S k)) = true ->
                     f_le (at_ BIN k') z = true).
    { intros z Hz. eapply f_le_trans; [exact Hnext|now apply f_gt_le]. }
    assert (Hyy : f_le y y = true)
      by (apply f_le_refl_finite, nonneg_finite, Hy).
    destruct (IH _ y y Hrest Hy Hy (Hlo' y Hgt) Hyy)
      as (Ny' & _ & Hty & _); [eauto|].
    destruct (f_le x (at_ BIN (S k))) eqn:Hxk.
    + destruct (Hmono x (at_ BIN (S k)) Hb Hx Nhi Hlo Hxk
                  (f_le_refl_finite _ (nonneg_finite _ Nhi)))
        as (Nx' & _ & Hxt).
      destruct (Hmono (at_ BIN k) x Hb Nlo Hx
                  (f_le_refl_finite _ (nonneg_finite _ Nlo)) Hlo Hxk)
        as (_ & _ & Hbx).
      split; [exact Nx'|]. split; [exact Ny'|].
      split; eapply f_le_trans; eassumption.
    + assert (Hgx : f_gt x (at_ BIN (S k)) = true)
        by (apply not_le_gt; auto using nonneg_not_nan).
      destruct (IH _ x y Hrest Hx Hy (Hlo' x Hgx) Hxy)
        as (Nx' & _ & Htx & Hle); [eauto|].
      split; [exact Nx'|]. split; [exact Ny'|]. split; [|exact Hle].
      eapply f_le_trans; [exact HB|]. eapply f_le_trans; eassumption.
Qed.

(** ** The chains of the source and the chains of upper tests *)

Lemma guard_step (BIN : list spec_float) (k : nat) (pm X Y : spec_float) :
  f_ge pm (at_ BIN k) = true ->
  (if in_segment BIN k pm then X else Y)
  = (if f_le pm (at_ BIN (S k)) then X else Y).
Proof. intros Hge. unfold in_segment. now rewrite Hge. Qed.

Lemma guard_next (c pm : spec_float) :
  is_nan pm = false -> is_nan c = false -> f_le pm c = false ->
  f_ge pm c = true.
Proof. intros. now apply f_gt_ge, not_le_gt. Qed.

Lemma aqipm25_upper_chain (pm : spec_float) :
  f_ge pm zero = true ->
  aqipm25_of pm = upper_chain BIN_PM25 [1; 2; 3; 4; 5; 6; 7]%nat pm.
Proof.
  intros H0. pose proof (f_ge_not_nan _ _ H0) as Hn.
  unfold aqipm25_of. cbn [upper_chain].
  rewrite (guard_step BIN_PM25 1) by exact H0.
  destruct (f_le pm (at_ BIN_PM25 2)) eqn:H2; [reflexivity|].
  rewrite (guard_step BIN_PM25 2) by (apply guard_next; auto).
  destruct (f_le pm (at_ BIN_PM25 3)) eqn:H3; [reflexivity|].
  rewrite (guard_step BIN_PM25 3) by (apply guard_next; auto).
  destruct (f_le pm (at_ BIN_PM25 4)) eqn:H4; [reflexivity|].
  rewrite (guard_step BIN_PM25 4) by (apply guard_next; auto).
  destruct (f_le pm (at_ BIN_PM25 5)) eqn:H5; [reflexivity|].
  rewrite (guard_step BIN_PM25 5) by (apply guard_next; auto).
  destruct (f_le pm (at_ BIN_PM25 6)) eqn:H6; [reflexivity|].
  rewrite (guard_step BIN_PM25 6) by (apply guard_next; auto).
  destruct (f_le pm (at_ BIN_PM25 7)) eqn:H7; [reflexivity|].
  rewrite (guard_step BIN_PM25 7) by (apply guard_next; auto).
  reflexivity.
Qed.

Lemma aqipm10_upper_chain (pm : spec_float) :
  f_ge pm zero = true ->
  aqipm10_of pm = upper_chain BIN_PM10 [1; 2; 3; 5; 6; 7]%nat pm.
Proof.
  intros H0. pose proof (f_ge_not_nan _ _ H0) as Hn.
  unfold aqipm10_of. cbn [upper_chain].
  rewrite (guard_step BIN_PM10 1) by exact H0.
  destruct (f_le pm (at_ BIN_PM10 2)) eqn:H2; [reflexivity|].
  rewrite (guard_step BIN_PM10 2) by (apply guard_next; auto).
  destruct (f_le pm (at_ BIN_PM10 3)) eqn:H3; [reflexivity|].
  rewrite (guard_step BIN_PM10 3) by (apply guard_next; auto).
  destruct (f_le pm (at_ BIN_PM10 4)) eqn:H4; [reflexivity|].
  rewrite (in_segment_empty BIN_PM10 4 pm) by by_evaluation.
  assert (H5 : f_ge pm (at_ BIN_PM10 5) = true).
  { apply f_le_ge. apply f_le_trans with (at_ BIN_PM10 4); [by_evaluation|].
    apply f_gt_le, not_le_gt; auto. }
  rewrite (guard_step BIN_PM10 5) by exact H5.
  destruct (f_le pm (at_ BIN_PM10 6)) eqn:H6; [reflexivity|].
  rewrite (guard_step BIN_PM10 6) by (apply guard_next; auto).
  destruct (f_le pm (at_ BIN_PM10 7)) eqn:H7; [reflexivity|].
  rewrite (guard_step BIN_PM10 7) by (apply guard_next; auto).
  reflexivity.
Qed.

Lemma chain_ok_25 :
  chain_ok BIN_PM25 zero [1; 2; 3; 4; 5; 6; 7]%nat = true.
Proof. vm_compute. reflexivity. Qed.

Lemma chain_ok_10 :
  chain_ok BIN_PM10 zero [1; 2; 3; 5; 6; 7]%nat = true.
Proof. vm_compute. reflexivity. Qed.

Lemma inside_or_outside (BIN : list spec_float) (pm : spec_float) :
  is_finite (at_ BIN 8) = true ->
  outside BIN pm
  \/ (f_ge pm zero = true /\ f_le pm (at_ BIN 8) = true).
Proof.
  intros Htop. unfold outside.
  destruct (is_nan pm) eqn:Hnan; [left; left; reflexivity|].
  destruct (f_lt pm zero) eqn:Hlt; [left; right; left; reflexivity|].
  destruct (f_gt pm (at_ BIN 8)) eqn:Hgt; [left; right; right; reflexivity|].
  right. split.
  - unfold f_lt in Hlt. unfold f_ge, zero in *.
    destruct pm as [s|s| |s m e]; try discriminate; try reflexivity;
      destruct s; simpl in *; congruence.
  - unfold f_gt in Hgt. unfold f_le.
    destruct (at_ BIN 8) as [st|st| |st mt et]; try discriminate;
      destruct pm as [s|s| |s m e]; try discriminate; simpl in *;
      repeat match goal with b : bool |- _ => destruct b end; simpl in *;
      try congruence; try reflexivity;
      repeat match goal with |- context [match ?c with _ => _ end] =>
               destruct c end; congruence.
Qed.

Lemma zero_nonneg : nonneg prec32 emax32 zero.
Proof. apply nonnegb_nonneg. reflexivity. Qed.

(** The result of the function from the value of its local. *)
Lemma int_of_local (r c : spec_float) (b : Z) :
  nonneg prec32 emax32 r -> nonneg prec32 emax32 c -> f_le r c = true ->
  Ztrunc_float c = Some b -> b <= INT_MAX ->
  exists a, int_of_f64 (trunc (f64_of_f32 r)) = Some a /\ 0 <= a <= b.
Proof.
  intros Nr Nc Hle Hb Hmax.
  destruct (Ztrunc_float_le r c Nr Nc Hle) as (a & b' & Ha & Hb' & Hab).
  rewrite Hb in Hb'. injection Hb' as <-.
  exists a. split; [|exact Hab].
  rewrite int_of_trunc by assumption. unfold int_of_f64. rewrite Ha.
  replace (INT_MIN <=? a) with true
    by (symmetry; apply Z.leb_le; unfold INT_MIN; lia).
  replace (a <=? INT_MAX) with true by (symmetry; apply Z.leb_le; lia).
  reflexivity.
Qed.

Lemma int_of_local_ge (c r : spec_float) (a : Z) :
  nonneg prec32 emax32 c -> nonneg prec32 emax32 r -> f_le c r = true ->
  Ztrunc_float c = Some a ->
  forall v, int_of_f64 (trunc (f64_of_f32 r)) = Some v -> a <= v.
Proof.
  intros Nc Nr Hle Ha v Hv.
  destruct (Ztrunc_float_le c r Nc Nr Hle) as (a' & b & Ha' & Hb & Hab).
  rewrite Ha in Ha'. injection Ha' as <-.
  rewrite int_of_trunc in Hv by assumption. unfold int_of_f64 in Hv.
  rewrite Hb in Hv. destruct (_ && _); [|discriminate].
  injection Hv as <-. lia.
Qed.

(** Inputs between zero and the end of the table. *)
Lemma inside_nonneg (top pm : spec_float) :
  valid_binary prec32 emax32 pm = true -> nonneg prec32 emax32 top ->
  f_ge pm zero = true -> f_le pm top = true -> nonneg prec32 emax32 pm.
Proof.
  intros Vpm Ntop H0 Htop.
  apply (between_nonneg zero pm top); auto using zero_nonneg, f_ge_le.
Qed.

Section Table.
Variables (BIN : list spec_float) (ks : list nat).
Hypothesis table_ok : chain_ok BIN zero ks = true.
Hypothesis starts_at_zero :
  match ks with [] => True | k :: _ => at_ BIN k = zero end.

Lemma head_le (x : spec_float) :
  f_ge x zero = true ->
  match ks with [] => True | k :: _ => f_le (at_ BIN k) x = true end.
Proof.
  intros H0. destruct ks; [exact I|]. rewrite starts_at_zero.
  now apply f_ge_le.
Qed.

Lemma table_mono (x y : spec_float) (k : nat) :
  nonneg prec32 emax32 x -> nonneg prec32 emax32 y -> f_ge x zero = true -> f_le x y = true ->
  k ∈ ks -> f_le y (at_ BIN (S k)) = true ->
  nonneg prec32 emax32 (upper_chain BIN ks x) /\ nonneg prec32 emax32 (upper_chain BIN ks y)
  /\ f_le (upper_chain BIN ks x) (upper_chain BIN ks y) = true.
Proof.
  intros Nx Ny H0 Hxy Hk Hyk.
  destruct (upper_chain_mono BIN ks zero x y table_ok Nx Ny (head_le x H0) Hxy)
    as (Hx & Hy & _ & Hle); eauto.
Qed.

End Table.

Lemma in_list_25 (k : nat) :
  (1 <= k <= 7)%nat -> k ∈ [1; 2; 3; 4; 5; 6; 7]%nat.
Proof.
  intros Hk.
  assert (Hcases : (k = 1 \/ k = 2 \/ k = 3 \/ k = 4 \/ k = 5 \/ k = 6
                    \/ k = 7)%nat) by lia.
  decompose [or] Hcases; subst k; repeat constructor.
Qed.

Lemma top_25 : nonneg prec32 emax32 (at_ BIN_PM25 8).
Proof. apply nonnegb_nonneg. vm_compute. reflexivity. Qed.

Lemma top_10 : nonneg prec32 emax32 (at_ BIN_PM10 8).
Proof. apply nonnegb_nonneg. vm_compute. reflexivity. Qed.

Lemma int_of_local_le (r1 r2 c : spec_float) (t : Z) :
  nonneg prec32 emax32 r1 -> nonneg prec32 emax32 r2 -> nonneg prec32 emax32 c ->
  f_le r1 r2 = true -> f_le r2 c = true ->
  Ztrunc_float c = Some t -> t <= INT_MAX ->
  exists a b,
    int_of_f64 (trunc (f64_of_f32 r1)) = Some a
    /\ int_of_f64 (trunc (f64_of_f32 r2)) = Some b
    /\ 0 <= a <= b /\ b <= t.
Proof.
  intros N1 N2 Nc H12 H2c Ht Hmax.
  destruct (int_of_local r2 c t N2 Nc H2c Ht Hmax) as (b & Hb & Hbt).
  assert (Tb : Ztrunc_float r2 = Some b).
  { rewrite int_of_trunc in Hb by assumption. unfold int_of_f64 in Hb.
    destruct (Ztrunc_float r2) as [z|]; [|discriminate].
    destruct (_ && _); [|discriminate]. exact Hb. }
  destruct (int_of_local r1 r2 b N1 N2 H12 Tb ltac:(lia)) as (a & Ha & Hab).
  exists a, b. repeat split; try assumption; lia.
Qed.

Section Results.
Variables (BIN : list spec_float) (ks : list nat) (last : nat).
Hypothesis table_ok : chain_ok BIN zero ks = true.
Hypothesis starts_at_zero :
  match ks with [] => True | k :: _ => at_ BIN k = zero end.
Hypothesis last_in : last ∈ ks.
Hypothesis top_ok : nonneg prec32 emax32 (at_ BIN (S last)).
Hypothesis top_value :
  Ztrunc_float (upper_chain BIN ks (at_ BIN (S last))) = Some 500.

(** On the inputs between zero and the upper end of the last branch
    the chain of upper tests never decreases, and the [int] made of
    it is defined. *)
Lemma table_results (x y : spec_float) :
  valid_binary prec32 emax32 x = true ->
  valid_binary prec32 emax32 y = true ->
  f_ge x zero = true -> f_le x y = true ->
  f_le y (at_ BIN (S last)) = true ->
  exists a b,
    int_of_f64 (trunc (f64_of_f32 (upper_chain BIN ks x))) = Some a
    /\ int_of_f64 (trunc (f64_of_f32 (upper_chain BIN ks y))) = Some b
    /\ 0 <= a <= b /\ b <= 500.
Proof.
  intros Vx Vy H0 Hxy Htop.
  assert (Hy0 : f_ge y zero = true).
  { apply f_le_ge. eapply f_le_trans; [apply f_ge_le; exact H0|exact Hxy]. }
  pose proof (inside_nonneg _ y Vy top_ok Hy0 Htop) as Ny.
  assert (Nx : nonneg prec32 emax32 x).
  { apply (between_nonneg zero x y); auto using zero_nonneg, f_ge_le. }
  destruct (table_mono BIN ks table_ok starts_at_zero x y last
              Nx Ny H0 Hxy last_in Htop) as (Rx & Ry & Hle).
  destruct (table_mono BIN ks table_ok starts_at_zero y (at_ BIN (S last)) last
              Ny top_ok Hy0 Htop last_in
              (f_le_refl_finite _ (nonneg_finite _ top_ok)))
    as (_ & Rt & Hlt).
  apply (int_of_local_le _ _ _ 500 Rx Ry Rt Hle Hlt top_value).
  vm_compute. discriminate.
Qed.

End Results.

(** X10. On the inputs from zero to [BIN_PM25[8]] (500.4)
    [calcAQIpm25] never decreases, the rounding of every [float]
    operation included: of two such inputs the larger one never
    yields the smaller index. *)
Theorem calcAQIpm25_never_decreases (x y : spec_float) :
  valid_binary prec32 emax32 x = true ->
  valid_binary prec32 emax32 y = true ->
  f_ge x zero = true -> f_le x y = true ->
  f_le y (at_ BIN_PM25 8) = true ->
  exists a b,
    calcAQIpm25 x = Some a /\ calcAQIpm25 y = Some b /\ 0 <= a <= b.
Proof.
  intros Vx Vy H0 Hxy Htop.
  assert (Hy0 : f_ge y zero = true).
  { apply f_le_ge. eapply f_le_trans; [apply f_ge_le; exact H0|exact Hxy]. }
  unfold calcAQIpm25.
  rewrite (aqipm25_upper_chain x H0), (aqipm25_upper_chain y Hy0).
  destruct (table_results BIN_PM25 _ 7%nat chain_ok_25 eq_refl
              ltac:(repeat constructor) top_25 ltac:(vm_compute; reflexivity)
              x y Vx Vy H0 Hxy Htop) as (a & b & Ha & Hb & Hab & _).
  eauto.
Qed.

(** X11. In spite of the entry 135 of [BIN_PM10] that is out of
    order, on the inputs from zero to [BIN_PM10[8]] (604)
    [calcAQIpm10] never decreases: of two such inputs the larger one
    never yields the smaller index. *)
Theorem calcAQIpm10_never_decreases_up_to_604 (x y : spec_float) :
  valid_binary prec32 emax32 x = true ->
  valid_binary prec32 emax32 y = true ->
  f_ge x zero = true -> f_le x y = true ->
  f_le y (at_ BIN_PM10 8) = true ->
  exists a b,
    calcAQIpm10 x = Some a /\ calcAQIpm10 y = Some b /\ 0 <= a <= b.
Proof.
  intros Vx Vy H0 Hxy Htop.
  assert (Hy0 : f_ge y zero = true).
  { apply f_le_ge. eapply f_le_trans; [apply f_ge_le; exact H0|exact Hxy]. }
  unfold calcAQIpm10.
  rewrite (aqipm10_upper_chain x H0), (aqipm10_upper_chain y Hy0).
  destruct (table_results BIN_PM10 _ 7%nat chain_ok_10 eq_refl
              ltac:(repeat constructor) top_10 ltac:(vm_compute; reflexivity)
              x y Vx Vy H0 Hxy Htop) as (a & b & Ha & Hb & Hab & _).
  eauto.
Qed.

Lemma results_25 (x y : spec_float) :
  valid_binary prec32 emax32 x = true ->
  valid_binary prec32 emax32 y = true ->
  f_ge x zero = true -> f_le x y = true ->
  f_le y (at_ BIN_PM25 8) = true ->
  exists a b,
    int_of_f64 (trunc (f64_of_f32
      (upper_chain BIN_PM25 [1; 2; 3; 4; 5; 6; 7]%nat x))) = Some a
    /\ int_of_f64 (trunc (f64_of_f32
         (upper_chain BIN_PM25 [1; 2; 3; 4; 5; 6; 7]%nat y))) = Some b
    /\ 0 <= a <= b /\ b <= 500.
Proof.
  apply (table_results BIN_PM25 _ 7%nat chain_ok_25 eq_refl
           ltac:(repeat constructor) top_25).
  vm_compute. reflexivity.
Qed.

Lemma results_10 (x y : spec_float) :
  valid_binary prec32 emax32 x = true ->
  valid_binary prec32 emax32 y = true ->
  f_ge x zero = true -> f_le x y = true ->
  f_le y (at_ BIN_PM10 8) = true ->
  exists a b,
    int_of_f64 (trunc (f64_of_f32
      (upper_chain BIN_PM10 [1; 2; 3; 5; 6; 7]%nat x))) = Some a
    /\ int_of_f64 (trunc (f64_of_f32
         (upper_chain BIN_PM10 [1; 2; 3; 5; 6; 7]%nat y))) = Some b
    /\ 0 <= a <= b /\ b <= 500.
Proof.
  apply (table_results BIN_PM10 _ 7%nat chain_ok_10 eq_refl
           ltac:(repeat constructor) top_10).
  vm_compute. reflexivity.
Qed.

Lemma f_le_refl_inside (top pm : spec_float) :
  valid_binary prec32 emax32 pm = true -> nonneg prec32 emax32 top ->
  f_ge pm zero = true -> f_le pm top = true -> f_le pm pm = true.
Proof.
  intros Vpm Ntop H0 Htop.
  apply f_le_refl_finite, nonneg_finite.
  exact (inside_nonneg top pm Vpm Ntop H0 Htop).
Qed.

Lemma calcAQIpm25_defined (pm : spec_float) :
  valid_binary prec32 emax32 pm = true ->
  exists v, calcAQIpm25 pm = Some v /\ 0 <= v <= 500.
Proof.
  intros Vpm.
  destruct (inside_or_outside BIN_PM25 pm eq_refl) as [Hout|[H0 Htop]].
  { exists 0. unfold calcAQIpm25. rewrite (aqipm25_outside pm Hout).
    split; [vm_compute; reflexivity|lia]. }
  unfold calcAQIpm25. rewrite (aqipm25_upper_chain pm H0).
  destruct (results_25 pm pm Vpm Vpm H0
              (f_le_refl_inside _ pm Vpm top_25 H0 Htop) Htop)
    as (a & v & _ & Hv & Hv0 & Hv500).
  exists v. split; [exact Hv|lia].
Qed.

Lemma calcAQIpm10_defined (pm : spec_float) :
  valid_binary prec32 emax32 pm = true ->
  exists v, calcAQIpm10 pm = Some v /\ 0 <= v <= 500.
Proof.
  intros Vpm.
  destruct (inside_or_outside BIN_PM10 pm eq_refl) as [Hout|[H0 Htop]].
  { exists 0. unfold calcAQIpm10. rewrite (aqipm10_outside pm Hout).
    split; [vm_compute; reflexivity|lia]. }
  unfold calcAQIpm10. rewrite (aqipm10_upper_chain pm H0).
  destruct (results_10 pm pm Vpm Vpm H0
              (f_le_refl_inside _ pm Vpm top_10 H0 Htop) Htop)
    as (a & v & _ & Hv & Hv0 & Hv500).
  exists v. split; [exact Hv|lia].
Qed.

Ltac each_branch Hk :=
  let Hcases := fresh in
  match type of Hk with
  | (1 <= ?k <= 7)%nat =>
      assert (Hcases : (k = 1 \/ k = 2 \/ k = 3 \/ k = 4 \/ k = 5 \/ k = 6
                        \/ k = 7)%nat) by lia;
      decompose [or] Hcases; subst k
  end.

(** X8. For every well-formed [float] (NaN, the infinities and the
    negative numbers included) [calcAQIpm25] returns a number: the
    conversion to [int] is never undefined, and the number lies
    between 0 and 500.  When the input passes the two tests of
    branch [k], the number lies between the entries [k] and [k + 1]
    of [BIN_AQI]. *)
Theorem calcAQIpm25_stays_in_its_band (pm : spec_float) :
  valid_binary prec32 emax32 pm = true ->
  exists v,
    calcAQIpm25 pm = Some v /\ 0 <= v <= 500
    /\ forall k : nat,
         (1 <= k <= 7)%nat -> in_segment BIN_PM25 k pm = true ->
         exists a b,
           int_of_f64 (at_ BIN_AQI k) = Some a
           /\ int_of_f64 (at_ BIN_AQI (S k)) = Some b
           /\ a <= v <= b.
Proof.
  intros Vpm. destruct (calcAQIpm25_defined pm Vpm) as (v & Hv & Hrange).
  exists v. split; [exact Hv|]. split; [exact Hrange|].
  intros k Hk Hin. unfold in_segment in Hin.
  apply andb_true_iff in Hin as [Hlo Hhi]. apply f_ge_le in Hlo.
  set (F := upper_chain BIN_PM25 [1; 2; 3; 4; 5; 6; 7]%nat).
  assert (Hends :
    valid_binary prec32 emax32 (at_ BIN_PM25 k) = true
    /\ valid_binary prec32 emax32 (at_ BIN_PM25 (S k)) = true
    /\ f_ge (at_ BIN_PM25 k) zero = true
    /\ f_le (at_ BIN_PM25 (S k)) (at_ BIN_PM25 8) = true
    /\ int_of_f64 (trunc (f64_of_f32 (F (at_ BIN_PM25 k))))
       = int_of_f64 (at_ BIN_AQI k)
    /\ int_of_f64 (trunc (f64_of_f32 (F (at_ BIN_PM25 (S k)))))
       = int_of_f64 (at_ BIN_AQI (S k))).
  { each_branch Hk; repeat split; vm_compute; reflexivity. }
  destruct Hends as (Vlo & Vhi & Hlo0 & Hhitop & Elo & Ehi).
  assert (Hpm0 : f_ge pm zero = true).
  { apply f_le_ge. eapply f_le_trans; [apply f_ge_le; exact Hlo0|exact Hlo]. }
  assert (Hpmtop : f_le pm (at_ BIN_PM25 8) = true)
    by (eapply f_le_trans; eassumption).
  unfold calcAQIpm25 in Hv. rewrite (aqipm25_upper_chain pm Hpm0) in Hv.
  fold F in Hv.
  destruct (results_25 _ pm Vlo Vpm Hlo0 Hlo Hpmtop)
    as (a & v1 & Ha & Hv1 & Hav & _).
  destruct (results_25 pm _ Vpm Vhi Hpm0 Hhi Hhitop)
    as (v2 & b & Hv2 & Hb & Hvb & _).
  fold F in Ha, Hv1, Hv2, Hb.
  rewrite Hv in Hv1, Hv2. injection Hv1 as <-. injection Hv2 as <-.
  exists a, b. rewrite <- Elo, <- Ehi. repeat split; try assumption; lia.
Qed.

Lemma upper_chain_skip (BIN : list spec_float) (k : nat) (rest : list nat)
  (pm : spec_float) :
  f_le pm (at_ BIN (S k)) = false ->
  upper_chain BIN (k :: rest) pm = upper_chain BIN rest pm.
Proof. intros H. cbn [upper_chain]. now rewrite H. Qed.

Lemma chain_ok_10_high : chain_ok BIN_PM10 zero [5; 6; 7]%nat = true.
Proof. vm_compute. reflexivity. Qed.

(** X9. For every well-formed [float] (NaN, the infinities and the
    negative numbers included) [calcAQIpm10] returns a number between
    0 and 500, and never one from 151 to 240: the inputs from 0 to
    [BIN_PM10[4]] (254) give at most 150, and the inputs above it up
    to [BIN_PM10[8]] (604) give at least 241. *)
Theorem calcAQIpm10_skips_151_to_240 (pm : spec_float) :
  valid_binary prec32 emax32 pm = true ->
  exists v,
    calcAQIpm10 pm = Some v /\ 0 <= v <= 500
    /\ (v <= 150 \/ 241 <= v)
    /\ (f_ge pm zero = true -> f_le pm (at_ BIN_PM10 4) = true -> v <= 150)
    /\ (f_gt pm (at_ BIN_PM10 4) = true ->
        f_le pm (at_ BIN_PM10 8) = true -> 241 <= v).
Proof.
  intros Vpm. destruct (calcAQIpm10_defined pm Vpm) as (v & Hv & Hrange).
  exists v. split; [exact Hv|]. split; [exact Hrange|].
  assert (Hlow : f_ge pm zero = true -> f_le pm (at_ BIN_PM10 4) = true ->
                 v <= 150).
  { intros H0 H254.
    unfold calcAQIpm10 in Hv. rewrite (aqipm10_upper_chain pm H0) in Hv.
    destruct (results_10 pm (at_ BIN_PM10 4) Vpm eq_refl H0 H254
                ltac:(vm_compute; reflexivity))
      as (v' & b & Hv' & Hb & Hvb & _).
    rewrite Hv in Hv'. injection Hv' as <-.
    vm_compute in Hb. injection Hb as <-. lia. }
  assert (Hhigh : f_gt pm (at_ BIN_PM10 4) = true ->
                  f_le pm (at_ BIN_PM10 8) = true -> 241 <= v).
  { intros Hgt Htop.
    assert (H254 : f_le (at_ BIN_PM10 4) pm = true) by now apply f_gt_le.
    assert (H0 : f_ge pm zero = true).
    { apply f_le_ge. eapply f_le_trans; [|exact H254].
      vm_compute. reflexivity. }
    pose proof (inside_nonneg _ pm Vpm top_10 H0 Htop) as Npm.
    unfold calcAQIpm10 in Hv. rewrite (aqipm10_upper_chain pm H0) in Hv.
    do 3 rewrite upper_chain_skip in Hv
      by (apply (above_not_le pm _ _ Hgt); vm_compute; reflexivity).
    destruct (upper_chain_mono BIN_PM10 [5; 6; 7]%nat zero
                (at_ BIN_PM10 4) pm chain_ok_10_high
                ltac:(apply nonnegb_nonneg; vm_compute; reflexivity) Npm
                ltac:(vm_compute; reflexivity) H254)
      as (N254 & Nr & _ & Hle).
    { exists 7%nat. split; [repeat constructor|exact Htop]. }
    apply (int_of_local_ge _ _ 241 N254 Nr Hle); [|exact Hv].
    vm_compute. reflexivity. }
  split; [|split; [exact Hlow|exact Hhigh]].
  destruct (inside_or_outside BIN_PM10 pm eq_refl) as [Hout|[H0 Htop]].
  - left. unfold calcAQIpm10 in Hv. rewrite (aqipm10_outside pm Hout) in Hv.
    vm_compute in Hv. injection Hv as <-. lia.
  - destruct (f_le pm (at_ BIN_PM10 4)) eqn:H254; [left; now apply Hlow|].
    right. apply Hhigh; [|exact Htop].
    apply not_le_gt; [now apply f_ge_not_nan in H0|reflexivity|exact H254].
Qed.

(** X12. For an input that is at least zero, the lower test of every
    branch is redundant: both functions compute what a chain of the
    upper tests alone computes, over the branches 1 to 7 for
    [calcAQIpm25] and over the branches 1, 2, 3, 5, 6, 7 for
    [calcAQIpm10], whose branch 4 is never taken. *)
Theorem calcAQI_lower_tests_are_redundant (pm : spec_float) :
  f_ge pm zero = true ->
  calcAQIpm25 pm
  = int_of_f64 (trunc (f64_of_f32
      (upper_chain BIN_PM25 [1; 2; 3; 4; 5; 6; 7]%nat pm)))
  /\ calcAQIpm10 pm
     = int_of_f64 (trunc (f64_of_f32
         (upper_chain BIN_PM10 [1; 2; 3; 5; 6; 7]%nat pm))).
Proof.
  intros H0. unfold calcAQIpm25, calcAQIpm10.
  rewrite (aqipm25_upper_chain pm H0), (aqipm10_upper_chain pm H0).
  split; reflexivity.
Qed.

(** ** The misordered entry of [BIN_PM10] *)

Lemma calcAQIpm10_ordered (x y : spec_float) (a b : Z) :
  valid_binary prec32 emax32 x = true ->
  valid_binary prec32 emax32 y = true ->
  f_le zero x = true -> f_le x y = true ->
  f_le y (at_ BIN_PM10 8) = true ->
  calcAQIpm10 x = Some a -> calcAQIpm10 y = Some b -> 0 <= a <= b.
Proof.
  intros Vx Vy H0 Hxy Htop Ha Hb. apply f_le_ge in H0.
  assert (Hy0 : f_ge y zero = true).
  { apply f_le_ge. eapply f_le_trans; [apply f_ge_le; exact H0|exact Hxy]. }
  unfold calcAQIpm10 in Ha, Hb.
  rewrite (aqipm10_upper_chain x H0) in Ha.
  rewrite (aqipm10_upper_chain y Hy0) in Hb.
  destruct (results_10 x y Vx Vy H0 Hxy Htop)
    as (a' & b' & Ha' & Hb' & Hab & _).
  congruence.
Qed.

Lemma f_lt_not_le (a b : spec_float) : f_lt a b = true -> f_le b a = false.
Proof.
  intros Hlt. apply f_lt_Some in Hlt. unfold f_le.
  destruct (SFcompare b a) as [[]|] eqn:E; try reflexivity;
    apply SFcompare_antisym in E; cbn [CompOpp] in E; congruence.
Qed.

(** C9. In [calcAQIpm10] the branch guarded by
    [pm10 >= BIN_PM10[4] && pm10 <= BIN_PM10[5]] is taken for no input,
    because [BIN_PM10[4] = 254] exceeds [BIN_PM10[5] = 135]; every
    input above 254 and at most 424 is handled by the next branch and
    interpolated over the segment from 135 to 424 mapped onto the AQI
    values 200 to 300.  The misordered entry makes the result jump
    upwards (150 at 254, 257 at 300) and never down: from zero to
    [BIN_PM10[8] = 604] the function never decreases.  It is not
    non-decreasing on all inputs from zero upwards, but only because
    it returns 0 above 604: whenever the result goes down, the larger
    input lies above the table and its result is 0. *)
Theorem calcAQIpm10_misordered_bin (pm10 : spec_float) :
  (at_ BIN_PM10 4 = f32_lit 254 1 /\ at_ BIN_PM10 5 = f32_lit 135 1
   /\ f_gt (at_ BIN_PM10 4) (at_ BIN_PM10 5) = true)
  /\ in_segment BIN_PM10 4 pm10 = false
  /\ (forall q : Q,
        valid_binary prec32 emax32 pm10 = true -> value_is pm10 q ->
        (254 < q /\ q <= 424)%Q ->
        f_gt pm10 (f32_lit 254 1) = true /\ f_le pm10 (f32_lit 424 1) = true)
  /\ (f_gt pm10 (f32_lit 254 1) = true -> f_le pm10 (f32_lit 424 1) = true ->
      in_segment BIN_PM10 5 pm10 = true
      /\ aqipm10_of pm10 = interpolate BIN_PM10 5 pm10
      /\ calcAQIpm10 pm10
         = int_of_f64 (trunc (f64_of_f32
             (f32_add
                (f32_mul
                   (f32_div (f32_sub (f32_lit 300 1) (f32_lit 200 1))
                            (f32_sub (f32_lit 424 1) (f32_lit 135 1)))
                   (f32_sub pm10 (f32_lit 135 1)))
                (f32_lit 200 1)))))
  /\ ~ nondecreasing calcAQIpm10
  /\ (calcAQIpm10 (f32_lit 254 1) = Some 150
      /\ calcAQIpm10 (f32_lit 300 1) = Some 257
      /\ calcAQIpm10 (f32_lit 604 1) = Some 500
      /\ calcAQIpm10 (f32_lit 605 1) = Some 0)
  /\ (forall (y : spec_float) (a b : Z),
        valid_binary prec32 emax32 pm10 = true ->
        valid_binary prec32 emax32 y = true ->
        f_le zero pm10 = true -> f_le pm10 y = true ->
        calcAQIpm10 pm10 = Some a -> calcAQIpm10 y = Some b ->
        (f_le y (at_ BIN_PM10 8) = true -> 0 <= a <= b)
        /\ (b < a -> f_gt y (at_ BIN_PM10 8) = true /\ b = 0)).
Proof.
  split; [repeat split; by_evaluation|].
  split; [apply in_segment_empty; by_evaluation|].
  split; [|split; [|split; [|split]]].
  - intros q Vpm Hq [Hlow Hhigh]. split.
    + apply (above_by_value pm10 _ q 254%Q); auto; by_evaluation.
    + apply (at_most_by_value pm10 _ q 424%Q); auto; by_evaluation.
  - intros Hgt Hle.
    pose proof (aqipm10_segment5 pm10 Hgt Hle) as Hseg.
    split; [|split].
    + now apply in_segment5.
    + exact Hseg.
    + unfold calcAQIpm10. rewrite Hseg. reflexivity.
  - intros Hmono.
    specialize (Hmono (f32_lit 604 1) (f32_lit 605 1) 500 0).
    assert (500 <= 0) by (apply Hmono; by_evaluation).
    lia.
  - repeat split; by_evaluation.
  - intros y a b Vx Vy H0 Hxy Ha Hb.
    split.
    { intros Htop.
      exact (calcAQIpm10_ordered _ _ _ _ Vx Vy H0 Hxy Htop Ha Hb). }
    intros Hdown.
    destruct (inside_or_outside BIN_PM10 y eq_refl)
      as [[Hnan|[Hneg|Hgt]]|[_ Htop]].
    + destruct y; try discriminate Hnan. destruct pm10; discriminate Hxy.
    + pose proof (f_le_trans _ _ _ H0 Hxy) as H0y.
      rewrite (f_lt_not_le y zero Hneg) in H0y. discriminate.
    + split; [exact Hgt|].
      unfold calcAQIpm10 in Hb.
      rewrite (aqipm10_outside y (or_intror (or_intror Hgt))) in Hb.
      vm_compute in Hb. congruence.
    + pose proof (calcAQIpm10_ordered _ _ _ _ Vx Vy H0 Hxy Htop Ha Hb). lia.
Qed.

Lemma calcAQIpm10_misordered_bin_witness :
  valid_binary prec32 emax32 (f32_lit 300 1) = true
  /\ value_is (f32_lit 300 1) 300
  /\ (254 < 300 /\ 300 <= 424)%Q
  /\ aqipm10_of (f32_lit 300 1) = interpolate BIN_PM10 5 (f32_lit 300 1)
  /\ calcAQIpm10 (f32_lit 300 1) = Some 257
  /\ (forall b, calcAQIpm10 (f32_lit 424 1) = Some b -> 0 <= 257 <= b).
Proof.
  assert (Vpm : valid_binary prec32 emax32 (f32_lit 300 1) = true)
    by (vm_compute; reflexivity).
  assert (Hq : value_is (f32_lit 300 1) 300) by (vm_compute; reflexivity).
  assert (Hin : (254 < 300 /\ 300 <= 424)%Q)
    by (split; vm_compute; [reflexivity|discriminate]).
  destruct (calcAQIpm10_misordered_bin (f32_lit 300 1))
    as (_ & _ & Hval & Hseg & _ & _ & Horder).
  destruct (Hval 300%Q Vpm Hq Hin) as [Hgt Hle].
  destruct (Hseg Hgt Hle) as (_ & Hof & Hcalc).
  assert (H257 : calcAQIpm10 (f32_lit 300 1) = Some 257)
    by (rewrite Hcalc; vm_compute; reflexivity).
  split; [exact Vpm|]. split; [exact Hq|]. split; [exact Hin|].
  split; [exact Hof|]. split; [exact H257|].
  intros b Hb.
  destruct (Horder (f32_lit 424 1) 257 b Vpm eq_refl eq_refl eq_refl H257 Hb)
    as [Hup _].
  apply Hup. reflexivity.
Defined.

(** C9, as the specification has it, fails: the misordered entry
    makes [calcAQIpm10] decrease nowhere in the table.  At the entry
    itself the result goes up, from 150 at 254 to 241 at the next
    [float]. *)
Lemma decreases_within_table_counterexample :
  ~ decreases_within_table
  /\ calcAQIpm10 (f32_lit 254 1) = Some 150
  /\ calcAQIpm10 (S754_finite false 16646145 (-16)) = Some 241.
Proof.
  split; [|split; vm_compute; reflexivity].
  intros (x & y & a & b & Vx & Vy & H0 & Hxy & Htop & Ha & Hb & Hdown).
  pose proof (calcAQIpm10_ordered x y a b Vx Vy H0 Hxy Htop Ha Hb). lia.
Qed.

(** ** At concrete inputs *)

Lemma calcAQIpm25_stays_in_its_band_witness :
  exists v, calcAQIpm25 (f32_lit 300 10) = Some v /\ 50 <= v <= 100.
Proof.
  destruct (calcAQIpm25_stays_in_its_band (f32_lit 300 10) eq_refl)
    as (v & Hv & _ & Hband).
  destruct (Hband 2%nat ltac:(lia) ltac:(vm_compute; reflexivity))
    as (a & b & Ha & Hb & Hab).
  vm_compute in Ha, Hb. injection Ha as <-. injection Hb as <-.
  exists v. split; [exact Hv|exact Hab].
Defined.

Lemma calcAQIpm10_skips_151_to_240_witness :
  exists v, calcAQIpm10 (f32_lit 300 1) = Some v /\ 241 <= v.
Proof.
  destruct (calcAQIpm10_skips_151_to_240 (f32_lit 300 1) eq_refl)
    as (v & Hv & _ & _ & _ & Hhigh).
  exists v. split; [exact Hv|].
  apply Hhigh; vm_compute; reflexivity.
Defined.

Lemma calcAQIpm25_never_decreases_witness :
  exists a b,
    calcAQIpm25 (f32_lit 10 1) = Some a
    /\ calcAQIpm25 (f32_lit 20 1) = Some b /\ 0 <= a <= b.
Proof.
  apply (calcAQIpm25_never_decreases (f32_lit 10 1) (f32_lit 20 1));
    vm_compute; reflexivity.
Defined.

Lemma calcAQIpm10_never_decreases_up_to_604_witness :
  exists a b,
    calcAQIpm10 (f32_lit 200 1) = Some a
    /\ calcAQIpm10 (f32_lit 300 1) = Some b /\ 0 <= a <= b.
Proof.
  apply (calcAQIpm10_never_decreases_up_to_604 (f32_lit 200 1)
           (f32_lit 300 1)); vm_compute; reflexivity.
Defined.

Lemma calcAQI_lower_tests_are_redundant_witness :
  calcAQIpm10 (f32_lit 300 1)
  = int_of_f64 (trunc (f64_of_f32
      (upper_chain BIN_PM10 [1; 2; 3; 5; 6; 7]%nat (f32_lit 300 1)))).
Proof.
  apply (calcAQI_lower_tests_are_redundant (f32_lit 300 1)).
  vm_compute. reflexivity.
Defined.

End AqiOrderFacts.

(* ===================================================================== *)
(** * The normalisation of a captured sample *)
(* ===================================================================== *)

Module NormalizeFacts.
Import Ieee RoundingFacts MusicLeds.

Lemma digits2_pos_shl_eq (m : positive) (d : positive) (k : nat) :
  Z.pos (digits2_pos m) + Z.of_nat k = Z.pos d -> digits2_pos (shl m k) = d.
Proof.
  intros Hk. apply Pos2Z.inj. now rewrite digits2_pos_shl.
Qed.

(** The double quotient and the stored float of a non-zero sample of
    magnitude [m], in closed form. *)
Lemma normalize_nonzero (s : bool) (m : positive) :
  Z.pos m <= 32768 ->
  f64_div (f64_of_int (cond_Zopp s (Z.pos m))) (f64_lit 32768 1)
  = S754_finite s (shl m (Z.to_nat (53 - Z.pos (digits2_pos m))))
      (Z.pos (digits2_pos m) - 68)
  /\ normalize (cond_Zopp s (Z.pos m))
     = S754_finite s (shl m (Z.to_nat (24 - Z.pos (digits2_pos m))))
         (Z.pos (digits2_pos m) - 39).
Proof.
  intros Hm. pose proof (digits2_pos_int16 m Hm) as Hd.
  assert (Hdiv : f64_div (f64_of_int (cond_Zopp s (Z.pos m))) (f64_lit 32768 1)
                 = S754_finite s (shl m (Z.to_nat (53 - Z.pos (digits2_pos m))))
                     (Z.pos (digits2_pos m) - 68)).
  { rewrite f64_of_int_exact by lia.
    rewrite f64_div_32768_exact.
    - f_equal. lia.
    - apply digits2_pos_shl_eq. lia.
    - lia. }
  split; [exact Hdiv|].
  unfold normalize. rewrite Hdiv.
  replace (Z.to_nat (53 - Z.pos (digits2_pos m)))
    with (29 + Z.to_nat (24 - Z.pos (digits2_pos m)))%nat by lia.
  rewrite <- shl_add, f32_of_f64_exact.
  - f_equal. lia.
  - apply digits2_pos_shl_eq. lia.
  - lia.
Qed.

Lemma value_is_scaled (s : bool) (m : positive) (k : nat) (e : Z) :
  Z.of_nat k + e = -15 ->
  value_is (S754_finite s (shl m k) e) (cond_Zopp s (Z.pos m) # 32768).
Proof.
  intros Hke. unfold value_is, SF2Q.
  assert (Hm : (inject_Z (cond_Zopp s (Z.pos (shl m k)))
                == inject_Z (cond_Zopp s (Z.pos m)) * Qpower 2 (Z.of_nat k))%Q).
  { rewrite shl_value. change 2%Q with (inject_Z 2).
    rewrite <- Zpower_Qpower, <- inject_Z_mult by lia.
    destruct s; simpl cond_Zopp; [rewrite Z.mul_opp_l|]; reflexivity. }
  rewrite Hm, <- Qmult_assoc, <- Qpower_plus, Hke by discriminate.
  change (Qpower 2 (-15)) with (1 # 32768)%Q.
  unfold Qeq, Qmult, inject_Z. simpl Qnum. simpl Qden. lia.
Qed.

Lemma int16_magnitude (raw : Z) :
  -32768 <= raw <= 32767 -> raw <> 0 ->
  exists s m, raw = cond_Zopp s (Z.pos m) /\ Z.pos m <= 32768.
Proof.
  intros Hr Hnz. destruct raw as [|p|p]; [congruence| |].
  - exists false, p. simpl. lia.
  - exists true, p. simpl. lia.
Qed.

(** ** The quotient is exact *)

(** For a 16-bit [raw] the [double] quotient [raw / 32768.0] has
    exactly the value [raw/32768], and rounding it to [float] changes
    nothing: the result is a valid [float] of that value, in
    [[-1, 1]]; -32768 gives -1.0 and 32767 gives 32767/32768. *)
Lemma normalize_exact (raw : Z) :
  -32768 <= raw <= 32767 ->
  value_is (f64_div (f64_of_int raw) (f64_lit 32768 1)) (raw # 32768)
  /\ value_is (normalize raw) (raw # 32768)
  /\ valid_binary prec32 emax32 (normalize raw) = true
  /\ (forall q : Q, value_is (normalize raw) q -> (-1 <= q <= 1)%Q)
  /\ normalize (-32768) = f32_lit (-1) 1
  /\ normalize 32767 = S754_finite false 16776704 (-24)
  /\ value_is (normalize 32767) (32767 # 32768).
Proof.
  intros Hr.
  assert (Hval : value_is (f64_div (f64_of_int raw) (f64_lit 32768 1))
                   (raw # 32768)
                 /\ value_is (normalize raw) (raw # 32768)
                 /\ valid_binary prec32 emax32 (normalize raw) = true).
  { destruct (Z.eq_dec raw 0) as [->|Hnz].
    - repeat split; vm_compute; reflexivity.
    - destruct (int16_magnitude raw Hr Hnz) as (s & m & -> & Hm).
      destruct (normalize_nonzero s m Hm) as [-> ->].
      pose proof (digits2_pos_int16 m Hm) as Hd.
      split; [apply value_is_scaled; lia|].
      split; [apply value_is_scaled; lia|].
      unfold valid_binary, bounded, canonical_mantissa.
      rewrite digits2_pos_shl.
      apply andb_true_iff. split; [apply Z.eqb_eq|apply Z.leb_le];
        unfold fexp, emin, prec32, emax32; lia. }
  destruct Hval as (Hdouble & Hfloat & Hvalid).
  split; [exact Hdouble|]. split; [exact Hfloat|]. split; [exact Hvalid|].
  split.
  - intros q Hq. unfold value_is in *.
    destruct (SF2Q (normalize raw)) as [v|]; [|contradiction].
    rewrite <- Hq, Hfloat. unfold Qle. simpl. lia.
  - split; [vm_compute; reflexivity|].
    split; vm_compute; reflexivity.
Qed.

(** The stored float of any 16-bit sample. *)
Lemma normalize_value (raw : Z) :
  -32768 <= raw <= 32767 ->
  value_is (normalize raw) (raw # 32768)
  /\ valid_binary prec32 emax32 (normalize raw) = true.
Proof.
  intros Hr. destruct (Z.eq_dec raw 0) as [->|Hnz].
  - split; vm_compute; reflexivity.
  - destruct (int16_magnitude raw Hr Hnz) as (sg & m & -> & Hm).
    destruct (normalize_nonzero sg m Hm) as [_ ->].
    pose proof (digits2_pos_int16 m Hm) as Hd.
    split; [apply value_is_scaled; lia|].
    unfold valid_binary, bounded, canonical_mantissa.
    rewrite digits2_pos_shl.
    apply andb_true_iff. split; [apply Z.eqb_eq|apply Z.leb_le];
      unfold fexp, emin, prec32, emax32; lia.
Qed.

End NormalizeFacts.

(* ===================================================================== *)
(** * The frame driver *)
(* ===================================================================== *)

Module MusicLedsFacts.
Import Ieee MusicLeds NormalizeFacts.

#[local] Arguments normalize : simpl never.

(** ** Checked accesses at indices known to be inside the array *)
Section Arrays.
Context {A : Type}.
Implicit Types (a : list A) (i n : nat).

Lemma arr_get_nat a i : arr_get a (Z.of_nat i) = a !! i.
Proof.
  unfold arr_get. replace (0 <=? Z.of_nat i) with true
    by (symmetry; apply Z.leb_le; lia).
  now rewrite Nat2Z.id.
Qed.

Lemma arr_set_nat a i x :
  (i < length a)%nat -> arr_set a (Z.of_nat i) x = Some (<[i := x]> a).
Proof.
  intros Hi. unfold arr_set, len.
  replace (0 <=? Z.of_nat i) with true by (symmetry; apply Z.leb_le; lia).
  replace (Z.of_nat i <? Z.of_nat (length a)) with true
    by (symmetry; apply Z.ltb_lt; lia).
  simpl. now rewrite Nat2Z.id.
Qed.

(** The [memcpy] of window [i + 1] onto window [i]. *)
Lemma memcpy_window a (w i : nat) :
  ((i + 2) * w <= length a)%nat ->
  memcpy a (Z.of_nat i * Z.of_nat w) ((Z.of_nat i + 1) * Z.of_nat w)
         (Z.of_nat w)
  = Some (take (i * w) a ++ take w (drop ((i + 1) * w) a)
          ++ drop ((i + 1) * w) a).
Proof.
  intros Hlen. unfold memcpy, len.
  replace (_ && _ && _ && _ && _ && _) with true.
  - replace (Z.to_nat (Z.of_nat i * Z.of_nat w)) with (i * w)%nat by lia.
    replace (Z.to_nat ((Z.of_nat i + 1) * Z.of_nat w))
      with ((i + 1) * w)%nat by lia.
    replace (Z.to_nat (Z.of_nat i * Z.of_nat w + Z.of_nat w))
      with ((i + 1) * w)%nat by lia.
    now rewrite Nat2Z.id.
  - symmetry. rewrite !andb_true_iff, orb_true_iff, !Z.leb_le. lia.
Qed.
End Arrays.

Section Frame.
Context `{H : Header} `{C : Collaborators}.
Implicit Types (s : Machine) (i n : nat).

(** ** Bookkeeping on machine states *)
Lemma ops_emit o s : ops (emit o s) = ops s ++ [o].
Proof. reflexivity. Qed.

Lemma ops_set_periph d s : ops (set_periph d s) = ops s.
Proof. reflexivity. Qed.

Lemma periph_emit o s : periph (emit o s) = periph s.
Proof. reflexivity. Qed.

Lemma periph_set_periph d s : periph (set_periph d s) = d.
Proof. reflexivity. Qed.

Lemma this_emit o s : this (emit o s) = this s.
Proof. reflexivity. Qed.

Lemma this_set_periph d s : this (set_periph d s) = this s.
Proof. reflexivity. Qed.

Lemma statics_emit o s : statics (emit o s) = statics s.
Proof. reflexivity. Qed.

Lemma statics_set_periph d s : statics (set_periph d s) = statics s.
Proof. reflexivity. Qed.

Lemma p_it_emit o s : p_it (emit o s) = p_it s.
Proof. reflexivity. Qed.

Lemma p_it_set_periph d s : p_it (set_periph d s) = p_it s.
Proof. reflexivity. Qed.

Create Rewrite HintDb machine.
#[local] Hint Rewrite ops_emit ops_set_periph periph_emit periph_set_periph
  this_emit this_set_periph statics_emit statics_set_periph
  p_it_emit p_it_set_periph : machine.

Lemma machine_eta s :
  mkMachine (statics s) (periph s) (this s) (p_it s) (ops s) = s.
Proof. now destruct s. Qed.

Lemma emits_nil s : emits [] s = s.
Proof. unfold emits. rewrite app_nil_r. apply machine_eta. Qed.

Lemma set_p_it_id s : set_p_it (p_it s) s = s.
Proof. apply machine_eta. Qed.

Lemma set_y_data_id s : set_y_data (y_data (this s)) s = s.
Proof. destruct s as [g d [] l o]. reflexivity. Qed.

(** ** The copy into the light buffer (lines 80-87) *)
Lemma copy_from n : forall i s,
  (i + n <= length (p_it s))%nat ->
  (i + n <= length (physic_leds (this s)))%nat ->
  for_from n (Z.of_nat i) copy_step s
  = Some (emits (write_ops (Z.of_nat i)
                   (take n (drop i (physic_leds (this s)))))
            (set_p_it (take i (p_it s)
                       ++ map to_color (take n (drop i (physic_leds (this s))))
                       ++ drop (i + n) (p_it s)) s)).
Proof.
  induction n as [|n IH]; intros i s Hl Hp.
  - simpl. rewrite Nat.add_0_r, take_drop, set_p_it_id, emits_nil. reflexivity.
  - destruct (lookup_lt_is_Some_2 (physic_leds (this s)) i) as [p Hpi]; [lia|].
    assert (Hstep : copy_step (Z.of_nat i) s
                    = Some (emit (OpLightWrite (Z.of_nat i) (to_color p))
                              (set_p_it (<[i := to_color p]> (p_it s)) s))).
    { unfold copy_step. rewrite arr_get_nat, Hpi. simpl.
      now rewrite arr_set_nat by lia. }
    change (for_from (S n) (Z.of_nat i) copy_step s)
      with (copy_step (Z.of_nat i) s ≫= for_from n (Z.of_nat i + 1) copy_step).
    rewrite Hstep. simpl mbind. unfold option_bind.
    replace (Z.of_nat i + 1) with (Z.of_nat (S i)) by lia.
    rewrite IH by (simpl; rewrite ?length_insert; lia).
    rewrite (drop_S _ _ _ Hpi).
    unfold emits, emit, set_p_it. simpl.
    do 2 f_equal.
    + rewrite (take_S_r _ _ (to_color p))
        by (apply list_lookup_insert_eq; lia).
      rewrite take_insert_ge, drop_insert_lt, <- app_assoc by lia.
      simpl. repeat f_equal. lia.
    + rewrite <- app_assoc. simpl. repeat f_equal. lia.
Qed.

Lemma copy_out_copied s :
  (length (p_it s) <= length (physic_leds (this s)))%nat ->
  copy_out s = Some (copied s).
Proof.
  intros Hl. unfold copy_out, for_lt, len. rewrite Nat2Z.id.
  change 0 with (Z.of_nat 0) at 1. rewrite copy_from by (simpl; lia).
  unfold copied. simpl. rewrite drop_0, drop_all, app_nil_r. reflexivity.
Qed.

(** ** The normalising loop (lines 58-65) *)
Lemma statics_eta (g : Statics) :
  mkStatics (mel_data g) (bytes_read g) (ii g) = g.
Proof. now destruct g. Qed.

Lemma ingest_step_eq CurrentMode (buf : list Z) (base : nat) i s raw :
  BUFFER_SIZE * (N_ROLLING_HISTORY - 1) = Z.of_nat base ->
  SAMPLE_RATE <> 0 ->
  buf !! i = Some raw ->
  (base + i < length (y_data (this s)))%nat ->
  ii (statics s) + 1 <= INT_MAX ->
  ingest_step CurrentMode buf (Z.of_nat i) s
  = Some (emits (if Z.rem (ii (statics s) + 1) SAMPLE_RATE =? 0
                 then [OpLogD CurrentMode (ii (statics s) + 1)] else [])
            (set_statics
               (mkStatics (mel_data (statics s)) (bytes_read (statics s))
                  (ii (statics s) + 1))
               (emit (OpStoreSample (Z.of_nat (base + i)) (normalize raw))
                  (set_y_data
                     (<[(base + i)%nat := normalize raw]> (y_data (this s)))
                     s)))).
Proof.
  intros Hbase Hrate Hraw Hy Hii. unfold ingest_step.
  rewrite arr_get_nat, Hraw, Hbase. simpl mbind. unfold option_bind.
  replace (Z.of_nat base + Z.of_nat i) with (Z.of_nat (base + i)) by lia.
  rewrite arr_set_nat by lia.
  cbn [statics emit set_y_data].
  apply Z.leb_le in Hii. rewrite Hii.
  apply Z.eqb_neq in Hrate. rewrite Hrate.
  destruct (Z.rem (ii (statics s) + 1) SAMPLE_RATE =? 0).
  - reflexivity.
  - now rewrite emits_nil.
Qed.

Lemma ingest_from CurrentMode (buf : list Z) (base : nat) n : forall i s,
  BUFFER_SIZE * (N_ROLLING_HISTORY - 1) = Z.of_nat base ->
  SAMPLE_RATE <> 0 ->
  (i + n <= length buf)%nat ->
  (base + i + n <= length (y_data (this s)))%nat ->
  ii (statics s) + Z.of_nat n <= INT_MAX ->
  for_from n (Z.of_nat i) (ingest_step CurrentMode buf) s
  = Some (emits (window_ops CurrentMode (Z.of_nat (base + i)) (ii (statics s))
                   (take n (drop i buf)))
            (set_statics
               (mkStatics (mel_data (statics s)) (bytes_read (statics s))
                  (ii (statics s) + Z.of_nat n))
               (set_y_data
                  (take (base + i) (y_data (this s))
                   ++ map normalize (take n (drop i buf))
                   ++ drop (base + i + n) (y_data (this s))) s))).
Proof.
  induction n as [|n IH]; intros i s Hbase Hrate Hbuf Hy Hii.
  - simpl. rewrite Nat.add_0_r, Z.add_0_r, take_drop, statics_eta.
    rewrite set_y_data_id. unfold set_statics.
    now rewrite machine_eta, emits_nil.
  - destruct (lookup_lt_is_Some_2 buf i) as [raw Hraw]; [lia|].
    change (for_from (S n) (Z.of_nat i) (ingest_step CurrentMode buf) s)
      with (ingest_step CurrentMode buf (Z.of_nat i) s
            ≫= for_from n (Z.of_nat i + 1) (ingest_step CurrentMode buf)).
    rewrite (ingest_step_eq CurrentMode buf base i s raw) by (auto; lia).
    simpl mbind. unfold option_bind.
    replace (Z.of_nat i + 1) with (Z.of_nat (S i)) by lia.
    rewrite IH; auto;
      try (cbn [emits set_statics emit set_y_data this statics y_data ii];
           rewrite ?length_insert; lia).
    rewrite (drop_S _ _ _ Hraw).
    unfold emits, set_statics, emit, set_y_data.
    cbn [this statics y_data ii mel_data bytes_read periph p_it ops
         n_pixels_ pin_config i2s_config fft effect physic_leds
         take map window_ops].
    do 2 f_equal.
    + f_equal. lia.
    + f_equal.
      replace (base + S i)%nat with (S (base + i)) by lia.
      rewrite (take_S_r _ _ (normalize raw))
        by (apply list_lookup_insert_eq; lia).
      rewrite take_insert_ge, drop_insert_lt, <- app_assoc by lia.
      simpl app. repeat f_equal. lia.
    + rewrite <- !app_assoc. simpl app. f_equal. f_equal.
      replace (Z.of_nat (base + i) + 1) with (Z.of_nat (base + S i)) by lia.
      reflexivity.
Qed.

Lemma window_Z : 0 <= BUFFER_SIZE -> Z.of_nat window = BUFFER_SIZE.
Proof. unfold window. lia. Qed.

Lemma depth_Z : 1 <= N_ROLLING_HISTORY -> Z.of_nat depth = N_ROLLING_HISTORY.
Proof. unfold depth. lia. Qed.

Lemma depth_pred :
  1 <= N_ROLLING_HISTORY ->
  ((depth - 1) * window + window = depth * window)%nat.
Proof.
  intros HD. assert (Hd : depth = S (depth - 1)) by (unfold depth; lia).
  rewrite Hd at 2. simpl. lia.
Qed.

Lemma base_Z :
  0 <= BUFFER_SIZE -> 1 <= N_ROLLING_HISTORY ->
  BUFFER_SIZE * (N_ROLLING_HISTORY - 1) = Z.of_nat ((depth - 1) * window).
Proof.
  intros HW HD. rewrite Nat2Z.inj_mul, window_Z by assumption.
  replace (Z.of_nat (depth - 1)) with (N_ROLLING_HISTORY - 1)
    by (unfold depth; lia).
  lia.
Qed.

Lemma ingest_ingested CurrentMode (buf : list Z) s :
  0 <= BUFFER_SIZE -> 1 <= N_ROLLING_HISTORY -> SAMPLE_RATE <> 0 ->
  length buf = window ->
  length (y_data (this s)) = (depth * window)%nat ->
  ii (statics s) + BUFFER_SIZE <= INT_MAX ->
  ingest CurrentMode buf s = Some (ingested CurrentMode buf s).
Proof.
  intros HW HD Hrate Hbuf Hy Hii. unfold ingest, for_lt. fold window.
  pose proof (base_Z HW HD) as Hbase.
  pose proof (depth_pred HD) as Hsplit.
  pose proof (window_Z HW) as HwZ.
  change 0 with (Z.of_nat 0) at 1.
  rewrite (ingest_from CurrentMode buf ((depth - 1) * window)); auto;
    try lia.
  unfold ingested, len.
  rewrite drop_0, Nat.add_0_r, (take_ge buf) by lia.
  rewrite drop_ge, app_nil_r by lia.
  rewrite Hbase, Hbuf. reflexivity.
Qed.

(** ** The shift of the sample history (lines 49-53) *)
Lemma drop_past_prefix {A : Type} (P y : list A) (p k : nat) :
  length P = p -> (p <= k)%nat -> drop k (P ++ drop p y) = drop k y.
Proof.
  intros HP Hk. rewrite drop_app_ge, drop_drop by lia.
  f_equal. lia.
Qed.

Lemma shift_step_eq i s :
  0 <= BUFFER_SIZE ->
  ((i + 2) * window <= length (y_data (this s)))%nat ->
  shift_step (Z.of_nat i) s
  = Some (emit (memcpy_op i)
            (set_y_data
               (take (i * window) (y_data (this s))
                ++ take window (drop ((i + 1) * window) (y_data (this s)))
                ++ drop ((i + 1) * window) (y_data (this s))) s)).
Proof.
  intros HW Hlen. unfold shift_step, memcpy_op.
  assert (Hcopy : memcpy (y_data (this s)) (Z.of_nat i * BUFFER_SIZE)
                    ((Z.of_nat i + 1) * BUFFER_SIZE) BUFFER_SIZE
                  = Some (take (i * window) (y_data (this s))
                          ++ take window
                               (drop ((i + 1) * window) (y_data (this s)))
                          ++ drop ((i + 1) * window) (y_data (this s)))).
  { rewrite <- (window_Z HW). apply memcpy_window. exact Hlen. }
  now rewrite Hcopy.
Qed.

Lemma shift_from n : forall i s,
  0 <= BUFFER_SIZE ->
  ((i + n + 1) * window <= length (y_data (this s)))%nat ->
  for_from n (Z.of_nat i) shift_step s
  = Some (emits (map memcpy_op (seq i n))
            (set_y_data
               (take (i * window) (y_data (this s))
                ++ take (n * window)
                     (drop ((i + 1) * window) (y_data (this s)))
                ++ drop ((i + n) * window) (y_data (this s))) s)).
Proof.
  induction n as [|n IH]; intros i s HW Hlen.
  - simpl. rewrite Nat.add_0_r, take_drop, set_y_data_id, emits_nil.
    reflexivity.
  - change (for_from (S n) (Z.of_nat i) shift_step s)
      with (shift_step (Z.of_nat i) s
            ≫= for_from n (Z.of_nat i + 1) shift_step).
    rewrite shift_step_eq by (auto; lia).
    simpl mbind. unfold option_bind.
    replace (Z.of_nat i + 1) with (Z.of_nat (S i)) by lia.
    set (y := y_data (this s)) in *.
    set (y1 := take (i * window) y ++ take window (drop ((i + 1) * window) y)
               ++ drop ((i + 1) * window) y).
    assert (HA : length (take (i * window) y
                         ++ take window (drop ((i + 1) * window) y))
                 = ((i + 1) * window)%nat).
    { rewrite length_app, !length_take, length_drop. lia. }
    assert (Hy1 : length y1 = length y).
    { unfold y1. rewrite app_assoc, length_app, HA, length_drop. lia. }
    rewrite IH; auto;
      try (unfold emit, set_y_data; cbn [this y_data]; fold y1; lia).
    unfold emits, emit, set_y_data.
    cbn [this statics y_data periph p_it ops n_pixels_ pin_config
         i2s_config fft effect physic_leds seq map].
    fold y1. do 2 f_equal.
    + f_equal.
      assert (Htake : take (S i * window) y1
                      = take (i * window) y
                        ++ take window (drop ((i + 1) * window) y)).
      { unfold y1. rewrite app_assoc. apply take_app_length'. lia. }
      assert (Hdrop : forall k, ((i + 1) * window <= k)%nat ->
                                drop k y1 = drop k y).
      { intros k Hk. unfold y1. rewrite app_assoc.
        now apply drop_past_prefix. }
      rewrite Htake, !Hdrop by lia.
      rewrite <- app_assoc. f_equal.
      replace (S n * window)%nat with (window + n * window)%nat by lia.
      rewrite <- take_take_drop, drop_drop, <- app_assoc.
      replace ((S i + 1) * window)%nat
        with ((i + 1) * window + window)%nat by lia.
      replace ((S i + n) * window)%nat with ((i + S n) * window)%nat by lia.
      reflexivity.
    + now rewrite <- app_assoc.
Qed.

Lemma shift_history_shifted s :
  0 <= BUFFER_SIZE -> 1 <= N_ROLLING_HISTORY ->
  length (y_data (this s)) = (depth * window)%nat ->
  shift_history s = Some (shifted s).
Proof.
  intros HW HD Hy. unfold shift_history, for_lt.
  replace (Z.to_nat (N_ROLLING_HISTORY - 1)) with (depth - 1)%nat
    by (unfold depth; lia).
  pose proof (depth_pred HD) as Hsplit.
  change 0 with (Z.of_nat 0) at 1.
  rewrite shift_from;
    [|assumption
     |rewrite Hy;
      replace (0 + (depth - 1) + 1)%nat with depth by (unfold depth; lia);
      lia].
  unfold shifted.
  replace ((0 + 1) * window)%nat with window by lia.
  replace (0 + (depth - 1))%nat with (depth - 1)%nat by lia.
  change (0 * window)%nat with 0%nat. rewrite take_0, app_nil_l.
  rewrite take_ge; [reflexivity|].
  rewrite length_drop, Hy, <- Hsplit.
  generalize ((depth - 1) * window)%nat. intros; lia.
Qed.

Lemma length_shifted s :
  1 <= N_ROLLING_HISTORY ->
  length (y_data (this s)) = (depth * window)%nat ->
  length (y_data (this (shifted s))) = (depth * window)%nat.
Proof.
  intros HD Hy. pose proof (depth_pred HD) as Hsplit.
  unfold shifted, emits, set_y_data. cbn [this y_data].
  rewrite length_app, !length_drop. lia.
Qed.

(** ** The captured window *)
Lemma length_fill (buf data : list Z) : length (fill buf data) = length buf.
Proof.
  unfold fill. rewrite length_take, length_app, length_drop. lia.
Qed.

Lemma length_captured s : 0 <= BUFFER_SIZE -> length (captured s) = window.
Proof.
  intros HW. unfold captured, capture.
  destruct (i2s_read _ _ _ _) as [dev delivered]. simpl.
  now rewrite length_fill, length_replicate.
Qed.

Lemma capture_frame s :
  this (capture s).1 = this s /\ p_it (capture s).1 = p_it s
  /\ ii (statics (capture s).1) = ii (statics s)
  /\ mel_data (statics (capture s).1) = mel_data (statics s)
  /\ ops (capture s).1
     = ops s ++ [OpI2sRead MLED_I2S_NUM (BUFFER_SIZE * 2) portMAX_DELAY].
Proof.
  unfold capture. destruct (i2s_read _ _ _ _) as [dev delivered].
  repeat split.
Qed.

(** ** The switch (lines 68-78) *)
Lemma dispatch_frame CurrentMode s :
  statics (dispatch CurrentMode s) = statics s
  /\ periph (dispatch CurrentMode s) = periph s
  /\ p_it (dispatch CurrentMode s) = p_it s
  /\ y_data (this (dispatch CurrentMode s)) = y_data (this s)
  /\ ops (dispatch CurrentMode s)
     = ops s ++ visualize_op CurrentMode (mel_data (statics s)).
Proof.
  unfold dispatch, visualize_op.
  destruct (CurrentMode =? MODE_SCROLL);
    [|destruct (CurrentMode =? MODE_ENERGY);
      [|destruct (CurrentMode =? MODE_SPECTRUM)]];
    cbn [statics periph p_it this y_data ops emit set_effect_leds];
    rewrite ?app_nil_r; repeat split.
Qed.

Lemma dispatch_size CurrentMode `{!ArraysKeepSize C} : size_kept CurrentMode.
Proof.
  intros s. unfold dispatch.
  destruct (CurrentMode =? MODE_SCROLL);
    [|destruct (CurrentMode =? MODE_ENERGY);
      [|destruct (CurrentMode =? MODE_SPECTRUM)]];
    cbn [this physic_leds emit set_effect_leds];
    rewrite ?visualize_scroll_size, ?visualize_energy_size,
      ?visualize_spectrum_size; reflexivity.
Qed.

Lemma dispatch_unrecognized CurrentMode s :
  ~ recognized CurrentMode -> dispatch CurrentMode s = s.
Proof.
  intros Hno. unfold dispatch, recognized in *.
  destruct (Z.eqb_spec CurrentMode MODE_SCROLL); [tauto|].
  destruct (Z.eqb_spec CurrentMode MODE_ENERGY); [tauto|].
  destruct (Z.eqb_spec CurrentMode MODE_SPECTRUM); [tauto|].
  reflexivity.
Qed.

Lemma transform_frame s :
  periph (transform s) = periph s /\ p_it (transform s) = p_it s
  /\ y_data (this (transform s)) = y_data (this s)
  /\ physic_leds (this (transform s)) = physic_leds (this s)
  /\ effect (this (transform s)) = effect (this s)
  /\ ii (statics (transform s)) = ii (statics s)
  /\ mel_data (statics (transform s))
     = (t2mel (fft (this s)) (y_data (this s)) (mel_data (statics s))).2
  /\ ops (transform s) = ops s ++ [OpT2mel (y_data (this s))].
Proof.
  unfold transform. destruct (t2mel _ _ _) as [f mel]. repeat split.
Qed.

(** ** The whole frame *)
Lemma ready_sizes s :
  ready s ->
  length (y_data (this s)) = (depth * window)%nat.
Proof.
  intros (HW & HD & _ & Hy & _). unfold len in Hy.
  apply Nat2Z.inj. rewrite Hy, Nat2Z.inj_mul, window_Z, depth_Z by assumption.
  lia.
Qed.

Lemma ShowFrame_runs_if CurrentMode s :
  size_kept CurrentMode -> ready s ->
  ShowFrame CurrentMode s = Some (ShowFrame_result CurrentMode s).
Proof.
  intros Hsize Hready. pose proof (ready_sizes s Hready) as Hy.
  destruct Hready as (HW & HD & Hrate & _ & Hii & Hlight).
  unfold ShowFrame, ShowFrame_result.
  rewrite shift_history_shifted by assumption.
  simpl mbind. unfold option_bind.
  pose proof (capture_frame (shifted s)) as (Hthis & Hpit & Hcnt & _ & _).
  pose proof (length_captured (shifted s) HW) as Hbuf. unfold captured in Hbuf.
  destruct (capture (shifted s)) as [s2 buf]. simpl in *.
  rewrite ingest_ingested; auto.
  - simpl mbind. unfold option_bind. apply copy_out_copied.
    rewrite Hsize.
    destruct (dispatch_frame CurrentMode
                (transform (ingested CurrentMode buf s2)))
      as (_ & _ & -> & _).
    destruct (transform_frame (ingested CurrentMode buf s2))
      as (_ & -> & _ & -> & _).
    unfold ingested, emits, set_statics, set_y_data. cbn [p_it this physic_leds].
    rewrite Hpit, Hthis. unfold len in Hlight. simpl. lia.
  - rewrite Hthis. now apply length_shifted.
  - rewrite Hcnt. exact Hii.
Qed.

Lemma ShowFrame_runs CurrentMode s `{!ArraysKeepSize C} :
  ready s -> ShowFrame CurrentMode s = Some (ShowFrame_result CurrentMode s).
Proof. apply ShowFrame_runs_if, dispatch_size; assumption. Qed.

Lemma unrecognized_size_kept CurrentMode :
  ~ recognized CurrentMode -> size_kept CurrentMode.
Proof. intros Hno s. now rewrite dispatch_unrecognized. Qed.

(** ** What a frame leaves behind *)
Lemma captured_eq s :
  captured s
  = fill (replicate (Z.to_nat BUFFER_SIZE) 0)
      (map int16_t
         (i2s_read MLED_I2S_NUM (BUFFER_SIZE * 2) portMAX_DELAY (periph s)).2).
Proof.
  unfold captured, capture. now destruct (i2s_read _ _ _ _).
Qed.

Lemma captured_shifted s : captured (shifted s) = captured s.
Proof.
  unfold captured, capture, shifted, emits, set_y_data. cbn [periph].
  now destruct (i2s_read _ _ _ _).
Qed.

Lemma copied_frame s :
  statics (copied s) = statics s /\ periph (copied s) = periph s
  /\ this (copied s) = this s
  /\ p_it (copied s)
     = map to_color (take (length (p_it s)) (physic_leds (this s)))
  /\ ops (copied s)
     = ops s ++ write_ops 0 (take (length (p_it s)) (physic_leds (this s))).
Proof. repeat split. Qed.

Lemma ShowFrame_result_eq CurrentMode s :
  ShowFrame_result CurrentMode s
  = copied (dispatch CurrentMode (transform (after_ingest CurrentMode s))).
Proof.
  unfold ShowFrame_result, after_ingest. rewrite <- captured_shifted.
  unfold captured. now destruct (capture (shifted s)).
Qed.

Lemma after_ingest_y_data CurrentMode s :
  1 <= N_ROLLING_HISTORY ->
  length (y_data (this s)) = (depth * window)%nat ->
  y_data (this (after_ingest CurrentMode s))
  = drop window (y_data (this s)) ++ map normalize (captured s).
Proof.
  intros HD Hy. pose proof (depth_pred HD) as Hsplit.
  unfold after_ingest, ingested, emits, set_statics, set_y_data.
  cbn [this y_data].
  destruct (capture_frame (shifted s)) as (-> & _).
  unfold shifted, emits, set_y_data. cbn [this y_data].
  rewrite take_app_length'; [reflexivity|].
  rewrite length_drop, Hy, <- Hsplit.
  generalize ((depth - 1) * window)%nat. intros; lia.
Qed.

Lemma after_ingest_frame CurrentMode s :
  p_it (after_ingest CurrentMode s) = p_it s
  /\ physic_leds (this (after_ingest CurrentMode s)) = physic_leds (this s)
  /\ effect (this (after_ingest CurrentMode s)) = effect (this s)
  /\ fft (this (after_ingest CurrentMode s)) = fft (this s)
  /\ mel_data (statics (after_ingest CurrentMode s)) = mel_data (statics s)
  /\ ii (statics (after_ingest CurrentMode s))
     = ii (statics s) + len (captured s)
  /\ ops (after_ingest CurrentMode s)
     = ops s ++ map memcpy_op (seq 0 (depth - 1))
       ++ [OpI2sRead MLED_I2S_NUM (BUFFER_SIZE * 2) portMAX_DELAY]
       ++ window_ops CurrentMode (BUFFER_SIZE * (N_ROLLING_HISTORY - 1))
            (ii (statics s)) (captured s).
Proof.
  unfold after_ingest, ingested, emits, set_statics, set_y_data.
  cbn [this p_it physic_leds effect fft statics ii mel_data ops].
  destruct (capture_frame (shifted s)) as (-> & -> & -> & -> & ->).
  unfold shifted, emits, set_y_data.
  cbn [this p_it physic_leds effect fft statics ii mel_data ops].
  rewrite <- !app_assoc. repeat split.
Qed.

(** The state in which a frame ends, component by component. *)
Lemma ShowFrame_result_frame CurrentMode s :
  1 <= N_ROLLING_HISTORY ->
  length (y_data (this s)) = (depth * window)%nat ->
  let s' := ShowFrame_result CurrentMode s in
  y_data (this s')
  = drop window (y_data (this s)) ++ map normalize (captured s)
  /\ ii (statics s') = ii (statics s) + len (captured s)
  /\ p_it s'
     = map to_color (take (length (p_it s)) (physic_leds (this s')))
  /\ ops s'
     = ops s ++ map memcpy_op (seq 0 (depth - 1))
       ++ [OpI2sRead MLED_I2S_NUM (BUFFER_SIZE * 2) portMAX_DELAY]
       ++ window_ops CurrentMode (BUFFER_SIZE * (N_ROLLING_HISTORY - 1))
            (ii (statics s)) (captured s)
       ++ [OpT2mel (y_data (this s'))]
       ++ visualize_op CurrentMode (mel_data (statics s'))
       ++ write_ops 0 (take (length (p_it s)) (physic_leds (this s'))).
Proof.
  intros HD Hy s'. subst s'. rewrite ShowFrame_result_eq.
  set (s3 := after_ingest CurrentMode s).
  destruct (copied_frame (dispatch CurrentMode (transform s3)))
    as (Hst & _ & Hthis & Hpit & Hops).
  destruct (dispatch_frame CurrentMode (transform s3))
    as (Hdst & _ & Hdpit & Hdy & Hdops).
  destruct (transform_frame s3)
    as (_ & Htpit & Hty & _ & _ & Htii & _ & Htops).
  destruct (after_ingest_frame CurrentMode s)
    as (Hipit & _ & _ & _ & _ & Hiii & Hiops). fold s3 in Hipit, Hiii, Hiops.
  rewrite Hthis, Hst, Hdst, Hdy, Hty, Htii, Hiii.
  split; [now apply after_ingest_y_data|].
  split; [reflexivity|].
  rewrite Hpit, Hops, Hdpit, Htpit, Hipit, Hdops, Htops, Hiops.
  split; [reflexivity|].
  rewrite <- !app_assoc. reflexivity.
Qed.

(** ** Kinds of operations in the record of a frame *)
Lemma count_app kind (l1 l2 : list Op) :
  count kind (l1 ++ l2) = (count kind l1 + count kind l2)%nat.
Proof. unfold count. now rewrite filter_app, length_app. Qed.

Lemma count_none kind (l : list Op) :
  (forall o, o ∈ l -> kind o = false) -> count kind l = 0%nat.
Proof.
  intros Hl. unfold count. induction l as [|o l IH]; [reflexivity|].
  rewrite filter_cons_False.
  - apply IH. intros o' Ho'. apply Hl. now right.
  - rewrite (Hl o) by left. discriminate.
Qed.

Lemma filter_none kind (l : list Op) :
  (forall o, o ∈ l -> kind o = false) ->
  filter (fun o => kind o = true) l = [].
Proof.
  intros Hl. induction l as [|o l IH]; [reflexivity|].
  rewrite filter_cons_False.
  - apply IH. intros o' Ho'. apply Hl. now right.
  - rewrite (Hl o) by left. discriminate.
Qed.

Lemma keep_all (P : Op -> bool) (l : list Op) :
  (forall o, o ∈ l -> P o = false) ->
  filter (fun o => P o = false) l = l.
Proof.
  intros Hl. induction l as [|o l IH]; [reflexivity|].
  rewrite filter_cons_True by (apply Hl; left).
  f_equal. apply IH. intros o' Ho'. apply Hl. now right.
Qed.

Lemma memcpy_ops_shape (l : list nat) o :
  o ∈ map memcpy_op l -> exists a b c, o = OpMemcpy a b c.
Proof.
  intros Ho. apply list_elem_of_fmap in Ho as (i & -> & _).
  unfold memcpy_op. eauto.
Qed.

Lemma store_ops_shape buf : forall idx o,
  o ∈ store_ops idx buf -> exists (k : Z) v, o = OpStoreSample k v.
Proof.
  induction buf as [|raw buf IH]; intros idx o Ho; simpl in Ho.
  - now apply elem_of_nil in Ho.
  - apply elem_of_cons in Ho as [->|Ho]; eauto.
Qed.

Lemma write_ops_shape (l : list CRGB.t) : forall (k : Z) o,
  o ∈ write_ops k l -> exists (j : Z) c, o = OpLightWrite j c.
Proof.
  induction l as [|p l IH]; intros k o Ho; simpl in Ho.
  - now apply elem_of_nil in Ho.
  - apply elem_of_cons in Ho as [->|Ho]; eauto.
Qed.

Lemma visualize_op_shape CurrentMode mel o :
  o ∈ visualize_op CurrentMode mel ->
  o = OpVisualizeScroll mel \/ o = OpVisualizeEnergy mel
  \/ o = OpVisualizeSpectrum mel.
Proof.
  unfold visualize_op.
  destruct (CurrentMode =? MODE_SCROLL);
    [|destruct (CurrentMode =? MODE_ENERGY);
      [|destruct (CurrentMode =? MODE_SPECTRUM)]];
    intros Ho; try (apply list_elem_of_singleton in Ho; auto).
  now apply elem_of_nil in Ho.
Qed.

Lemma window_ops_without_logs CurrentMode buf : forall idx cnt,
  filter (fun o => is_log o = false) (window_ops CurrentMode idx cnt buf)
  = store_ops idx buf.
Proof.
  induction buf as [|raw buf IH]; intros idx cnt; [reflexivity|].
  simpl. rewrite filter_cons_True by reflexivity. f_equal.
  rewrite filter_app, IH.
  destruct (Z.rem (cnt + 1) SAMPLE_RATE =? 0); [|reflexivity].
  now rewrite filter_cons_False by discriminate.
Qed.

(** Classifying the members of each stretch of the record. *)
Ltac by_shape :=
  intros ? Hin;
  first [ apply memcpy_ops_shape in Hin as (? & ? & ? & ->)
        | apply store_ops_shape in Hin as (? & ? & ->)
        | apply write_ops_shape in Hin as (? & ? & ->)
        | apply visualize_op_shape in Hin as [->|[->| ->]]
        | apply list_elem_of_singleton in Hin as -> ];
  reflexivity.

Lemma count_visualize_op CurrentMode mel :
  (recognized CurrentMode ->
   count is_visualize (visualize_op CurrentMode mel) = 1%nat)
  /\ (~ recognized CurrentMode ->
      count is_visualize (visualize_op CurrentMode mel) = 0%nat).
Proof.
  unfold visualize_op, recognized.
  destruct (Z.eqb_spec CurrentMode MODE_SCROLL);
    [|destruct (Z.eqb_spec CurrentMode MODE_ENERGY);
      [|destruct (Z.eqb_spec CurrentMode MODE_SPECTRUM)]];
    split; intros Hr; try reflexivity; tauto.
Qed.

(** The record of a frame without its log lines, and how often the
    capture read, the transform and a visualisation occur in it. *)
Lemma frame_record CurrentMode (before : list Op) (frame : list Op)
  (history : list spec_float) (mel : list spec_float)
  (buf : list Z) (leds : list CRGB.t) (cnt : Z) :
  frame = map memcpy_op (seq 0 (depth - 1))
          ++ [OpI2sRead MLED_I2S_NUM (BUFFER_SIZE * 2) portMAX_DELAY]
          ++ window_ops CurrentMode (BUFFER_SIZE * (N_ROLLING_HISTORY - 1))
               cnt buf
          ++ [OpT2mel history]
          ++ visualize_op CurrentMode mel
          ++ write_ops 0 leds ->
  filter (fun o => is_log o = false) frame
  = map memcpy_op (seq 0 (depth - 1))
    ++ [OpI2sRead MLED_I2S_NUM (BUFFER_SIZE * 2) portMAX_DELAY]
    ++ store_ops (BUFFER_SIZE * (N_ROLLING_HISTORY - 1)) buf
    ++ [OpT2mel history]
    ++ visualize_op CurrentMode mel
    ++ write_ops 0 leds
  /\ count is_i2s_read (filter (fun o => is_log o = false) frame) = 1%nat
  /\ count is_t2mel (filter (fun o => is_log o = false) frame) = 1%nat
  /\ count is_visualize (filter (fun o => is_log o = false) frame)
     = count is_visualize (visualize_op CurrentMode mel)
  /\ count is_light_write (filter (fun o => is_log o = false) frame)
     = length leds.
Proof.
  intros ->.
  assert (Hfilter :
    filter (fun o => is_log o = false)
      (map memcpy_op (seq 0 (depth - 1))
       ++ [OpI2sRead MLED_I2S_NUM (BUFFER_SIZE * 2) portMAX_DELAY]
       ++ window_ops CurrentMode (BUFFER_SIZE * (N_ROLLING_HISTORY - 1))
            cnt buf
       ++ [OpT2mel history]
       ++ visualize_op CurrentMode mel
       ++ write_ops 0 leds)
    = map memcpy_op (seq 0 (depth - 1))
      ++ [OpI2sRead MLED_I2S_NUM (BUFFER_SIZE * 2) portMAX_DELAY]
      ++ store_ops (BUFFER_SIZE * (N_ROLLING_HISTORY - 1)) buf
      ++ [OpT2mel history]
      ++ visualize_op CurrentMode mel
      ++ write_ops 0 leds).
  { rewrite !filter_app, window_ops_without_logs.
    rewrite (keep_all is_log (map memcpy_op _)) by by_shape.
    rewrite (keep_all is_log (visualize_op _ _)) by by_shape.
    rewrite (keep_all is_log (write_ops _ _)) by by_shape.
    reflexivity. }
  rewrite Hfilter. split; [reflexivity|].
  rewrite !count_app.
  repeat split.
  - rewrite (count_none is_i2s_read (map memcpy_op _)) by by_shape.
    rewrite (count_none is_i2s_read (store_ops _ _)) by by_shape.
    rewrite (count_none is_i2s_read (visualize_op _ _)) by by_shape.
    rewrite (count_none is_i2s_read (write_ops _ _)) by by_shape.
    reflexivity.
  - rewrite (count_none is_t2mel (map memcpy_op _)) by by_shape.
    rewrite (count_none is_t2mel (store_ops _ _)) by by_shape.
    rewrite (count_none is_t2mel (visualize_op _ _)) by by_shape.
    rewrite (count_none is_t2mel (write_ops _ _)) by by_shape.
    reflexivity.
  - rewrite (count_none is_visualize (map memcpy_op _)) by by_shape.
    rewrite (count_none is_visualize (store_ops _ _)) by by_shape.
    rewrite (count_none is_visualize (write_ops _ _)) by by_shape.
    simpl. lia.
  - rewrite (count_none is_light_write (map memcpy_op _)) by by_shape.
    rewrite (count_none is_light_write (store_ops _ _)) by by_shape.
    rewrite (count_none is_light_write (visualize_op _ _)) by by_shape.
    assert (Hw : forall (l : list CRGB.t) (k : Z),
               count is_light_write (write_ops k l) = length l).
    { induction l as [|p l IH]; intros k; [reflexivity|].
      unfold count in *. simpl write_ops.
      rewrite filter_cons_True by reflexivity. simpl length.
      now rewrite IH. }
    rewrite Hw. simpl. lia.
Qed.

Lemma performed_app (before frame : list Op) s' :
  ops s' = before ++ frame -> performed before s' = frame.
Proof. intros Hops. unfold performed. rewrite Hops. apply drop_app_length. Qed.

Lemma ShowFrame_result_mel CurrentMode s :
  let s' := ShowFrame_result CurrentMode s in
  mel_data (statics s')
  = (t2mel (fft (this s)) (y_data (this s')) (mel_data (statics s))).2.
Proof.
  intros s'. subst s'. rewrite ShowFrame_result_eq.
  set (s3 := after_ingest CurrentMode s).
  destruct (copied_frame (dispatch CurrentMode (transform s3)))
    as (-> & _ & -> & _).
  destruct (dispatch_frame CurrentMode (transform s3))
    as (-> & _ & _ & -> & _).
  destruct (transform_frame s3) as (_ & _ & -> & _ & _ & _ & -> & _).
  destruct (after_ingest_frame CurrentMode s)
    as (_ & _ & _ & Hfft & Hmel & _). fold s3 in Hfft, Hmel.
  now rewrite Hfft, Hmel.
Qed.

Lemma ShowFrame_result_periph CurrentMode s :
  periph (ShowFrame_result CurrentMode s)
  = (i2s_read MLED_I2S_NUM (BUFFER_SIZE * 2) portMAX_DELAY (periph s)).1.
Proof.
  rewrite ShowFrame_result_eq.
  set (s3 := after_ingest CurrentMode s).
  destruct (copied_frame (dispatch CurrentMode (transform s3)))
    as (_ & -> & _).
  destruct (dispatch_frame CurrentMode (transform s3)) as (_ & -> & _).
  destruct (transform_frame s3) as (-> & _).
  subst s3. unfold after_ingest, ingested, emits, set_statics, set_y_data.
  cbn [periph]. unfold capture, shifted, emits, set_y_data. cbn [periph].
  now destruct (i2s_read _ _ _ _).
Qed.

(** ** What the switch and the transform leave in the object *)
Lemma dispatch_pixels CurrentMode s :
  let o := this s in
  let o' := this (dispatch CurrentMode s) in
  let mel := mel_data (statics s) in
  fft o' = fft o
  /\ (CurrentMode = MODE_SCROLL ->
      (effect o', physic_leds o')
      = visualize_scroll (effect o) mel (physic_leds o))
  /\ (CurrentMode <> MODE_SCROLL -> CurrentMode = MODE_ENERGY ->
      (effect o', physic_leds o')
      = visualize_energy (effect o) mel (physic_leds o))
  /\ (CurrentMode <> MODE_SCROLL -> CurrentMode <> MODE_ENERGY ->
      CurrentMode = MODE_SPECTRUM ->
      (effect o', physic_leds o')
      = visualize_spectrum (effect o) mel (physic_leds o))
  /\ (~ recognized CurrentMode ->
      effect o' = effect o /\ physic_leds o' = physic_leds o).
Proof.
  cbv zeta. unfold dispatch, recognized.
  destruct (Z.eqb_spec CurrentMode MODE_SCROLL);
    [|destruct (Z.eqb_spec CurrentMode MODE_ENERGY);
      [|destruct (Z.eqb_spec CurrentMode MODE_SPECTRUM)]];
    cbn [this effect physic_leds fft emit set_effect_leds];
    repeat split; intros; try tauto; try congruence;
    symmetry; apply surjective_pairing.
Qed.

Lemma transform_fft s :
  fft (this (transform s))
  = (t2mel (fft (this s)) (y_data (this s)) (mel_data (statics s))).1.
Proof. unfold transform. now destruct (t2mel _ _ _). Qed.

(** The transform object and the pixel frame in which a frame ends:
    [t2mel] has run on the new history, and the visualisation of the
    mode selector on the new mel vector. *)
Lemma ShowFrame_result_pixels CurrentMode s :
  let s' := ShowFrame_result CurrentMode s in
  let o := this s in
  let o' := this s' in
  let mel := mel_data (statics s') in
  fft o' = (t2mel (fft o) (y_data o') (mel_data (statics s))).1
  /\ (CurrentMode = MODE_SCROLL ->
      (effect o', physic_leds o')
      = visualize_scroll (effect o) mel (physic_leds o))
  /\ (CurrentMode <> MODE_SCROLL -> CurrentMode = MODE_ENERGY ->
      (effect o', physic_leds o')
      = visualize_energy (effect o) mel (physic_leds o))
  /\ (CurrentMode <> MODE_SCROLL -> CurrentMode <> MODE_ENERGY ->
      CurrentMode = MODE_SPECTRUM ->
      (effect o', physic_leds o')
      = visualize_spectrum (effect o) mel (physic_leds o))
  /\ (~ recognized CurrentMode ->
      effect o' = effect o /\ physic_leds o' = physic_leds o).
Proof.
  cbv zeta. rewrite ShowFrame_result_eq.
  set (s3 := after_ingest CurrentMode s).
  destruct (copied_frame (dispatch CurrentMode (transform s3)))
    as (-> & _ & -> & _).
  destruct (dispatch_frame CurrentMode (transform s3))
    as (-> & _ & _ & -> & _).
  destruct (dispatch_pixels CurrentMode (transform s3))
    as (-> & Hscroll & Henergy & Hspectrum & Hnone).
  rewrite transform_fft.
  destruct (transform_frame s3) as (_ & _ & Hy & Hleds & Heff & _ & Hmel & _).
  rewrite Hy, Hleds, Heff in *.
  destruct (after_ingest_frame CurrentMode s)
    as (_ & Hl & He & Hf & Hm & _). fold s3 in Hl, He, Hf, Hm.
  rewrite Hl, He, Hf, Hm in *.
  split; [reflexivity|]. split; [exact Hscroll|]. split; [exact Henergy|].
  split; [exact Hspectrum|exact Hnone].
Qed.

(** ** The claims about [ShowFrame] *)

(** C1. Every frame shifts the rolling sample buffer left by exactly
    one window and appends the newly captured, normalised window:
    afterwards the positions below [(N_ROLLING_HISTORY - 1) * BUFFER_SIZE]
    hold what was [BUFFER_SIZE] positions further up, the last
    [BUFFER_SIZE] positions are the new window, and the buffer still
    has [N_ROLLING_HISTORY * BUFFER_SIZE] samples. *)
Theorem ShowFrame_rolls_history CurrentMode s `{!ArraysKeepSize C} :
  ready s ->
  exists s',
    ShowFrame CurrentMode s = Some s'
    /\ let y := y_data (this s) in
       let y' := y_data (this s') in
       let fresh := map normalize (captured s) in
       y' = drop window y ++ fresh
       /\ len y' = N_ROLLING_HISTORY * BUFFER_SIZE
       /\ len fresh = BUFFER_SIZE
       /\ (forall j : nat, (j < (depth - 1) * window)%nat ->
                           y' !! j = y !! (window + j)%nat)
       /\ (forall j : nat, (j < window)%nat ->
                           y' !! ((depth - 1) * window + j)%nat = fresh !! j)
       /\ take ((depth - 1) * window) y' = drop window y
       /\ drop ((depth - 1) * window) y' = fresh.
Proof.
  intros Hready. exists (ShowFrame_result CurrentMode s).
  split; [now apply ShowFrame_runs|].
  pose proof (ready_sizes s Hready) as Hy.
  destruct Hready as (HW & HD & _ & HyZ & _).
  destruct (ShowFrame_result_frame CurrentMode s HD Hy) as (Hy' & _).
  pose proof (depth_pred HD) as Hsplit.
  pose proof (length_captured s HW) as Hcap.
  assert (Hold : length (drop window (y_data (this s)))
                 = ((depth - 1) * window)%nat).
  { rewrite length_drop, Hy, <- Hsplit.
    generalize ((depth - 1) * window)%nat. intros; lia. }
  cbv zeta. rewrite Hy'.
  split; [reflexivity|]. split.
  { unfold len in *. rewrite length_app, length_map, Hcap, Hold, Hsplit.
    rewrite Z.mul_comm, <- HyZ, Hy. reflexivity. }
  split.
  { unfold len. now rewrite length_map, Hcap, window_Z. }
  split.
  { intros j Hj. rewrite lookup_app_l by lia. apply lookup_drop. }
  split.
  { intros j Hj. rewrite <- Hold. now rewrite lookup_app_r, Nat.add_comm,
      Nat.add_sub by lia. }
  split.
  - now apply take_app_length'.
  - now apply drop_app_length'.
Qed.

(** C2. One call of [ShowFrame] is one frame.  Leaving its log lines
    aside, the operations it performs are, in this order: the
    [memcpy]s that shift the history by one window; one [i2s_read] of
    [BUFFER_SIZE * 2] bytes with [portMAX_DELAY]; the store of each
    normalised sample into the newest window; one [t2mel] on the
    complete history, whose result becomes the mel vector; the
    visualisation of the mode selector (none for an unrecognised
    one); the writes into the light buffer.  Each step has its
    effect on the state, once: the window stored is what that one
    [i2s_read] delivered, on top of the zeroed [i2s_buf], and the
    peripheral is left as that read leaves it; the counter has
    advanced by one window; the transform object and the mel vector
    are those [t2mel] returns for the new history; the visualisation
    object and the pixel frame are those the selected visualisation
    returns for the new mel vector and the previous pixel frame, and
    the previous ones for an unrecognised mode; the light buffer is
    the copy of that pixel frame. *)
Theorem ShowFrame_is_one_frame CurrentMode s `{!ArraysKeepSize C} :
  ready s ->
  exists s',
    ShowFrame CurrentMode s = Some s'
    /\ steps (ops s) s'
       = map memcpy_op (seq 0 (depth - 1))
         ++ [OpI2sRead MLED_I2S_NUM (BUFFER_SIZE * 2) portMAX_DELAY]
         ++ store_ops (BUFFER_SIZE * (N_ROLLING_HISTORY - 1)) (captured s)
         ++ [OpT2mel (y_data (this s'))]
         ++ visualize_op CurrentMode (mel_data (statics s'))
         ++ write_ops 0 (take (length (p_it s)) (physic_leds (this s')))
    /\ count is_i2s_read (steps (ops s) s') = 1%nat
    /\ count is_t2mel (steps (ops s) s') = 1%nat
    /\ (recognized CurrentMode ->
        count is_visualize (steps (ops s) s') = 1%nat)
    /\ (~ recognized CurrentMode ->
        count is_visualize (steps (ops s) s') = 0%nat)
    /\ len (captured s) = BUFFER_SIZE
    /\ y_data (this s')
       = drop window (y_data (this s)) ++ map normalize (captured s)
    /\ mel_data (statics s')
       = (t2mel (fft (this s)) (y_data (this s')) (mel_data (statics s))).2
    /\ p_it s'
       = map to_color (take (length (p_it s)) (physic_leds (this s')))
    /\ captured s
       = fill (replicate (Z.to_nat BUFFER_SIZE) 0)
           (map int16_t
              (i2s_read MLED_I2S_NUM (BUFFER_SIZE * 2) portMAX_DELAY
                 (periph s)).2)
    /\ periph s'
       = (i2s_read MLED_I2S_NUM (BUFFER_SIZE * 2) portMAX_DELAY (periph s)).1
    /\ ii (statics s') = ii (statics s) + BUFFER_SIZE
    /\ fft (this s')
       = (t2mel (fft (this s)) (y_data (this s')) (mel_data (statics s))).1
    /\ (CurrentMode = MODE_SCROLL ->
        (effect (this s'), physic_leds (this s'))
        = visualize_scroll (effect (this s)) (mel_data (statics s'))
            (physic_leds (this s)))
    /\ (CurrentMode <> MODE_SCROLL -> CurrentMode = MODE_ENERGY ->
        (effect (this s'), physic_leds (this s'))
        = visualize_energy (effect (this s)) (mel_data (statics s'))
            (physic_leds (this s)))
    /\ (CurrentMode <> MODE_SCROLL -> CurrentMode <> MODE_ENERGY ->
        CurrentMode = MODE_SPECTRUM ->
        (effect (this s'), physic_leds (this s'))
        = visualize_spectrum (effect (this s)) (mel_data (statics s'))
            (physic_leds (this s)))
    /\ (~ recognized CurrentMode ->
        effect (this s') = effect (this s)
        /\ physic_leds (this s') = physic_leds (this s)).
Proof.
  intros Hready. exists (ShowFrame_result CurrentMode s).
  split; [now apply ShowFrame_runs|].
  pose proof (ready_sizes s Hready) as Hy.
  destruct Hready as (HW & HD & _).
  destruct (ShowFrame_result_frame CurrentMode s HD Hy)
    as (Hy' & Hcnt & Hpit & Hops).
  destruct (ShowFrame_result_pixels CurrentMode s)
    as (Hfft & Hscroll & Henergy & Hspectrum & Hnone).
  unfold steps. rewrite (performed_app _ _ _ Hops).
  set (r := ShowFrame_result CurrentMode s) in *.
  pose proof (frame_record CurrentMode (ops s) _ (y_data (this r))
                (mel_data (statics r)) (captured s)
                (take (length (p_it s)) (physic_leds (this r)))
                (ii (statics s)) eq_refl)
    as (Hrec & Hread & Hmel & Hvis & _).
  split; [exact Hrec|]. split; [exact Hread|]. split; [exact Hmel|].
  destruct (count_visualize_op CurrentMode (mel_data (statics r)))
    as [Hyes Hno].
  split; [intros Hr; rewrite Hvis; now apply Hyes|].
  split; [intros Hr; rewrite Hvis; now apply Hno|].
  split; [unfold len; now rewrite length_captured, window_Z|].
  split; [exact Hy'|].
  split; [apply ShowFrame_result_mel|]. split; [exact Hpit|].
  split; [apply captured_eq|]. split; [apply ShowFrame_result_periph|].
  split.
  { rewrite Hcnt. unfold len. now rewrite length_captured, window_Z. }
  split; [exact Hfft|]. split; [exact Hscroll|]. split; [exact Henergy|].
  split; [exact Hspectrum|exact Hnone].
Qed.

(** ** Steps that leave the pixel frame alone *)
Lemma pixels_untouched_refl s : pixels_untouched s s.
Proof.
  repeat split. exists []. now rewrite app_nil_r.
Qed.

Lemma pixels_untouched_trans s1 s2 s3 :
  pixels_untouched s1 s2 -> pixels_untouched s2 s3 -> pixels_untouched s1 s3.
Proof.
  intros (Hl1 & He1 & l1 & Ho1 & Hc1) (Hl2 & He2 & l2 & Ho2 & Hc2).
  split; [congruence|]. split; [congruence|].
  exists (l1 ++ l2). rewrite Ho2, Ho1, <- app_assoc, count_app, Hc1, Hc2.
  split; reflexivity.
Qed.

Lemma pixels_untouched_emit o s s' :
  ops s' = ops s ++ [o] ->
  is_visualize o = false ->
  physic_leds (this s') = physic_leds (this s) ->
  effect (this s') = effect (this s) ->
  pixels_untouched s s'.
Proof.
  intros Hops Ho Hl He. split; [exact Hl|]. split; [exact He|].
  exists [o]. split; [exact Hops|].
  apply count_none. intros o' Hin.
  now apply list_elem_of_singleton in Hin as ->.
Qed.

Lemma for_from_untouched (body : Z -> Machine -> option Machine) :
  (forall k s s', body k s = Some s' -> pixels_untouched s s') ->
  forall n (k : Z) s s',
    for_from n k body s = Some s' -> pixels_untouched s s'.
Proof.
  intros Hbody. induction n as [|n IH]; intros k s s' Hrun.
  - injection Hrun as <-. apply pixels_untouched_refl.
  - simpl in Hrun. destruct (body k s) as [s1|] eqn:Hstep; [|discriminate].
    simpl in Hrun.
    exact (pixels_untouched_trans _ _ _ (Hbody k _ _ Hstep)
             (IH (k + 1) _ _ Hrun)).
Qed.

Lemma shift_step_untouched (k : Z) s s' :
  shift_step k s = Some s' -> pixels_untouched s s'.
Proof.
  unfold shift_step. destruct (memcpy _ _ _ _) as [y|]; [|discriminate].
  intros [= <-]. eapply pixels_untouched_emit; reflexivity.
Qed.

Lemma copy_step_untouched (k : Z) s s' :
  copy_step k s = Some s' -> pixels_untouched s s'.
Proof.
  unfold copy_step. destruct (arr_get _ _) as [p|]; [|discriminate]. simpl.
  destruct (arr_set _ _ _) as [l|]; [|discriminate].
  intros [= <-]. eapply pixels_untouched_emit; reflexivity.
Qed.

Lemma ingest_step_untouched CurrentMode buf (k : Z) s s' :
  ingest_step CurrentMode buf k s = Some s' -> pixels_untouched s s'.
Proof.
  unfold ingest_step. destruct (arr_get _ _) as [raw|]; [|discriminate]. simpl.
  destruct (arr_set _ _ _) as [y|]; [|discriminate]. simpl.
  destruct (_ <=? INT_MAX); [|discriminate].
  destruct (SAMPLE_RATE =? 0); [discriminate|].
  destruct (Z.rem _ _ =? 0); intros [= <-].
  - eapply (pixels_untouched_trans _
              (emit (OpStoreSample _ (normalize raw)) (set_y_data y s)));
      eapply pixels_untouched_emit; reflexivity.
  - eapply pixels_untouched_emit; reflexivity.
Qed.

Lemma capture_untouched s : pixels_untouched s (capture s).1.
Proof.
  destruct (capture_frame s) as (Hthis & _ & _ & _ & Hops).
  eapply pixels_untouched_emit;
    [exact Hops|reflexivity|now rewrite Hthis..].
Qed.

Lemma transform_untouched s : pixels_untouched s (transform s).
Proof.
  destruct (transform_frame s) as (_ & _ & _ & Hl & He & _ & _ & Hops).
  eapply pixels_untouched_emit; [exact Hops|reflexivity|assumption..].
Qed.

Lemma ShowFrame_untouched CurrentMode s s' :
  ~ recognized CurrentMode ->
  ShowFrame CurrentMode s = Some s' -> pixels_untouched s s'.
Proof.
  intros Hno. unfold ShowFrame.
  destruct (shift_history s) as [s1|] eqn:Hshift; [|discriminate]. simpl.
  pose proof (capture_untouched s1) as Hcap.
  destruct (capture s1) as [s2 buf]. simpl in Hcap.
  destruct (ingest CurrentMode buf s2) as [s3|] eqn:Hingest; [|discriminate].
  simpl. rewrite dispatch_unrecognized by assumption. intros Hcopy.
  eapply pixels_untouched_trans;
    [eapply for_from_untouched; [apply shift_step_untouched|exact Hshift]|].
  eapply pixels_untouched_trans; [exact Hcap|].
  eapply pixels_untouched_trans;
    [eapply for_from_untouched; [apply ingest_step_untouched|exact Hingest]|].
  eapply pixels_untouched_trans; [apply transform_untouched|].
  eapply for_from_untouched; [apply copy_step_untouched|exact Hcopy].
Qed.

(** C4. With a mode selector that is none of [MODE_SCROLL],
    [MODE_ENERGY], [MODE_SPECTRUM], a call of [ShowFrame] leaves the
    pixel frame [physic_leds] as it was: it calls no visualisation
    and writes no entry of the pixel frame (and such a call is
    defined whenever the state is [ready]). *)
Theorem unrecognized_mode_keeps_pixel_frame CurrentMode s :
  ~ recognized CurrentMode ->
  (forall s',
      ShowFrame CurrentMode s = Some s' ->
      physic_leds (this s') = physic_leds (this s)
      /\ effect (this s') = effect (this s)
      /\ count is_visualize (performed (ops s) s') = 0%nat)
  /\ (ready s ->
      ShowFrame CurrentMode s = Some (ShowFrame_result CurrentMode s)).
Proof.
  intros Hno. split.
  - intros s' Hrun.
    destruct (ShowFrame_untouched CurrentMode s s' Hno Hrun)
      as (Hl & He & l & Hops & Hcount).
    now rewrite (performed_app _ _ _ Hops).
  - intros Hready. apply ShowFrame_runs_if; [|assumption].
    now apply unrecognized_size_kept.
Qed.

Lemma ShowFrame_writes_every_light_slot_aux CurrentMode s
  `{!ArraysKeepSize C} :
  ready s ->
  let s' := ShowFrame_result CurrentMode s in
  ShowFrame CurrentMode s = Some s'
  /\ p_it s' = map to_color (take (length (p_it s)) (physic_leds (this s')))
  /\ length (p_it s') = length (p_it s)
  /\ filter (fun o => is_light_write o = true) (steps (ops s) s')
     = write_ops 0 (take (length (p_it s)) (physic_leds (this s'))).
Proof.
  intros Hready r.
  pose proof (ready_sizes s Hready) as Hy.
  pose proof (ShowFrame_runs CurrentMode s Hready) as Hrun. fold r in Hrun.
  destruct Hready as (HW & HD & _ & _ & _ & Hlight).
  destruct (ShowFrame_result_frame CurrentMode s HD Hy)
    as (_ & _ & Hpit & Hops). fold r in Hpit, Hops.
  assert (Hleds : length (physic_leds (this r)) = length (physic_leds (this s))).
  { subst r. rewrite ShowFrame_result_eq.
    destruct (copied_frame (dispatch CurrentMode
                (transform (after_ingest CurrentMode s)))) as (_ & _ & -> & _).
    rewrite dispatch_size by assumption.
    destruct (transform_frame (after_ingest CurrentMode s))
      as (_ & _ & _ & -> & _).
    now destruct (after_ingest_frame CurrentMode s) as (_ & -> & _). }
  split; [exact Hrun|]. split; [exact Hpit|]. split.
  { rewrite Hpit, length_map, length_take, Hleds. unfold len in Hlight. lia. }
  pose proof (frame_record CurrentMode (ops s) _ (y_data (this r))
                (mel_data (statics r)) (captured s)
                (take (length (p_it s)) (physic_leds (this r)))
                (ii (statics s)) eq_refl)
    as (Hrec & _).
  unfold steps. rewrite (performed_app _ _ _ Hops), Hrec.
  rewrite !filter_app.
  rewrite (filter_none is_light_write (map memcpy_op _)) by by_shape.
  rewrite (filter_none is_light_write (store_ops _ _)) by by_shape.
  rewrite (filter_none is_light_write (visualize_op _ _)) by by_shape.
  rewrite !filter_cons_False, !filter_nil by discriminate.
  simpl app. clear.
  generalize 0. induction (take _ _) as [|p l IH]; intros k; [reflexivity|].
  simpl write_ops. rewrite filter_cons_True by reflexivity. now rewrite IH.
Qed.

(** C5, as the code has it.  For each mode selector, a call of
    [ShowFrame] writes exactly [p_it->size()] entries into the light
    buffer, one per slot and in the order of the slots (so
    [n_pixels_] entries exactly when the light buffer has [n_pixels_]
    slots); every entry written has its white channel equal to zero
    and its r, g, b channels equal to those of the pixel-frame entry
    of the same index. *)
Theorem ShowFrame_writes_every_light_slot CurrentMode s
  `{!ArraysKeepSize C} :
  ready s ->
  exists s',
    ShowFrame CurrentMode s = Some s'
    /\ count is_light_write (steps (ops s) s') = length (p_it s)
    /\ length (p_it s') = length (p_it s)
    /\ (len (p_it s) = n_pixels_ (this s) ->
        Z.of_nat (count is_light_write (steps (ops s) s'))
        = n_pixels_ (this s))
    /\ (forall (j : nat) (c : Color.t),
          p_it s' !! j = Some c ->
          exists p, physic_leds (this s') !! j = Some p
                    /\ Color.w c = 0
                    /\ Color.r c = CRGB.r p /\ Color.g c = CRGB.g p
                    /\ Color.b c = CRGB.b p).
Proof.
  intros Hready. exists (ShowFrame_result CurrentMode s).
  split; [now apply ShowFrame_runs|].
  pose proof (ready_sizes s Hready) as Hy.
  pose proof (ShowFrame_runs CurrentMode s Hready) as Hrun.
  destruct Hready as (HW & HD & _ & _ & _ & Hlight).
  destruct (ShowFrame_result_frame CurrentMode s HD Hy)
    as (_ & _ & Hpit & Hops).
  set (r := ShowFrame_result CurrentMode s) in *.
  assert (Hleds : length (physic_leds (this r)) = length (physic_leds (this s))).
  { subst r. rewrite ShowFrame_result_eq.
    destruct (copied_frame (dispatch CurrentMode
                (transform (after_ingest CurrentMode s)))) as (_ & _ & -> & _).
    rewrite dispatch_size by assumption.
    destruct (transform_frame (after_ingest CurrentMode s))
      as (_ & _ & _ & -> & _).
    now destruct (after_ingest_frame CurrentMode s) as (_ & -> & _). }
  assert (Htake : length (take (length (p_it s)) (physic_leds (this r)))
                  = length (p_it s)).
  { rewrite length_take, Hleds. unfold len in Hlight. lia. }
  pose proof (frame_record CurrentMode (ops s) _ (y_data (this r))
                (mel_data (statics r)) (captured s)
                (take (length (p_it s)) (physic_leds (this r)))
                (ii (statics s)) eq_refl)
    as (_ & _ & _ & _ & Hwrites).
  unfold steps. rewrite (performed_app _ _ _ Hops), Hwrites, Htake.
  split; [reflexivity|].
  split; [now rewrite Hpit, length_map|].
  split; [intros Hn; exact Hn|].
  intros j c Hj. rewrite Hpit in Hj.
  apply list_lookup_fmap_Some in Hj as (p & -> & Hp).
  apply lookup_take_Some in Hp as [Hp _].
  exists p. repeat split. exact Hp.
Qed.

(** C8. Every call of [ShowFrame], also one with an unrecognised
    mode selector, overwrites all entries of the light buffer: slot
    [j] receives pixel [j] of the pixel frame with the white channel
    set to zero; for an unrecognised mode the pixel frame is the
    one of the previous frame, so only the pixel frame is left
    untouched, not the output. *)
Theorem ShowFrame_always_writes_output CurrentMode s `{!ArraysKeepSize C} :
  ready s ->
  exists s',
    ShowFrame CurrentMode s = Some s'
    /\ p_it s' = map to_color (take (length (p_it s)) (physic_leds (this s')))
    /\ length (p_it s') = length (p_it s)
    /\ filter (fun o => is_light_write o = true) (steps (ops s) s')
       = write_ops 0 (take (length (p_it s)) (physic_leds (this s')))
    /\ (forall j : nat, (j < length (p_it s))%nat ->
          exists p, physic_leds (this s') !! j = Some p
                    /\ p_it s' !! j
                       = Some (Color.mk (CRGB.r p) (CRGB.g p) (CRGB.b p) 0))
    /\ (~ recognized CurrentMode ->
        physic_leds (this s') = physic_leds (this s)
        /\ p_it s'
           = map to_color (take (length (p_it s)) (physic_leds (this s)))).
Proof.
  intros Hready.
  destruct (ShowFrame_writes_every_light_slot_aux CurrentMode s Hready)
    as (Hrun & Hpit & Hlen & Hops).
  exists (ShowFrame_result CurrentMode s).
  set (r := ShowFrame_result CurrentMode s) in *.
  split; [exact Hrun|]. split; [exact Hpit|]. split; [exact Hlen|].
  split; [exact Hops|]. split.
  - intros j Hj.
    destruct (lookup_lt_is_Some_2 (p_it r) j) as [c Hc]; [lia|].
    rewrite Hpit in Hc.
    apply list_lookup_fmap_Some in Hc as (p & -> & Hp).
    exists p. split; [now apply lookup_take_Some in Hp as [Hp _]|].
    rewrite Hpit. now rewrite list_lookup_fmap, Hp.
  - intros Hno.
    destruct (ShowFrame_untouched CurrentMode s r Hno Hrun) as (Hl & _).
    split; [exact Hl|]. now rewrite Hpit, Hl.
Qed.

(** C6, as the code has it.  The data members of a [MusicLeds]
    object (its sample buffer and its pixel buffer among them) are
    its own: a call of [ShowFrame] on the object at [a] leaves the
    object at any other address [b] as it was.  The mel-energy
    vector and the sample counter are function-level statics, one
    copy for all objects: the call overwrites the former and
    advances the latter by [BUFFER_SIZE], also as seen from [b]; and
    the call consumes a window from the one capture peripheral
    [MLED_I2S_NUM] that all objects read. *)
Theorem ShowFrame_owns_its_members (a b : nat) CurrentMode
  (light light' : list Color.t) (w w' : World) `{!ArraysKeepSize C} :
  a <> b ->
  ShowFrame_at a CurrentMode light w = Some (w', light') ->
  w_heap w' !! b = w_heap w !! b
  /\ (forall o, w_heap w !! b = Some o ->
        pipeline_state b w'
        = Some (y_data o, mel_data (w_statics w'), physic_leds o,
                ii (w_statics w')))
  /\ (forall o,
        w_heap w !! a = Some o ->
        ready (mkMachine (w_statics w) (w_periph w) o light (w_ops w)) ->
        ii (w_statics w') = ii (w_statics w) + BUFFER_SIZE
        /\ mel_data (w_statics w')
           = (t2mel (fft o)
                (drop window (y_data o)
                 ++ map normalize
                      (captured (mkMachine (w_statics w) (w_periph w) o
                                   light (w_ops w))))
                (mel_data (w_statics w))).2
        /\ w_periph w'
           = (i2s_read MLED_I2S_NUM (BUFFER_SIZE * 2) portMAX_DELAY
                (w_periph w)).1).
Proof.
  intros Hab Hcall. unfold ShowFrame_at in Hcall.
  destruct (w_heap w !! a) as [oa|] eqn:Hoa; [|discriminate]. simpl in Hcall.
  destruct (ShowFrame _ _) as [s'|] eqn:Hrun; [|discriminate].
  simpl in Hcall. injection Hcall as <- <-.
  assert (Hother : <[a := this s']> (w_heap w) !! b = w_heap w !! b)
    by now apply lookup_insert_ne.
  split; [exact Hother|]. split.
  - intros o Ho. unfold pipeline_state. cbn [w_heap w_statics].
    now rewrite Hother, Ho.
  - intros o [= <-] Hready. cbn [w_statics w_periph].
    rewrite (ShowFrame_runs _ _ Hready) in Hrun. injection Hrun as <-.
    pose proof (ready_sizes _ Hready) as Hy.
    pose proof (ShowFrame_result_mel CurrentMode
                  (mkMachine (w_statics w) (w_periph w) oa light (w_ops w)))
      as Hmel.
    pose proof (ShowFrame_result_periph CurrentMode
                  (mkMachine (w_statics w) (w_periph w) oa light (w_ops w)))
      as Hperiph.
    destruct Hready as (HW & HD & _).
    destruct (ShowFrame_result_frame CurrentMode _ HD Hy) as (Hy' & Hii & _).
    cbv zeta in Hmel. rewrite Hy' in Hmel.
    split; [|split; [exact Hmel|exact Hperiph]].
    rewrite Hii. unfold len. now rewrite length_captured, window_Z.
Qed.

(** C7. [setup] issues the operations of the capture peripheral in
    the order driver install, pin configuration, stop, start, and
    then logs the pixel count and the pin assignment: the
    peripheral is stopped before it is started. *)
Theorem setup_stops_then_starts s :
  performed (ops s) (setup s)
  = [ OpI2sDriverInstall MLED_I2S_NUM;
      OpI2sSetPin MLED_I2S_NUM (pin_config (this s)).1 (pin_config (this s)).2;
      OpI2sStop MLED_I2S_NUM;
      OpI2sStart MLED_I2S_NUM;
      OpLogI (n_pixels_ (this s)) (pin_config (this s)).1
             (pin_config (this s)).2 ]
  /\ precedes (OpI2sDriverInstall MLED_I2S_NUM)
       (OpI2sSetPin MLED_I2S_NUM (pin_config (this s)).1
                    (pin_config (this s)).2)
       (performed (ops s) (setup s))
  /\ precedes (OpI2sSetPin MLED_I2S_NUM (pin_config (this s)).1
                           (pin_config (this s)).2)
       (OpI2sStop MLED_I2S_NUM) (performed (ops s) (setup s))
  /\ precedes (OpI2sStop MLED_I2S_NUM) (OpI2sStart MLED_I2S_NUM)
       (performed (ops s) (setup s))
  /\ precedes (OpI2sStart MLED_I2S_NUM)
       (OpLogI (n_pixels_ (this s)) (pin_config (this s)).1
               (pin_config (this s)).2)
       (performed (ops s) (setup s))
  /\ periph (setup s)
     = i2s_start MLED_I2S_NUM
         (i2s_stop MLED_I2S_NUM
            (i2s_set_pin MLED_I2S_NUM (pin_config (this s))
               (i2s_driver_install MLED_I2S_NUM (i2s_config (this s))
                  (periph s))))
  /\ this (setup s) = this s /\ statics (setup s) = statics s
  /\ p_it (setup s) = p_it s.
Proof.
  assert (Hops : performed (ops s) (setup s)
                 = [ OpI2sDriverInstall MLED_I2S_NUM;
                     OpI2sSetPin MLED_I2S_NUM (pin_config (this s)).1
                                 (pin_config (this s)).2;
                     OpI2sStop MLED_I2S_NUM;
                     OpI2sStart MLED_I2S_NUM;
                     OpLogI (n_pixels_ (this s)) (pin_config (this s)).1
                            (pin_config (this s)).2 ]).
  { apply performed_app. unfold setup. cbv zeta.
    autorewrite with machine. now rewrite <- !app_assoc. }
  rewrite Hops. split; [reflexivity|].
  split; [eexists [], [], _; reflexivity|].
  split; [eexists [_], [], _; reflexivity|].
  split; [eexists [_; _], [], _; reflexivity|].
  split; [eexists [_; _; _], [], _; reflexivity|].
  unfold setup. cbv zeta. autorewrite with machine. repeat split.
Qed.

End Frame.

(** ** The claims at the concrete configuration *)

Ltac demo_ready :=
  unfold ready; repeat split; vm_compute;
  first [ reflexivity | discriminate ].

Ltac demo_sizes :=
  split; intros; apply length_map.

Lemma ShowFrame_rolls_history_witness :
  exists s',
    ShowFrame (H := demo_header) 1 (demo_machine 3 3) = Some s'
    /\ y_data (this s')
       = [ S754_zero false; S754_zero false; S754_zero false; S754_zero false;
           S754_finite true 8388608 (-23); S754_finite false 16776704 (-24) ].
Proof.
  assert (Hsizes : ArraysKeepSize demo_collaborators) by demo_sizes.
  assert (Hready : ready (H := demo_header) (demo_machine 3 3)) by demo_ready.
  destruct (ShowFrame_rolls_history (H := demo_header) 1 (demo_machine 3 3)
              Hready) as (s' & Hrun & Hy & _).
  exists s'. split; [exact Hrun|]. rewrite Hy. vm_compute. reflexivity.
Defined.

Lemma ShowFrame_is_one_frame_witness :
  exists s',
    ShowFrame (H := demo_header) 1 (demo_machine 3 3) = Some s'
    /\ count is_i2s_read (steps [] s') = 1%nat
    /\ count is_t2mel (steps [] s') = 1%nat
    /\ periph s' = [100; -200]
    /\ y_data (this s')
       = [ S754_zero false; S754_zero false; S754_zero false; S754_zero false;
           S754_finite true 8388608 (-23); S754_finite false 16776704 (-24) ]
    /\ mel_data (statics s')
       = [ S754_finite false 16776704 (-24);
           S754_finite false 16776704 (-24) ]
    /\ physic_leds (this s') = replicate 3 (CRGB.mk 0 255 0)
    /\ p_it s' = replicate 3 (Color.mk 0 255 0 0).
Proof.
  assert (Hsizes : ArraysKeepSize demo_collaborators) by demo_sizes.
  assert (Hready : ready (H := demo_header) (demo_machine 3 3)) by demo_ready.
  destruct (ShowFrame_is_one_frame (H := demo_header) 1 (demo_machine 3 3)
              Hready)
    as (s' & Hrun & _ & Hread & Hmel & _ & _ & _ & Hy & Hm & Hpit & Hcap
        & Hper & _ & _ & _ & Henergy & _).
  assert (Hleds : physic_leds (this s') = replicate 3 (CRGB.mk 0 255 0)).
  { apply (f_equal snd) in Henergy; [|discriminate|reflexivity].
    exact Henergy. }
  rewrite Hcap in Hy. rewrite Hy in Hm.
  exists s'. split; [exact Hrun|]. split; [exact Hread|].
  split; [exact Hmel|]. split; [exact Hper|]. split; [exact Hy|].
  split; [exact Hm|]. split; [exact Hleds|].
  rewrite Hpit, Hleds. reflexivity.
Defined.

Lemma unrecognized_mode_keeps_pixel_frame_witness :
  ~ recognized (H := demo_header) 7
  /\ ShowFrame (H := demo_header) 7 (demo_machine 3 3)
     = Some (ShowFrame_result (H := demo_header) 7 (demo_machine 3 3))
  /\ physic_leds (this (ShowFrame_result (H := demo_header) 7
                          (demo_machine 3 3)))
     = replicate 3 (CRGB.mk 1 2 3).
Proof.
  assert (Hno : ~ recognized (H := demo_header) 7)
    by (unfold recognized; simpl; lia).
  assert (Hready : ready (H := demo_header) (demo_machine 3 3)) by demo_ready.
  destruct (unrecognized_mode_keeps_pixel_frame (H := demo_header) 7
              (demo_machine 3 3) Hno) as [Hkeep Hrun].
  split; [exact Hno|]. split; [exact (Hrun Hready)|].
  destruct (Hkeep _ (Hrun Hready)) as (-> & _). reflexivity.
Defined.

Lemma ShowFrame_writes_every_light_slot_witness :
  exists s',
    ShowFrame (H := demo_header) 0 (demo_machine 3 2) = Some s'
    /\ count is_light_write (steps [] s') = 2%nat
    /\ length (p_it s') = 2%nat.
Proof.
  assert (Hsizes : ArraysKeepSize demo_collaborators) by demo_sizes.
  assert (Hready : ready (H := demo_header) (demo_machine 3 2)) by demo_ready.
  destruct (ShowFrame_writes_every_light_slot (H := demo_header) 0
              (demo_machine 3 2) Hready) as (s' & Hrun & Hcount & Hlen & _).
  exists s'. split; [exact Hrun|]. split; [exact Hcount|exact Hlen].
Defined.

(** C5, as the specification has it, fails: with three pixels and a
    light buffer of two slots a frame writes two entries, not three. *)
Lemma writes_pixel_count_counterexample :
  ~ writes_pixel_count (H := demo_header) (C := demo_collaborators).
Proof.
  intros Hclaim.
  assert (Hrec : recognized (H := demo_header) 1)
    by (unfold recognized; simpl; lia).
  assert (Hready : ready (H := demo_header) (demo_machine 3 2)) by demo_ready.
  assert (Hrun : ShowFrame (H := demo_header) 1 (demo_machine 3 2)
                 = Some (ShowFrame_result (H := demo_header) 1
                           (demo_machine 3 2)))
    by (vm_compute; reflexivity).
  specialize (Hclaim 1 (demo_machine 3 2) _ Hrec Hready eq_refl Hrun).
  vm_compute in Hclaim. discriminate Hclaim.
Qed.

Lemma ShowFrame_always_writes_output_witness :
  exists s',
    ShowFrame (H := demo_header) 7 (demo_machine 3 3) = Some s'
    /\ p_it s' = replicate 3 (Color.mk 1 2 3 0).
Proof.
  assert (Hsizes : ArraysKeepSize demo_collaborators) by demo_sizes.
  assert (Hready : ready (H := demo_header) (demo_machine 3 3)) by demo_ready.
  assert (Hno : ~ recognized (H := demo_header) 7)
    by (unfold recognized; simpl; lia).
  destruct (ShowFrame_always_writes_output (H := demo_header) 7
              (demo_machine 3 3) Hready)
    as (s' & Hrun & _ & _ & _ & _ & Hsame).
  exists s'. split; [exact Hrun|].
  destruct (Hsame Hno) as (_ & ->). reflexivity.
Defined.

(** C6, as the specification has it, fails: a frame of the object at
    address 1 changes the sample counter and the mel-energy vector
    that the object at address 2 uses. *)
Lemma exclusively_owned_counterexample :
  ~ exclusively_owned (H := demo_header) (C := demo_collaborators).
Proof.
  intros Hclaim.
  destruct (ShowFrame_at (H := demo_header) 1%nat 1 [] demo_world)
    as [[w' light']|] eqn:Hcall; [|vm_compute in Hcall; discriminate Hcall].
  specialize (Hclaim 1%nat 2%nat 1 [] light' demo_world w'
                ltac:(discriminate) Hcall).
  vm_compute in Hcall. injection Hcall as <- <-.
  vm_compute in Hclaim. discriminate Hclaim.
Qed.

Lemma ShowFrame_owns_its_members_witness :
  exists w' light',
    ShowFrame_at (H := demo_header) 1%nat 1 [] demo_world = Some (w', light')
    /\ w_heap w' !! 2%nat = Some (demo_object 3)
    /\ ii (w_statics w') = 2.
Proof.
  assert (Hsizes : ArraysKeepSize demo_collaborators) by demo_sizes.
  destruct (ShowFrame_at (H := demo_header) 1%nat 1 [] demo_world)
    as [[w' light']|] eqn:Hcall; [|vm_compute in Hcall; discriminate Hcall].
  assert (Hab : 1%nat <> 2%nat) by discriminate.
  destruct (ShowFrame_owns_its_members (H := demo_header) 1%nat 2%nat 1 []
              light' demo_world w' Hab Hcall) as (Hother & _ & Hshared).
  exists w', light'. split; [reflexivity|]. split.
  - rewrite Hother. reflexivity.
  - assert (Hready : ready (H := demo_header)
                       (mkMachine (w_statics demo_world) (w_periph demo_world)
                          (demo_object 3) [] (w_ops demo_world)))
      by demo_ready.
    destruct (Hshared (demo_object 3) eq_refl Hready) as (-> & _).
    reflexivity.
Defined.

(** * Runs of frames, and the edges of a frame *)

Section Runs.
Context `{H : Header} `{C : Collaborators}.
Implicit Types (s : Machine).

Lemma dispatch_config CurrentMode s :
  n_pixels_ (this (dispatch CurrentMode s)) = n_pixels_ (this s)
  /\ pin_config (this (dispatch CurrentMode s)) = pin_config (this s)
  /\ i2s_config (this (dispatch CurrentMode s)) = i2s_config (this s).
Proof.
  unfold dispatch.
  destruct (CurrentMode =? MODE_SCROLL);
    [|destruct (CurrentMode =? MODE_ENERGY);
      [|destruct (CurrentMode =? MODE_SPECTRUM)]];
    repeat split.
Qed.

Lemma ShowFrame_result_config CurrentMode s :
  let s' := ShowFrame_result CurrentMode s in
  n_pixels_ (this s') = n_pixels_ (this s)
  /\ pin_config (this s') = pin_config (this s)
  /\ i2s_config (this s') = i2s_config (this s).
Proof.
  intros s'. subst s'. rewrite ShowFrame_result_eq.
  set (s3 := after_ingest CurrentMode s).
  destruct (copied_frame (dispatch CurrentMode (transform s3)))
    as (_ & _ & -> & _).
  destruct (dispatch_config CurrentMode (transform s3)) as (-> & -> & ->).
  assert (Ht : n_pixels_ (this (transform s3)) = n_pixels_ (this s3)
               /\ pin_config (this (transform s3)) = pin_config (this s3)
               /\ i2s_config (this (transform s3)) = i2s_config (this s3)).
  { unfold transform. destruct (t2mel _ _ _). repeat split. }
  destruct Ht as (-> & -> & ->).
  subst s3. unfold after_ingest, ingested, emits, set_statics, set_y_data.
  cbn [this n_pixels_ pin_config i2s_config].
  destruct (capture_frame (shifted s)) as (-> & _).
  repeat split.
Qed.

Lemma ShowFrame_result_sizes CurrentMode s `{!ArraysKeepSize C} :
  ready s ->
  let s' := ShowFrame_result CurrentMode s in
  length (y_data (this s')) = length (y_data (this s))
  /\ length (p_it s') = length (p_it s)
  /\ length (physic_leds (this s')) = length (physic_leds (this s))
  /\ ii (statics s') = ii (statics s) + BUFFER_SIZE.
Proof.
  intros Hready s'.
  pose proof (ready_sizes s Hready) as Hy.
  destruct Hready as (HW & HD & _ & _ & _ & Hlight).
  destruct (ShowFrame_result_frame CurrentMode s HD Hy)
    as (Hy' & Hii & Hpit & _). fold s' in Hy', Hii, Hpit.
  pose proof (depth_pred HD) as Hsplit.
  pose proof (length_captured s HW) as Hcap.
  assert (Hleds : length (physic_leds (this s')) = length (physic_leds (this s))).
  { subst s'. rewrite ShowFrame_result_eq.
    destruct (copied_frame (dispatch CurrentMode
                (transform (after_ingest CurrentMode s)))) as (_ & _ & -> & _).
    rewrite dispatch_size by assumption.
    destruct (transform_frame (after_ingest CurrentMode s))
      as (_ & _ & _ & -> & _).
    now destruct (after_ingest_frame CurrentMode s) as (_ & -> & _). }
  split.
  { rewrite Hy', length_app, length_drop, length_map, Hcap, Hy, <- Hsplit.
    generalize ((depth - 1) * window)%nat. intros; lia. }
  split.
  { rewrite Hpit, length_map, length_take, Hleds. unfold len in Hlight. lia. }
  split; [exact Hleds|].
  rewrite Hii. unfold len. now rewrite Hcap, window_Z.
Qed.

(** A run of frames, as long as the counter has room. *)
Lemma frames_run `{!ArraysKeepSize C} (modes : list Z) : forall s,
  0 <= BUFFER_SIZE -> 1 <= N_ROLLING_HISTORY -> SAMPLE_RATE <> 0 ->
  len (y_data (this s)) = BUFFER_SIZE * N_ROLLING_HISTORY ->
  len (p_it s) <= len (physic_leds (this s)) ->
  ii (statics s) + Z.of_nat (length modes) * BUFFER_SIZE <= INT_MAX ->
  exists s',
    frames modes s = Some s'
    /\ y_data (this s')
       = drop (length modes * window)
           (y_data (this s)
            ++ map normalize (stream (length modes) (periph s)))
    /\ ii (statics s') = ii (statics s) + Z.of_nat (length modes) * BUFFER_SIZE
    /\ length (p_it s') = length (p_it s)
    /\ length (physic_leds (this s')) = length (physic_leds (this s))
    /\ n_pixels_ (this s') = n_pixels_ (this s)
    /\ pin_config (this s') = pin_config (this s)
    /\ i2s_config (this s') = i2s_config (this s).
Proof.
  induction modes as [|CurrentMode modes IH]; intros s HW HD Hrate Hy Hlight Hii.
  - exists s. simpl. rewrite app_nil_r. repeat split; lia.
  - assert (Hready : ready s).
    { repeat split; try assumption. simpl length in Hii. nia. }
    pose proof (ready_sizes s Hready) as Hyn.
    destruct (ShowFrame_result_sizes CurrentMode s Hready)
      as (Hy1 & Hp1 & Hl1 & Hi1).
    destruct (ShowFrame_result_config CurrentMode s) as (Hn1 & Hc1 & Hg1).
    destruct (ShowFrame_result_frame CurrentMode s HD Hyn) as (Hyd & _).
    pose proof (ShowFrame_result_periph CurrentMode s) as Hper.
    set (s1 := ShowFrame_result CurrentMode s) in *.
    destruct (IH s1) as (s' & Hrun & Hy' & Hi' & Hp' & Hl' & Hn' & Hc' & Hg');
      try assumption.
    { unfold len in *. rewrite Hy1. exact Hy. }
    { unfold len in *. rewrite Hp1, Hl1. exact Hlight. }
    { rewrite Hi1. simpl length in Hii. lia. }
    exists s'. split.
    { simpl. rewrite (ShowFrame_runs _ _ Hready). exact Hrun. }
    split.
    { rewrite Hy', Hyd, Hper. simpl stream. rewrite <- captured_eq.
      rewrite map_app.
      replace (length (CurrentMode :: modes) * window)%nat
        with (window + length modes * window)%nat by (simpl; lia).
      rewrite <- drop_drop. f_equal.
      rewrite drop_app_le, <- app_assoc; [reflexivity|].
      rewrite Hyn. pose proof (depth_pred HD). 
      generalize dependent ((depth - 1) * window)%nat. intros; lia. }
    split; [rewrite Hi', Hi1; simpl length; lia|].
    split; [congruence|]. split; [congruence|].
    split; [congruence|]. split; congruence.
Qed.

Lemma length_stream (n : nat) : forall d,
  length (stream n d) = (n * window)%nat.
Proof.
  induction n as [|n IH]; intros d; [reflexivity|].
  simpl stream. rewrite length_app, length_fill, length_replicate, IH.
  unfold window. lia.
Qed.

(** X1. Successive frames slide the history over the stream of
    captured samples: after [n] frames the history is what is left of
    the old history followed by all samples normalised since, with
    the first [n] windows dropped; from [N_ROLLING_HISTORY] frames on
    nothing of the old history is left.  The run is defined as long
    as the sample counter has room for [n] windows. *)
Theorem frames_slide_over_the_samples `{!ArraysKeepSize C} (modes : list Z) s :
  ready s ->
  ii (statics s) + Z.of_nat (length modes) * BUFFER_SIZE <= INT_MAX ->
  exists s',
    frames modes s = Some s'
    /\ let n := length modes in
       let samples := map normalize (stream n (periph s)) in
       y_data (this s') = drop (n * window) (y_data (this s) ++ samples)
       /\ length samples = (n * window)%nat
       /\ len (y_data (this s')) = N_ROLLING_HISTORY * BUFFER_SIZE
       /\ ((depth <= n)%nat ->
           y_data (this s') = drop ((n - depth) * window) samples).
Proof.
  intros Hready Hii.
  pose proof (ready_sizes s Hready) as Hyn.
  destruct Hready as (HW & HD & Hrate & Hy & _ & Hlight).
  destruct (frames_run modes s HW HD Hrate Hy Hlight Hii)
    as (s' & Hrun & Hy' & _).
  exists s'. split; [exact Hrun|]. cbv zeta.
  assert (Hlen : length (map normalize (stream (length modes) (periph s)))
                 = (length modes * window)%nat)
    by (rewrite length_map; apply length_stream).
  split; [exact Hy'|]. split; [exact Hlen|]. split.
  - unfold len in *. rewrite Hy', length_drop, length_app, Hlen.
    rewrite Z.mul_comm, <- Hy. lia.
  - intros Hn. rewrite Hy', drop_app_ge by nia.
    f_equal. rewrite Hyn. nia.
Qed.

(** ** What a defined call tells about the state it started in *)

Lemma for_from_keeps {X : Type} (f : Machine -> X)
  (body : Z -> Machine -> option Machine) :
  (forall k s s1, body k s = Some s1 -> f s1 = f s) ->
  forall n (k : Z) s s', for_from n k body s = Some s' -> f s' = f s.
Proof.
  intros Hbody. induction n as [|n IH]; intros k s s' Hrun.
  - now injection Hrun as <-.
  - simpl in Hrun. destruct (body k s) as [s1|] eqn:Hstep; [|discriminate].
    simpl in Hrun. rewrite (IH _ _ _ Hrun). now apply (Hbody k).
Qed.

Lemma shift_step_keeps (k : Z) s s1 :
  shift_step k s = Some s1 ->
  (statics s1, p_it s1, physic_leds (this s1))
  = (statics s, p_it s, physic_leds (this s)).
Proof.
  unfold shift_step. destruct (memcpy _ _ _ _) as [y|]; [|discriminate].
  now intros [= <-].
Qed.

Lemma copy_step_keeps (k : Z) s s1 :
  copy_step k s = Some s1 ->
  (statics s1, this s1, length (p_it s1)) = (statics s, this s, length (p_it s)).
Proof.
  unfold copy_step. destruct (arr_get _ _) as [p|]; [|discriminate]. simpl.
  unfold arr_set. destruct (_ && _); [|discriminate]. simpl.
  intros [= <-]. cbn. now rewrite length_insert.
Qed.

Lemma ingest_step_keeps CurrentMode buf (k : Z) s s1 :
  ingest_step CurrentMode buf k s = Some s1 ->
  (p_it s1, physic_leds (this s1)) = (p_it s, physic_leds (this s)).
Proof.
  unfold ingest_step. destruct (arr_get _ _) as [raw|]; [|discriminate]. simpl.
  destruct (arr_set _ _ _) as [y|]; [|discriminate]. simpl.
  destruct (_ <=? INT_MAX); [|discriminate].
  destruct (SAMPLE_RATE =? 0); [discriminate|].
  destruct (Z.rem _ _ =? 0); now intros [= <-].
Qed.

Lemma ingest_step_counts CurrentMode buf (k : Z) s s1 :
  ingest_step CurrentMode buf k s = Some s1 ->
  ii (statics s1) = ii (statics s) + 1 /\ ii (statics s1) <= INT_MAX
  /\ SAMPLE_RATE <> 0.
Proof.
  unfold ingest_step. destruct (arr_get _ _) as [raw|]; [|discriminate]. simpl.
  destruct (arr_set _ _ _) as [y|]; [|discriminate]. simpl.
  destruct (Z.leb_spec (ii (statics s) + 1) INT_MAX); [|discriminate].
  destruct (Z.eqb_spec SAMPLE_RATE 0); [discriminate|].
  destruct (Z.rem _ _ =? 0); intros [= <-]; cbn; auto.
Qed.

Lemma ingest_loop_counts CurrentMode buf : forall n (k : Z) s s',
  for_from n k (ingest_step CurrentMode buf) s = Some s' ->
  ii (statics s') = ii (statics s) + Z.of_nat n
  /\ ((0 < n)%nat -> ii (statics s') <= INT_MAX /\ SAMPLE_RATE <> 0).
Proof.
  induction n as [|n IH]; intros k s s' Hrun.
  - injection Hrun as <-. split; lia.
  - simpl in Hrun.
    destruct (ingest_step CurrentMode buf k s) as [s1|] eqn:Hstep;
      [|discriminate].
    simpl in Hrun. destruct (IH _ _ _ Hrun) as [Hcount Hmax].
    destruct (ingest_step_counts _ _ _ _ _ Hstep) as (H1 & Hle & Hrate).
    split; [lia|]. intros _. split; [|exact Hrate].
    destruct n as [|n]; [|apply Hmax; lia].
    injection Hrun as <-. exact Hle.
Qed.

Lemma copy_loop_bound : forall n (k : Z) s s',
  0 <= k ->
  for_from n k copy_step s = Some s' ->
  n = 0%nat \/ k + Z.of_nat n <= len (physic_leds (this s)).
Proof.
  induction n as [|n IH]; intros k s s' Hk Hrun; [now left|right].
  simpl in Hrun. destruct (copy_step k s) as [s1|] eqn:Hstep; [|discriminate].
  simpl in Hrun.
  pose proof (copy_step_keeps _ _ _ Hstep) as Hkeep.
  injection Hkeep as _ Hthis _.
  assert (Hin : k < len (physic_leds (this s))).
  { unfold copy_step, arr_get in Hstep.
    destruct (0 <=? k); [|discriminate].
    destruct (physic_leds (this s) !! Z.to_nat k) as [p|] eqn:Hp;
      [|discriminate].
    apply lookup_lt_Some in Hp. unfold len. lia. }
  destruct (IH (k + 1) s1 s' ltac:(lia) Hrun) as [->|Hle]; [lia|].
  rewrite Hthis in Hle. lia.
Qed.

(** The phases of a defined call. *)
Lemma ShowFrame_phases CurrentMode s s' :
  ShowFrame CurrentMode s = Some s' ->
  exists s1 s3,
    shift_history s = Some s1
    /\ ingest CurrentMode (capture s1).2 (capture s1).1 = Some s3
    /\ copy_out (dispatch CurrentMode (transform s3)) = Some s'.
Proof.
  unfold ShowFrame.
  destruct (shift_history s) as [s1|] eqn:Hshift; [|discriminate]. simpl.
  destruct (capture s1) as [s2 buf] eqn:Hcap.
  destruct (ingest CurrentMode buf s2) as [s3|] eqn:Hingest; [|discriminate].
  simpl. intros Hcopy. exists s1, s3. rewrite Hcap. auto.
Qed.

Lemma ShowFrame_counts CurrentMode s s' :
  ShowFrame CurrentMode s = Some s' ->
  ii (statics s') = ii (statics s) + Z.of_nat window
  /\ ((0 < window)%nat -> ii (statics s') <= INT_MAX /\ SAMPLE_RATE <> 0).
Proof.
  intros Hrun.
  destruct (ShowFrame_phases _ _ _ Hrun) as (s1 & s3 & Hshift & Hingest & Hcopy).
  assert (H1 : statics s1 = statics s).
  { apply (for_from_keeps statics shift_step) in Hshift; [exact Hshift|].
    intros k x x1 Hx. apply shift_step_keeps in Hx. congruence. }
  destruct (capture_frame s1) as (_ & _ & H2 & _).
  destruct (ingest_loop_counts _ _ _ _ _ _ Hingest) as [H3 Hmax].
  destruct (transform_frame s3) as (_ & _ & _ & _ & _ & H4 & _).
  destruct (dispatch_frame CurrentMode (transform s3)) as (H5 & _).
  assert (H6 : statics s' = statics (dispatch CurrentMode (transform s3))).
  { apply (for_from_keeps statics copy_step) in Hcopy; [exact Hcopy|].
    intros k x x1 Hx. apply copy_step_keeps in Hx. congruence. }
  fold window in H3, Hmax.
  rewrite H6, H5, H4. split; [now rewrite H3, H2, H1|exact Hmax].
Qed.

Lemma frames_count (modes : list Z) : forall s s',
  frames modes s = Some s' ->
  ii (statics s')
  = ii (statics s) + Z.of_nat (length modes) * Z.of_nat window
  /\ (modes <> [] -> (0 < window)%nat -> ii (statics s') <= INT_MAX).
Proof.
  induction modes as [|CurrentMode modes IH]; intros s s' Hrun.
  - injection Hrun as <-. split; [simpl; lia|congruence].
  - simpl in Hrun.
    destruct (ShowFrame CurrentMode s) as [s1|] eqn:Hframe; [|discriminate].
    simpl in Hrun. destruct (IH _ _ Hrun) as [Hcount Hmax].
    destruct (ShowFrame_counts _ _ _ Hframe) as [H1 Hle].
    split; [rewrite Hcount, H1; simpl length; lia|].
    intros _ Hw. destruct modes as [|m modes]; [|now apply Hmax].
    injection Hrun as <-. now apply Hle.
Qed.

(** X2. The static sample counter [ii] is an [int] that every frame
    advances by [BUFFER_SIZE] and nothing resets: a run of frames
    that is defined ends with [ii] advanced by [BUFFER_SIZE] per
    frame and at most [INT_MAX], so no run is defined that would
    carry the counter past [INT_MAX] (the increment overflows). *)
Theorem frames_end_when_the_counter_overflows (modes : list Z) s :
  1 <= BUFFER_SIZE -> modes <> [] ->
  (forall s', frames modes s = Some s' ->
     ii (statics s')
     = ii (statics s) + Z.of_nat (length modes) * BUFFER_SIZE
     /\ ii (statics s') <= INT_MAX)
  /\ (INT_MAX < ii (statics s) + Z.of_nat (length modes) * BUFFER_SIZE ->
      frames modes s = None).
Proof.
  intros HW Hne.
  assert (Hw : Z.of_nat window = BUFFER_SIZE) by (apply window_Z; lia).
  assert (Hall : forall s', frames modes s = Some s' ->
            ii (statics s')
            = ii (statics s) + Z.of_nat (length modes) * BUFFER_SIZE
            /\ ii (statics s') <= INT_MAX).
  { intros s' Hrun. destruct (frames_count _ _ _ Hrun) as [Hcount Hmax].
    rewrite Hw in Hcount. split; [exact Hcount|]. apply Hmax; [exact Hne|lia]. }
  split; [exact Hall|].
  intros Hover. destruct (frames modes s) as [s'|] eqn:Hrun; [|reflexivity].
  destruct (Hall s' eq_refl). lia.
Qed.

(** X3. The copy loop runs to [p_it->size()] and reads
    [physic_leds[i]] unchecked: with a light buffer that has more
    slots than the pixel array has entries, the call reads past the
    end of the pixel array and is undefined, for every mode
    selector. *)
Theorem ShowFrame_reads_past_the_pixel_array CurrentMode s
  `{!ArraysKeepSize C} :
  len (physic_leds (this s)) < len (p_it s) ->
  ShowFrame CurrentMode s = None.
Proof.
  intros Hlong. destruct (ShowFrame CurrentMode s) as [s'|] eqn:Hrun;
    [exfalso|reflexivity].
  destruct (ShowFrame_phases _ _ _ Hrun) as (s1 & s3 & Hshift & Hingest & Hcopy).
  assert (H1 : (p_it s1, physic_leds (this s1)) = (p_it s, physic_leds (this s))).
  { apply (for_from_keeps (fun x => (p_it x, physic_leds (this x))) shift_step)
      in Hshift; [exact Hshift|].
    intros k x x1 Hx. apply shift_step_keeps in Hx. congruence. }
  destruct (capture_frame s1) as (H2 & H2' & _).
  assert (H3 : (p_it s3, physic_leds (this s3))
               = (p_it (capture s1).1, physic_leds (this (capture s1).1))).
  { apply (for_from_keeps (fun x => (p_it x, physic_leds (this x)))
             (ingest_step CurrentMode (capture s1).2)) in Hingest;
      [exact Hingest|].
    intros k x x1 Hx. now apply ingest_step_keeps in Hx. }
  rewrite H2, H2', H1 in H3. injection H3 as Hp3 Hl3.
  destruct (transform_frame s3) as (_ & Hp4 & _ & Hl4 & _).
  destruct (dispatch_frame CurrentMode (transform s3)) as (_ & _ & Hp5 & _).
  pose proof (dispatch_size CurrentMode (transform s3)) as Hl5.
  unfold copy_out, for_lt in Hcopy.
  apply copy_loop_bound in Hcopy; [|lia].
  unfold len in *. rewrite Hl5, Hl4, Hl3, Hp5, Hp4, Hp3 in Hcopy.
  rewrite Nat2Z.id in Hcopy. lia.
Qed.

(** ** A read that delivers less than a window *)
Lemma fill_short (buf data : list Z) :
  (length data <= length buf)%nat ->
  fill buf data = data ++ drop (length data) buf.
Proof.
  intros Hle. unfold fill. apply take_ge.
  rewrite length_app, length_drop. lia.
Qed.

Lemma normalize_zero : normalize 0 = S754_zero false.
Proof. vm_compute. reflexivity. Qed.

Lemma ShowFrame_result_bytes_read CurrentMode s :
  bytes_read (statics (ShowFrame_result CurrentMode s))
  = 2 * Z.min (len (i2s_read MLED_I2S_NUM (BUFFER_SIZE * 2) portMAX_DELAY
                      (periph s)).2) BUFFER_SIZE.
Proof.
  rewrite ShowFrame_result_eq.
  set (s3 := after_ingest CurrentMode s).
  destruct (copied_frame (dispatch CurrentMode (transform s3)))
    as (-> & _).
  destruct (dispatch_frame CurrentMode (transform s3)) as (-> & _).
  assert (Ht : bytes_read (statics (transform s3)) = bytes_read (statics s3)).
  { unfold transform. now destruct (t2mel _ _ _). }
  rewrite Ht. subst s3.
  unfold after_ingest, ingested, emits, set_statics, set_y_data.
  cbn [statics bytes_read]. unfold capture, shifted, emits, set_y_data.
  cbn [periph]. now destruct (i2s_read _ _ _ _).
Qed.

(** X4. [ShowFrame] does not look at [bytes_read].  When the read
    delivers fewer samples than a window, the rest of the new window
    is the zero-initialised rest of [i2s_buf], stored as [+0.0]; the
    sample counter still advances by a whole window, and
    [bytes_read] holds the two bytes per delivered sample. *)
Theorem ShowFrame_pads_a_short_read CurrentMode s `{!ArraysKeepSize C} :
  ready s ->
  let delivered :=
    (i2s_read MLED_I2S_NUM (BUFFER_SIZE * 2) portMAX_DELAY (periph s)).2 in
  (length delivered <= window)%nat ->
  exists s',
    ShowFrame CurrentMode s = Some s'
    /\ drop ((depth - 1) * window) (y_data (this s'))
       = map normalize (map int16_t delivered)
         ++ replicate (window - length delivered) (S754_zero false)
    /\ ii (statics s') = ii (statics s) + BUFFER_SIZE
    /\ bytes_read (statics s') = 2 * len delivered.
Proof.
  intros Hready delivered Hshort.
  exists (ShowFrame_result CurrentMode s).
  split; [now apply ShowFrame_runs|].
  pose proof (ready_sizes s Hready) as Hy.
  destruct (ShowFrame_result_sizes CurrentMode s Hready) as (_ & _ & _ & Hii).
  destruct Hready as (HW & HD & _).
  destruct (ShowFrame_result_frame CurrentMode s HD Hy) as (Hy' & _).
  pose proof (depth_pred HD) as Hsplit.
  split; [|split; [exact Hii|]].
  - rewrite Hy', drop_app_length'.
    + rewrite captured_eq. fold delivered.
      rewrite fill_short by (rewrite length_map, length_replicate; exact Hshort).
      rewrite map_app, length_map, drop_replicate, fmap_replicate.
      now rewrite normalize_zero.
    + rewrite length_drop, Hy, <- Hsplit.
      generalize ((depth - 1) * window)%nat. intros; lia.
  - rewrite ShowFrame_result_bytes_read. fold delivered.
    unfold len. rewrite <- (window_Z HW). lia.
Qed.

(** ** The diagnostic lines *)
Ltac no_log :=
  intros ? Hin;
  first [ apply memcpy_ops_shape in Hin as (? & ? & ? & ->)
        | apply write_ops_shape in Hin as (? & ? & ->)
        | apply visualize_op_shape in Hin as [->|[->| ->]]
        | apply list_elem_of_singleton in Hin as -> ];
  reflexivity.

Lemma count_cons kind (o : Op) (l : list Op) :
  count kind (o :: l)
  = ((if kind o then 1 else 0) + count kind l)%nat.
Proof.
  unfold count. destruct (kind o) eqn:Ho.
  - now rewrite filter_cons_True by assumption.
  - rewrite filter_cons_False; [reflexivity|]. rewrite Ho. discriminate.
Qed.

Lemma next_multiple (cnt rate : Z) :
  0 <= cnt -> 0 < rate ->
  (cnt + 1) / rate - cnt / rate
  = if Z.rem (cnt + 1) rate =? 0 then 1 else 0.
Proof.
  intros Hc Hr. rewrite Z.rem_mod_nonneg by lia.
  pose proof (Z.div_mod cnt rate ltac:(lia)) as Hdm.
  pose proof (Z.mod_pos_bound cnt rate Hr) as Hb.
  destruct (Z.eq_dec (cnt mod rate + 1) rate) as [Heq|Hne].
  - assert (Hnext : cnt + 1 = (cnt / rate + 1) * rate) by lia.
    rewrite Hnext, Z.div_mul, Z.mod_mul by lia. simpl. lia.
  - assert (Hq : (cnt + 1) / rate = cnt / rate).
    { symmetry. apply (Z.div_unique _ _ _ (cnt mod rate + 1)); lia. }
    assert (Hm : (cnt + 1) mod rate = cnt mod rate + 1).
    { symmetry. apply (Z.mod_unique _ _ (cnt / rate)); lia. }
    rewrite Hq, Hm. destruct (Z.eqb_spec (cnt mod rate + 1) 0); lia.
Qed.

Lemma count_logs_window CurrentMode (buf : list Z) : forall idx cnt,
  0 <= cnt -> 0 < SAMPLE_RATE ->
  Z.of_nat (count is_log (window_ops CurrentMode idx cnt buf))
  = (cnt + len buf) / SAMPLE_RATE - cnt / SAMPLE_RATE.
Proof.
  induction buf as [|raw buf IH]; intros idx cnt Hc Hr.
  - unfold len. simpl length. simpl window_ops.
    change (count is_log []) with 0%nat.
    now rewrite Z.add_0_r, Z.sub_diag.
  - simpl window_ops. rewrite count_cons, count_app. simpl is_log.
    rewrite !Nat2Z.inj_add, IH by lia.
    pose proof (next_multiple cnt SAMPLE_RATE Hc Hr) as Hnext.
    unfold len. simpl length. rewrite Nat2Z.inj_succ.
    replace (cnt + Z.succ (Z.of_nat (length buf)))
      with (cnt + 1 + Z.of_nat (length buf)) by lia.
    unfold len in *.
    destruct (Z.rem (cnt + 1) SAMPLE_RATE =? 0);
      [change (count is_log [OpLogD CurrentMode (cnt + 1)]) with 1%nat
      |change (count is_log []) with 0%nat]; lia.
Qed.

(** X5. With a positive [SAMPLE_RATE] and a counter that is not
    negative, a frame logs one diagnostic line for each multiple of
    [SAMPLE_RATE] that the sample counter reaches during the frame,
    and nothing else: their number is
    [(ii + BUFFER_SIZE) / SAMPLE_RATE - ii / SAMPLE_RATE], and each
    reports the mode selector and that multiple. *)
Theorem ShowFrame_logs_once_per_sample_rate CurrentMode s
  `{!ArraysKeepSize C} :
  ready s -> 0 <= ii (statics s) -> 0 < SAMPLE_RATE ->
  exists s',
    ShowFrame CurrentMode s = Some s'
    /\ Z.of_nat (count is_log (performed (ops s) s'))
       = (ii (statics s) + BUFFER_SIZE) / SAMPLE_RATE
         - ii (statics s) / SAMPLE_RATE
    /\ (forall o, o ∈ performed (ops s) s' -> is_log o = true ->
          exists samples,
            o = OpLogD CurrentMode samples
            /\ ii (statics s) < samples <= ii (statics s) + BUFFER_SIZE
            /\ Z.rem samples SAMPLE_RATE = 0).
Proof.
  intros Hready Hpos Hrate.
  exists (ShowFrame_result CurrentMode s).
  split; [now apply ShowFrame_runs|].
  pose proof (ready_sizes s Hready) as Hy.
  destruct Hready as (HW & HD & _).
  destruct (ShowFrame_result_frame CurrentMode s HD Hy) as (_ & _ & _ & Hops).
  rewrite (performed_app _ _ _ Hops).
  pose proof (length_captured s HW) as Hcap.
  split.
  - rewrite !count_app.
    rewrite (count_none is_log (map memcpy_op _)) by no_log.
    rewrite (count_none is_log (visualize_op _ _)) by no_log.
    rewrite (count_none is_log (write_ops _ _)) by no_log.
    rewrite !count_cons. change (count is_log []) with 0%nat. simpl is_log.
    cbv iota. rewrite !Nat.add_0_l, !Nat.add_0_r.
    rewrite count_logs_window by assumption.
    unfold len. now rewrite Hcap, window_Z.
  - intros o Hin Hlog.
    assert (Hwin : o ∈ window_ops CurrentMode
                         (BUFFER_SIZE * (N_ROLLING_HISTORY - 1))
                         (ii (statics s)) (captured s)).
    { rewrite !elem_of_app in Hin.
      destruct Hin as [Hin|[Hin|[Hin|[Hin|[Hin|Hin]]]]]; try exact Hin;
        exfalso; revert Hlog;
        first [ apply memcpy_ops_shape in Hin as (? & ? & ? & ->)
              | apply write_ops_shape in Hin as (? & ? & ->)
              | apply visualize_op_shape in Hin as [->|[->| ->]]
              | apply list_elem_of_singleton in Hin as -> ];
        discriminate. }
    assert (Hlen : len (captured s) = BUFFER_SIZE)
      by (unfold len; now rewrite Hcap, window_Z).
    rewrite <- Hlen. clear -Hwin Hlog.
    revert Hwin. generalize (BUFFER_SIZE * (N_ROLLING_HISTORY - 1)).
    generalize (ii (statics s)).
    induction (captured s) as [|raw buf IH]; intros cnt idx Hwin.
    + now apply elem_of_nil in Hwin.
    + simpl in Hwin. rewrite elem_of_cons, elem_of_app in Hwin.
      unfold len. simpl length. rewrite Nat2Z.inj_succ.
      destruct Hwin as [->|[Hnow|Hlater]]; [discriminate| |].
      * destruct (Z.eqb_spec (Z.rem (cnt + 1) SAMPLE_RATE) 0) as [Hz|];
          [|now apply elem_of_nil in Hnow].
        apply list_elem_of_singleton in Hnow as ->.
        exists (cnt + 1). split; [reflexivity|]. split; [lia|exact Hz].
      * destruct (IH _ _ Hlater) as (samples & -> & Hrange & Hz).
        exists samples. split; [reflexivity|]. unfold len in Hrange.
        split; [lia|exact Hz].
Qed.

(** X6. A frame keeps what the next frame needs: the pixel count
    and the pin and I2S configuration are not written, the sample
    history, the pixel array and the light buffer keep their sizes;
    the state after the frame is [ready] again exactly when the
    counter has room for one more window. *)
Theorem ShowFrame_leaves_the_object_ready CurrentMode s `{!ArraysKeepSize C} :
  ready s ->
  exists s',
    ShowFrame CurrentMode s = Some s'
    /\ n_pixels_ (this s') = n_pixels_ (this s)
    /\ pin_config (this s') = pin_config (this s)
    /\ i2s_config (this s') = i2s_config (this s)
    /\ length (y_data (this s')) = length (y_data (this s))
    /\ length (physic_leds (this s')) = length (physic_leds (this s))
    /\ length (p_it s') = length (p_it s)
    /\ (ii (statics s') + BUFFER_SIZE <= INT_MAX <-> ready s').
Proof.
  intros Hready. exists (ShowFrame_result CurrentMode s).
  split; [now apply ShowFrame_runs|].
  destruct (ShowFrame_result_sizes CurrentMode s Hready)
    as (Hy & Hp & Hl & Hii).
  destruct (ShowFrame_result_config CurrentMode s) as (Hn & Hc & Hg).
  cbv zeta in *.
  split; [exact Hn|]. split; [exact Hc|]. split; [exact Hg|].
  split; [exact Hy|]. split; [exact Hl|]. split; [exact Hp|].
  destruct Hready as (HW & HD & Hrate & HyZ & _ & Hlight).
  split.
  - intros Hroom. unfold ready, len in *. rewrite Hy, Hp, Hl. auto 10.
  - now intros (_ & _ & _ & _ & Hroom & _).
Qed.

(** ** The samples in the history *)
Lemma int16_t_range (z : Z) : -32768 <= int16_t z <= 32767.
Proof.
  unfold int16_t. pose proof (Z.mod_pos_bound (z + 32768) 65536). lia.
Qed.

Lemma elem_of_drop {A : Type} (x : A) (k : nat) (l : list A) :
  x ∈ drop k l -> x ∈ l.
Proof.
  intros Hin. apply list_elem_of_lookup in Hin as [i Hi].
  rewrite lookup_drop in Hi. now apply list_elem_of_lookup_2 in Hi.
Qed.

Lemma elem_of_fill (z : Z) (buf data : list Z) :
  z ∈ fill buf data -> z ∈ data \/ z ∈ buf.
Proof.
  unfold fill. intros Hin. apply elem_of_take in Hin as (i & Hi & _).
  apply list_elem_of_lookup_2, elem_of_app in Hi as [Hi|Hi]; [now left|].
  right. now apply elem_of_drop in Hi.
Qed.

(** C3. Every raw 16-bit sample that a frame captures is stored in
    the newest window of the rolling buffer as [raw / 32768.0]: entry
    [i] of [i2s_buf] after the read, a number between -32768 and
    32767, ends at index [BUFFER_SIZE * (N_ROLLING_HISTORY - 1) + i]
    of [y_data] as [normalize raw].  The [double] quotient has exactly
    the value [raw/32768] and rounding it to [float] changes nothing,
    so the stored float is a valid [float] of value [raw/32768], in
    [[-1, 1]]; a sample -32768 is stored as -1.0 and a sample 32767
    as 32767/32768 (0.999969...). *)
Theorem ShowFrame_stores_exact_quotients CurrentMode s `{!ArraysKeepSize C} :
  ready s ->
  exists s',
    ShowFrame CurrentMode s = Some s'
    /\ let i2s_buf :=
         fill (replicate (Z.to_nat BUFFER_SIZE) 0)
           (map int16_t
              (i2s_read MLED_I2S_NUM (BUFFER_SIZE * 2) portMAX_DELAY
                 (periph s)).2) in
       length i2s_buf = window
       /\ (forall i : nat, (i < window)%nat ->
           exists raw,
             i2s_buf !! i = Some raw
             /\ -32768 <= raw <= 32767
             /\ y_data (this s') !! ((depth - 1) * window + i)%nat
                = Some (normalize raw)
             /\ value_is (f64_div (f64_of_int raw) (f64_lit 32768 1))
                  (raw # 32768)
             /\ value_is (normalize raw) (raw # 32768)
             /\ valid_binary prec32 emax32 (normalize raw) = true
             /\ (forall q : Q, value_is (normalize raw) q -> (-1 <= q <= 1)%Q)
             /\ (raw = -32768 -> normalize raw = f32_lit (-1) 1)
             /\ (raw = 32767 ->
                 normalize raw = S754_finite false 16776704 (-24)))
       /\ normalize (-32768) = f32_lit (-1) 1
       /\ normalize 32767 = S754_finite false 16776704 (-24)
       /\ value_is (normalize 32767) (32767 # 32768).
Proof.
  intros Hready. exists (ShowFrame_result CurrentMode s).
  split; [now apply ShowFrame_runs|].
  pose proof (ready_sizes s Hready) as Hy.
  destruct Hready as (HW & HD & _).
  destruct (ShowFrame_result_frame CurrentMode s HD Hy) as (Hy' & _).
  pose proof (depth_pred HD) as Hsplit.
  pose proof (length_captured s HW) as Hcap.
  assert (Hold : length (drop window (y_data (this s)))
                 = ((depth - 1) * window)%nat).
  { rewrite length_drop, Hy, <- Hsplit.
    generalize ((depth - 1) * window)%nat. intros; lia. }
  cbv zeta. rewrite <- captured_eq.
  split; [exact Hcap|]. split.
  - intros i Hi.
    destruct (lookup_lt_is_Some_2 (captured s) i) as [raw Hraw]; [lia|].
    exists raw. split; [exact Hraw|].
    assert (Hr : -32768 <= raw <= 32767).
    { apply list_elem_of_lookup_2 in Hraw. rewrite captured_eq in Hraw.
      apply elem_of_fill in Hraw as [Hin|Hin].
      - apply list_elem_of_fmap in Hin as (z & -> & _). apply int16_t_range.
      - apply elem_of_replicate_inv in Hin as ->. lia. }
    split; [exact Hr|]. split.
    { rewrite Hy', <- Hold, lookup_app_r by lia.
      rewrite Nat.add_comm, Nat.add_sub, list_lookup_fmap, Hraw.
      reflexivity. }
    destruct (normalize_exact raw Hr) as (Hd & Hf & Hv & Hq & Hmin & Hmax & _).
    split; [exact Hd|]. split; [exact Hf|]. split; [exact Hv|].
    split; [exact Hq|]. split; intros ->; assumption.
  - destruct (normalize_exact 0 ltac:(lia)) as (_ & _ & _ & _ & Hmin & Hmax).
    split; [exact Hmin|exact Hmax].
Qed.

Lemma stream_int16 (n : nat) : forall d z,
  z ∈ stream n d -> -32768 <= z <= 32767.
Proof.
  induction n as [|n IH]; intros d z Hin; [now apply elem_of_nil in Hin|].
  simpl in Hin. apply elem_of_app in Hin as [Hin|Hin]; [|now apply IH in Hin].
  apply elem_of_fill in Hin as [Hin|Hin].
  - apply list_elem_of_fmap in Hin as (raw & -> & _). apply int16_t_range.
  - apply elem_of_replicate_inv in Hin as ->. lia.
Qed.

(** X7. From [N_ROLLING_HISTORY] frames on, every entry of the sample
    history is the normalisation of a 16-bit sample: a valid [float]
    of value [raw/32768] for some [raw] between -32768 and 32767,
    whatever the history held before the first frame. *)
Theorem frames_fill_the_history_with_samples `{!ArraysKeepSize C}
  (modes : list Z) s :
  ready s ->
  ii (statics s) + Z.of_nat (length modes) * BUFFER_SIZE <= INT_MAX ->
  (depth <= length modes)%nat ->
  exists s',
    frames modes s = Some s'
    /\ forall x, x ∈ y_data (this s') ->
         exists raw,
           -32768 <= raw <= 32767
           /\ x = normalize raw
           /\ value_is x (raw # 32768)
           /\ valid_binary prec32 emax32 x = true.
Proof.
  intros Hready Hii Hn.
  pose proof (ready_sizes s Hready) as Hyn.
  destruct Hready as (HW & HD & Hrate & Hy & _ & Hlight).
  destruct (frames_run modes s HW HD Hrate Hy Hlight Hii)
    as (s' & Hrun & Hy' & _).
  exists s'. split; [exact Hrun|].
  intros x Hx. rewrite Hy', drop_app_ge in Hx by nia.
  apply elem_of_drop, list_elem_of_fmap in Hx as (raw & -> & Hraw).
  apply stream_int16 in Hraw.
  exists raw. split; [exact Hraw|]. split; [reflexivity|].
  now apply normalize_value.
Qed.
End Runs.

(** ** At the concrete configuration *)
Lemma ShowFrame_stores_exact_quotients_witness :
  exists s',
    ShowFrame (H := demo_header) 1 (demo_machine 3 3) = Some s'
    /\ y_data (this s') !! 4%nat = Some (f32_lit (-1) 1)
    /\ y_data (this s') !! 5%nat = Some (S754_finite false 16776704 (-24)).
Proof.
  assert (Hsizes : ArraysKeepSize demo_collaborators) by demo_sizes.
  assert (Hready : ready (H := demo_header) (demo_machine 3 3)) by demo_ready.
  destruct (ShowFrame_stores_exact_quotients (H := demo_header) 1
              (demo_machine 3 3) Hready) as (s' & Hrun & _ & Hall & _).
  exists s'. split; [exact Hrun|].
  destruct (Hall 0%nat ltac:(vm_compute; lia))
    as (low & Hlow & _ & Hy4 & _ & _ & _ & _ & Hmin & _).
  destruct (Hall 1%nat ltac:(vm_compute; lia))
    as (high & Hhigh & _ & Hy5 & _ & _ & _ & _ & _ & Hmax).
  vm_compute in Hlow, Hhigh. injection Hlow as <-. injection Hhigh as <-.
  rewrite <- (Hmin eq_refl), <- (Hmax eq_refl). split; [exact Hy4|exact Hy5].
Defined.

Lemma frames_slide_over_the_samples_witness :
  exists s',
    frames (H := demo_header) [1; 7] (demo_machine 3 3) = Some s'
    /\ y_data (this s')
       = [ S754_zero false; S754_zero false;
           S754_finite true 8388608 (-23); S754_finite false 16776704 (-24);
           S754_finite false 13107200 (-32); S754_finite true 13107200 (-31) ].
Proof.
  assert (Hsizes : ArraysKeepSize demo_collaborators) by demo_sizes.
  assert (Hready : ready (H := demo_header) (demo_machine 3 3)) by demo_ready.
  destruct (frames_slide_over_the_samples (H := demo_header) [1; 7]
              (demo_machine 3 3) Hready ltac:(vm_compute; discriminate))
    as (s' & Hrun & Hy & _).
  exists s'. split; [exact Hrun|]. rewrite Hy. vm_compute. reflexivity.
Defined.

Lemma frames_end_when_the_counter_overflows_witness :
  frames (H := demo_header) [1; 7]
    (set_statics (mkStatics [] 0 (INT_MAX - 3)) (demo_machine 3 3))
  = None.
Proof.
  apply (frames_end_when_the_counter_overflows (H := demo_header) [1; 7]
           (set_statics (mkStatics [] 0 (INT_MAX - 3)) (demo_machine 3 3))).
  - vm_compute. discriminate.
  - discriminate.
  - vm_compute. reflexivity.
Defined.

Lemma ShowFrame_reads_past_the_pixel_array_witness :
  ShowFrame (H := demo_header) 1 (demo_machine 2 3) = None.
Proof.
  assert (Hsizes : ArraysKeepSize demo_collaborators) by demo_sizes.
  apply (ShowFrame_reads_past_the_pixel_array (H := demo_header) 1
           (demo_machine 2 3)).
  vm_compute. reflexivity.
Defined.

Lemma ShowFrame_pads_a_short_read_witness :
  exists s',
    ShowFrame (H := demo_header) 1
      (set_periph (C := demo_collaborators) [12345] (demo_machine 3 3))
    = Some s'
    /\ drop 4 (y_data (this s'))
       = [S754_finite false 12641280 (-25); S754_zero false]
    /\ ii (statics s') = 2
    /\ bytes_read (statics s') = 2.
Proof.
  assert (Hsizes : ArraysKeepSize demo_collaborators) by demo_sizes.
  assert (Hready : ready (H := demo_header)
                     (set_periph (C := demo_collaborators) [12345]
                        (demo_machine 3 3))) by demo_ready.
  destruct (ShowFrame_pads_a_short_read (H := demo_header) 1 _ Hready)
    as (s' & Hrun & Hy & Hii & Hbytes).
  { vm_compute. lia. }
  exists s'. split; [exact Hrun|]. split; [exact Hy|].
  split; [exact Hii|exact Hbytes].
Defined.

Lemma ShowFrame_logs_once_per_sample_rate_witness :
  exists s',
    ShowFrame (H := demo_header) 1 (demo_machine 3 3) = Some s'
    /\ count is_log (performed [] s') = 1%nat.
Proof.
  assert (Hsizes : ArraysKeepSize demo_collaborators) by demo_sizes.
  assert (Hready : ready (H := demo_header) (demo_machine 3 3)) by demo_ready.
  destruct (ShowFrame_logs_once_per_sample_rate (H := demo_header) 1
              (demo_machine 3 3) Hready)
    as (s' & Hrun & Hcount & _).
  { vm_compute. discriminate. }
  { vm_compute. reflexivity. }
  exists s'. split; [exact Hrun|].
  apply Nat2Z.inj. exact Hcount.
Defined.

Lemma ShowFrame_leaves_the_object_ready_witness :
  exists s',
    ShowFrame (H := demo_header) 1 (demo_machine 3 3) = Some s'
    /\ n_pixels_ (this s') = 3
    /\ ready (H := demo_header) s'.
Proof.
  assert (Hsizes : ArraysKeepSize demo_collaborators) by demo_sizes.
  assert (Hready : ready (H := demo_header) (demo_machine 3 3)) by demo_ready.
  destruct (ShowFrame_leaves_the_object_ready (H := demo_header) 1
              (demo_machine 3 3) Hready)
    as (s' & Hrun & Hn & _ & _ & _ & _ & _ & Hnext).
  exists s'. split; [exact Hrun|]. split; [exact Hn|].
  apply Hnext.
  assert (Hii : ii (statics s') = 2).
  { vm_compute in Hrun. injection Hrun as <-. reflexivity. }
  rewrite Hii. vm_compute. discriminate.
Defined.

Lemma frames_fill_the_history_with_samples_witness :
  exists s',
    frames (H := demo_header) [1; 7; 0] (demo_machine 3 3) = Some s'
    /\ forall x, x ∈ y_data (this s') ->
         exists raw, -32768 <= raw <= 32767 /\ x = normalize raw.
Proof.
  assert (Hsizes : ArraysKeepSize demo_collaborators) by demo_sizes.
  assert (Hready : ready (H := demo_header) (demo_machine 3 3)) by demo_ready.
  destruct (frames_fill_the_history_with_samples (H := demo_header) [1; 7; 0]
              (demo_machine 3 3) Hready)
    as (s' & Hrun & Hall).
  { vm_compute. discriminate. }
  { vm_compute. lia. }
  exists s'. split; [exact Hrun|].
  intros x Hx. destruct (Hall x Hx) as (raw & Hr & Hn & _).
  exists raw. split; [exact Hr|exact Hn].
Defined.

End MusicLedsFacts.
